(** * Leaf-level nearest-neighbour search of the binary space-partitioning tree

    A shallow embedding of [fastlib/u/nvasil/tree/node_impl.h]: the node
    constructor and initialisers, [InitKNeighbors], [ClosestNode], the
    brute-force leaf scan [FindNearest], the all-points driver
    [FindAllNearest] and [Print].

    Buffers reached through a pointer are lists of the elements the pointer
    addresses (a NULL pointer addresses none); reading or writing a slot that
    is not there, or stepping an iterator past the end of its vector, is
    undefined behaviour and ends a run in [Undefined].  Nodes live in an
    arena and are named by their position in it. *)

From stdpp Require Import base list sorting strings pretty.
From Stdlib Require Import SpecFloat.

(** [index_t]: point identifiers, point counts and buffer offsets.  The
    buffers of a node are taken to fit the index type, so offsets do not
    wrap. *)
Definition index_t := nat.

(** ** A sorting routine meeting the contract of [std::sort]

    Straight insertion, which is what library implementations run on short
    ranges.  It is used to instantiate the sort the embedding is
    parameterised by. *)

Fixpoint insert_sorted {A : Type} (comp : A → A → bool) (x : A) (l : list A) : list A :=
  match l with
  | [] => [x]
  | y :: l' => if comp x y then x :: l else y :: insert_sorted comp x l'
  end.

Fixpoint insertion_sort {A : Type} (comp : A → A → bool) (l : list A) : list A :=
  match l with
  | [] => []
  | x :: l' => insert_sorted comp x (insertion_sort comp l')
  end.

(** The line feed that ends the lines [Print] produces. *)
Definition newline : string := String (Ascii.ascii_of_nat 10) EmptyString.

Section NodeImpl.

Set Default Proof Using "Type".

(** ** Template parameters and collaborators declared outside this file *)

(** [Precision_t] with its [operator<] and its [operator<=]. *)
Variable Precision_t : Type.
Variable Precision_lt : Precision_t → Precision_t → bool.
Variable Precision_le : Precision_t → Precision_t → bool.
(** The literal [0] and [numeric_limits<Precision_t>::max()]. *)
Variable Precision_zero : Precision_t.
Variable Precision_max : Precision_t.
Variable BoundingBox_t : Type.
Variable NodeCachedStatistics_t : Type.
(** The [diagnostic] template flag of [ComputationsCounter]. *)
Variable diagnostic : bool.

(** A point aliases [dimension] coordinates of some leaf's point buffer and
    carries the original dataset id.  Point buffers are never written after
    [Init], so the alias is modelled by the coordinates it sees. *)
Record Point_t := { p_ : list Precision_t; id_ : index_t }.

Definition Alias (ptr : list Precision_t) (id : index_t) : Point_t :=
  {| p_ := ptr; id_ := id |}.

Definition get_id (p : Point_t) : index_t := id_ p.

(** The default-constructed point (its constructor is declared elsewhere). *)
Variable Point_default : Point_t.

(** [BoundingBox_t::Distance(query_point, coordinates, dimension)], which
    is declared elsewhere.  It is handed the coordinates the buffer holds at
    the pointer it is passed; what it reads of them is its own matter. *)
Variable Distance : Point_t → list Precision_t → nat → Precision_t.
(** [PointIdDiscriminator_t::AreTheSame]. *)
Variable AreTheSame : index_t → index_t → bool.
(** [BoundingBox_t::Print], the [%lg] conversion of [sprintf], [strerror]. *)
Variable BoundingBox_Print : BoundingBox_t → nat → string.
Variable sprintf_lg : Precision_t → string.
Variable strerror : nat → string.

(** An element of the candidate vector: [pair<Precision_t, Point_t>]. *)
Abbreviation candidate := (Precision_t * Point_t)%type (only parsing).

(** Modelled from the spec: [PairComparator] is declared in the node's header,
    which is not among the sources.  The spec orders candidates by distance
    and breaks ties between equal distances by ascending original point
    id. *)
Definition PairComparator (a b : candidate) : bool :=
  Precision_lt a.1 b.1
  || (negb (Precision_lt b.1 a.1) && Nat.ltb (id_ a.2) (id_ b.2)).

(** [std::sort(first, last, PairComparator())]: any routine that returns a
    rearrangement of its input in which no element is ordered before an
    earlier one. *)
Variable std_sort : list candidate → list candidate.

(** A neighbour record; both the [kneighbors_] slots and the records of the
    range file have these three fields. *)
Record NNResult := {
  point_id_ : index_t;
  nearest_ : Point_t;
  distance_ : Precision_t
}.

Definition set_point_id (id : index_t) (r : NNResult) : NNResult :=
  {| point_id_ := id; nearest_ := nearest_ r; distance_ := distance_ r |}.
Definition set_nearest (p : Point_t) (r : NNResult) : NNResult :=
  {| point_id_ := point_id_ r; nearest_ := p; distance_ := distance_ r |}.
Definition set_distance (d : Precision_t) (r : NNResult) : NNResult :=
  {| point_id_ := point_id_ r; nearest_ := nearest_ r; distance_ := d |}.

Definition NodePtr_t := nat.

Record Node := {
  box_ : BoundingBox_t;
  statistics_ : NodeCachedStatistics_t;
  left_ : option NodePtr_t;
  right_ : option NodePtr_t;
  points_ : list Precision_t;
  index_ : list index_t;
  kneighbors_ : list NNResult;
  node_id_ : index_t;
  num_of_points_ : index_t;
  min_dist_so_far_ : Precision_t
}.

Definition set_kneighbors (buf : list NNResult) (n : Node) : Node :=
  {| box_ := box_ n; statistics_ := statistics_ n; left_ := left_ n;
     right_ := right_ n; points_ := points_ n; index_ := index_ n;
     kneighbors_ := buf; node_id_ := node_id_ n;
     num_of_points_ := num_of_points_ n;
     min_dist_so_far_ := min_dist_so_far_ n |}.

(** The range file: the records written so far, how many more the device
    takes before writes fail, the [errno] a failed write leaves, and how
    many writes the device has refused. *)
Record FILE := {
  written : list NNResult;
  room : nat;
  io_errno : nat;
  refused : nat
}.

Record ComputationsCounter := {
  distances : nat;
  comparisons : nat
}.

(** What a query can touch: the arena of nodes, the range file and the
    computations counter. *)
Record State := {
  memory : list Node;
  range_nn_fp_ : FILE;
  comp : ComputationsCounter
}.

Definition set_memory (m : list Node) (s : State) : State :=
  {| memory := m; range_nn_fp_ := range_nn_fp_ s; comp := comp s |}.
Definition set_file (f : FILE) (s : State) : State :=
  {| memory := memory s; range_nn_fp_ := f; comp := comp s |}.
Definition set_comp (c : ComputationsCounter) (s : State) : State :=
  {| memory := memory s; range_nn_fp_ := range_nn_fp_ s; comp := c |}.

(** ** The monad of the embedding *)

Inductive outcome (A : Type) : Type :=
  | Ok (a : A) (s : State)
  | Fatal (msg : string) (s : State)
  | Undefined.
Arguments Ok {A} a s.
Arguments Fatal {A} msg s.
Arguments Undefined {A}.

Definition M (A : Type) : Type := State → outcome A.

Definition ret {A : Type} (a : A) : M A := λ s, Ok a s.

Definition bind {A B : Type} (c : M A) (k : A → M B) : M B :=
  λ s, match c s with
       | Ok a s' => k a s'
       | Fatal msg s' => Fatal msg s'
       | Undefined => Undefined
       end.

Notation "x <- c ;; k" := (bind c (λ x, k))
  (at level 100, c at next level, right associativity).
Notation "c ;;; k" := (bind c (λ _, k))
  (at level 100, right associativity).

Definition undefined {A : Type} : M A := λ _, Undefined.

(** Modelled from the spec: the [FATAL] macro is declared elsewhere; a fatal
    error aborts the operation in flight with its message. *)
Definition FATAL {A : Type} (msg : string) : M A := λ s, Fatal msg s.

Definition of_option {A : Type} (o : option A) : M A :=
  match o with
  | Some a => ret a
  | None => undefined
  end.

(** [for (i = start; i < start + count; i++) body], the variables the body
    assigns being threaded through as [a]. *)
Fixpoint for_range {A : Type} (start count : nat) (body : nat → A → M A) (a : A) : M A :=
  match count with
  | 0 => ret a
  | S count' => a' <- body start a ;; for_range (S start) count' body a'
  end.

(** *** Access to nodes and their buffers *)

Definition deref (p : NodePtr_t) : M Node :=
  λ s, of_option (memory s !! p) s.

Definition index_at (p : NodePtr_t) (i : nat) : M index_t :=
  n <- deref p ;; of_option (index_ n !! i).

Definition points_at (p : NodePtr_t) (i : nat) : M Precision_t :=
  n <- deref p ;; of_option (points_ n !! i).

(** [points_.get() + offset], seen as the [dimension] coordinates there:
    the pointer is formed and handed on, not read.  On a node whose point
    buffer holds [dimension] coordinates for each of its points, as [Init]
    leaves it, these are the coordinates of the point. *)
Definition points_from (p : NodePtr_t) (offset dimension : nat) : M (list Precision_t) :=
  n <- deref p ;; ret (take dimension (drop offset (points_ n))).

Definition kneighbors_at (p : NodePtr_t) (i : nat) : M NNResult :=
  n <- deref p ;; of_option (kneighbors_ n !! i).

(** An assignment to a field of [kneighbors_[i]]. *)
Definition kneighbors_assign (p : NodePtr_t) (i : nat) (f : NNResult → NNResult) : M unit :=
  n <- deref p ;;
  r <- of_option (kneighbors_ n !! i) ;;
  λ s, Ok tt (set_memory (<[p := set_kneighbors (<[i := f r]> (kneighbors_ n)) n]> (memory s)) s).

(** Modelled from the spec: the counter's update operations are declared
    elsewhere; they count when [diagnostic] is set and are no-ops
    otherwise. *)
Definition UpdateDistances : M unit :=
  λ s, Ok tt (if diagnostic
              then set_comp {| distances := S (distances (comp s));
                               comparisons := comparisons (comp s) |} s
              else s).

Definition UpdateComparisons : M unit :=
  λ s, Ok tt (if diagnostic
              then set_comp {| distances := distances (comp s);
                               comparisons := S (comparisons (comp s)) |} s
              else s).

(** [fwrite(&result, sizeof(NNResult), 1, range_nn_fp_)]: the number of
    records written, 1 or 0. *)
Definition fwrite (r : NNResult) : M nat :=
  λ s, let f := range_nn_fp_ s in
       match room f with
       | 0 => Ok 0 (set_file {| written := written f; room := 0;
                                io_errno := io_errno f;
                                refused := S (refused f) |} s)
       | S n => Ok 1 (set_file {| written := written f ++ [r]; room := n;
                                  io_errno := io_errno f;
                                  refused := refused f |} s)
       end.

Definition errno : M nat := λ s, Ok (io_errno (range_nn_fp_ s)) s.

(** ** Construction *)

(** [Node::Node()].  The members the constructor does not assign are
    passed in ([box], [statistics], [num_of_points]). *)
Definition Node_new (box : BoundingBox_t) (statistics : NodeCachedStatistics_t)
    (num_of_points : index_t) (index_max : index_t) : Node :=
  {| box_ := box; statistics_ := statistics;
     left_ := None; right_ := None;
     points_ := []; index_ := [];
     kneighbors_ := [];
     node_id_ := index_max;
     num_of_points_ := num_of_points;
     min_dist_so_far_ := Precision_max |}.

(** [Init] of an internal node. *)
Definition Init (box : BoundingBox_t) (statistics : NodeCachedStatistics_t)
    (node_id num_of_points : index_t) (n : Node) : Node :=
  {| box_ := box; statistics_ := statistics;
     left_ := left_ n; right_ := right_ n;
     points_ := points_ n; index_ := index_ n;
     kneighbors_ := kneighbors_ n;
     node_id_ := node_id;
     num_of_points_ := num_of_points;
     min_dist_so_far_ := min_dist_so_far_ n |}.

(** [BinaryDataset<Precision_t>]: [At(i, j)] and [get_id(i)]. *)
Record BinaryDataset := {
  At : nat → nat → Precision_t;
  dataset_get_id : nat → index_t
}.

(** [Init] of a leaf: fresh buffers holding the slice
    [start, start + num_of_points) of the dataset. *)
Definition Init_leaf (box : BoundingBox_t) (statistics : NodeCachedStatistics_t)
    (node_id start num_of_points : index_t) (dimension : nat)
    (dataset : BinaryDataset) (n : Node) : Node :=
  {| box_ := box; statistics_ := statistics;
     left_ := left_ n; right_ := right_ n;
     points_ := flat_map (λ i, map (At dataset i) (seq 0 dimension))
                         (seq start num_of_points);
     index_ := map (dataset_get_id dataset) (seq start num_of_points);
     kneighbors_ := kneighbors_ n;
     node_id_ := node_id;
     num_of_points_ := num_of_points;
     min_dist_so_far_ := min_dist_so_far_ n |}.

(** [InitKNeighbors]. *)
Definition InitKNeighbors (this : NodePtr_t) (knns : nat) : M unit :=
  n <- deref this ;;
  for_range 0 (num_of_points_ n) (λ i _,
    for_range 0 knns (λ j _,
      id <- index_at this i ;;
      kneighbors_assign this (i * knns + j) (set_point_id id)) tt) tt.

(** ** Queries *)

(** [NEIGHBORTYPE]: a floating-point radius selects the range search, an
    integral count the k-nearest search
    ([Loki::TypeTraits<NEIGHBORTYPE>::isStdFloat]).  Counts are taken
    non-negative and within [int32], where the casts of [range] to
    [index_t], [uint32] and [int32] all denote the same number. *)
Inductive NEIGHBORTYPE : Type :=
  | Radius (r : Precision_t)
  | KNearest (k : nat).

Definition isStdFloat (range : NEIGHBORTYPE) : bool :=
  match range with
  | Radius _ => true
  | KNearest _ => false
  end.

(** The scan of [FindNearest]: the loop over the points of the leaf. *)
Definition FindNearest_scan (this : NodePtr_t) (query_point : Point_t)
    (nearest : list candidate) (range : NEIGHBORTYPE) (dimension : nat) : M (list candidate) :=
  n <- deref this ;;
  for_range 0 (num_of_points_ n) (λ i nearest,
    UpdateDistances ;;;
    id <- index_at this i ;;
    if AreTheSame id (get_id query_point) then ret nearest
    else
      ptr <- points_from this (i * dimension) dimension ;;
      let dist := Distance query_point ptr dimension in
      match range with
      | Radius r =>
          if Precision_le dist r
          then ret (nearest ++ [(dist, Alias ptr id)])
          else ret nearest
      | KNearest _ => ret (nearest ++ [(dist, Alias ptr id)])
      end) nearest.

(** An iterator of a vector is its distance from [begin()].  [it++] on an
    iterator of a vector of [size] elements: an iterator that is at [end()]
    cannot be incremented. *)
Definition iterator_next (size it : nat) : M nat :=
  if decide (it < size) then ret (S it) else undefined.

(** The position the k-nearest trim erases from: [nearest.begin()]
    incremented [k] times, before the sort and before the size of the
    vector is looked at. *)
Definition trim_boundary (nearest : list candidate) (k : nat) : M nat :=
  for_range 0 k (λ _ it, iterator_next (length nearest) it) 0.

(** [nearest.erase(it, nearest.end())]. *)
Definition erase_from (it : nat) (nearest : list candidate) : list candidate :=
  take it nearest.

(** The sentinel the k-nearest list is padded with. *)
Definition dummy : candidate := (Precision_max, Point_default).

(** The trim of [FindNearest]: find the boundary, sort, then cut at the
    boundary or pad to [k]. *)
Definition FindNearest_trim (k : nat) (nearest : list candidate) : M (list candidate) :=
  it <- trim_boundary nearest k ;;
  let nearest := std_sort nearest in
  if k <? length nearest
  then ret (erase_from it nearest)
  else ret (nearest ++ replicate (k - length nearest) dummy).

Definition FindNearest (this : NodePtr_t) (query_point : Point_t)
    (nearest : list candidate) (range : NEIGHBORTYPE) (dimension : nat) : M (list candidate) :=
  nearest <- FindNearest_scan this query_point nearest range dimension ;;
  match range with
  | Radius _ => ret nearest
  | KNearest k => FindNearest_trim k nearest
  end.

(** The message of the fatal error of a failed range write. *)
Definition write_error (e : nat) : string :=
  "Error while writing range nearest neighbors: "%string +:+ strerror e +:+ newline.

(** One round of [FindAllNearest] in k-nearest mode: the work for the
    query node's point [i].  The first read is the one into the local
    [distance], which the code does not use afterwards; its index
    [i * k + k - 1] is negative, hence out of the buffer, when [k] is 0.
    The debug assertion that [FindNearest] returned [k] entries is not
    modelled: it holds of every list [FindNearest] returns
    ([FindNearest_trim_Ok]). *)
Definition FindAllNearest_knn_point (this query_node : NodePtr_t) (k dimension : nat)
    (i : nat) (max_local_distance : Precision_t) : M Precision_t :=
  _distance <- match i * k + k with
               | 0 => undefined
               | S last => r <- kneighbors_at query_node last ;; ret (distance_ r)
               end ;;
  temp <- for_range 0 k (λ j temp,
            r <- kneighbors_at query_node (i * k + j) ;;
            ret (<[j := (distance_ r, nearest_ r)]> temp))
          (replicate k (Precision_zero, Point_default)) ;;
  ptr <- points_from query_node (i * dimension) dimension ;;
  id <- index_at query_node i ;;
  let point := Alias ptr id in
  temp <- FindNearest this point temp (KNearest k) dimension ;;
  for_range 0 k (λ j _,
    c <- of_option (temp !! j) ;;
    kneighbors_assign query_node (i * k + j) (set_distance c.1) ;;;
    kneighbors_assign query_node (i * k + j) (set_nearest c.2)) tt ;;;
  UpdateComparisons ;;;
  back <- of_option (last temp) ;;
  if Precision_lt max_local_distance back.1
  then ret back.1
  else ret max_local_distance.

(** One round of [FindAllNearest] in range mode. *)
Definition FindAllNearest_range_point (this query_node : NodePtr_t) (r : Precision_t)
    (dimension : nat) (i : nat) : M unit :=
  ptr <- points_from query_node (i * dimension) dimension ;;
  id <- index_at query_node i ;;
  let point := Alias ptr id in
  temp <- FindNearest this point [] (Radius r) dimension ;;
  for_range 0 (length temp) (λ j _,
    id <- index_at query_node i ;;
    c <- of_option (temp !! j) ;;
    let result := {| point_id_ := id; nearest_ := c.2; distance_ := c.1 |} in
    n <- fwrite result ;;
    if n =? 1 then ret tt
    else e <- errno ;; FATAL (write_error e)) tt.

(** [FindAllNearest]; the result is the new value of
    [max_neighbor_distance]. *)
Definition FindAllNearest (this query_node : NodePtr_t)
    (max_neighbor_distance : Precision_t) (range : NEIGHBORTYPE)
    (dimension : nat) : M Precision_t :=
  q <- deref query_node ;;
  max_local_distance <-
    for_range 0 (num_of_points_ q) (λ i max_local_distance,
      match range with
      | KNearest k =>
          FindAllNearest_knn_point this query_node k dimension i max_local_distance
      | Radius r =>
          FindAllNearest_range_point this query_node r dimension i ;;;
          ret max_local_distance
      end) Precision_zero ;;
  match range with
  | Radius r => ret r
  | KNearest _ =>
      if Precision_lt max_local_distance max_neighbor_distance
      then ret max_local_distance
      else ret max_neighbor_distance
  end.

(** Modelled from the spec: [IsLeaf] is declared in the node's header; a node
    is a leaf iff it has no children. *)
Definition IsLeaf (n : Node) : bool :=
  match left_ n, right_ n with
  | None, None => true
  | _, _ => false
  end.

(** [Print]. *)
Definition Print (this : NodePtr_t) (dimension : nat) : M string :=
  n <- deref this ;;
  let str := ""%string in
  let str := str +:+ (if IsLeaf n then "Leaf: "%string else "Node: "%string)
                 +:+ pretty (node_id_ n) +:+ newline in
  let str := str +:+ BoundingBox_Print (box_ n) dimension in
  let str := str +:+ "num_of_points: "%string in
  let str := str +:+ pretty (num_of_points_ n) +:+ newline in
  if IsLeaf n then
    for_range 0 (num_of_points_ n) (λ i str,
      str <- for_range 0 dimension (λ j str,
               x <- points_at this (i * dimension + j) ;;
               ret (str +:+ sprintf_lg x +:+ " "%string)) str ;;
      id <- index_at this i ;;
      ret (str +:+ "-"%string +:+ pretty id +:+ " "%string +:+ newline)) str
  else ret str.

(** ** [Init] of a leaf, statement by statement *)

(** What [Allocator_t::malloc] hands out: a buffer of the requested number
    of elements, holding whatever the allocator left in it. *)
Variable malloc_Precision_t : nat → list Precision_t.
Variable malloc_index_t : nat → list index_t.

Definition set_points (buf : list Precision_t) (n : Node) : Node :=
  {| box_ := box_ n; statistics_ := statistics_ n; left_ := left_ n;
     right_ := right_ n; points_ := buf; index_ := index_ n;
     kneighbors_ := kneighbors_ n; node_id_ := node_id_ n;
     num_of_points_ := num_of_points_ n;
     min_dist_so_far_ := min_dist_so_far_ n |}.

Definition set_index (buf : list index_t) (n : Node) : Node :=
  {| box_ := box_ n; statistics_ := statistics_ n; left_ := left_ n;
     right_ := right_ n; points_ := points_ n; index_ := buf;
     kneighbors_ := kneighbors_ n; node_id_ := node_id_ n;
     num_of_points_ := num_of_points_ n;
     min_dist_so_far_ := min_dist_so_far_ n |}.

(** Assignments to members of the node at [p]. *)
Definition node_assign (p : NodePtr_t) (f : Node → Node) : M unit :=
  n <- deref p ;;
  λ s, Ok tt (set_memory (<[p := f n]> (memory s)) s).

(** [points_[i] = x] and [index_[i] = id]. *)
Definition points_assign (p : NodePtr_t) (i : nat) (x : Precision_t) : M unit :=
  n <- deref p ;;
  _ <- of_option (points_ n !! i) ;;
  λ s, Ok tt (set_memory (<[p := set_points (<[i := x]> (points_ n)) n]> (memory s)) s).

Definition index_assign (p : NodePtr_t) (i : nat) (id : index_t) : M unit :=
  n <- deref p ;;
  _ <- of_option (index_ n !! i) ;;
  λ s, Ok tt (set_memory (<[p := set_index (<[i := id]> (index_ n)) n]> (memory s)) s).

(** [Init] of a leaf as its statements run on the node at [this]: the four
    assignments it shares with [Init] of an internal node, the two
    allocations, and the loops that copy the rows
    [start, start + num_of_points_) of the dataset and their ids. *)
Definition Init_leaf_run (this : NodePtr_t) (box : BoundingBox_t)
    (statistics : NodeCachedStatistics_t) (node_id start num_of_points : index_t)
    (dimension : nat) (dataset : BinaryDataset) : M unit :=
  node_assign this (Init box statistics node_id num_of_points) ;;;
  n <- deref this ;;
  node_assign this (set_points (malloc_Precision_t (num_of_points_ n * dimension))) ;;;
  node_assign this (set_index (malloc_index_t (num_of_points_ n))) ;;;
  n <- deref this ;;
  for_range start (num_of_points_ n) (λ i _,
    for_range 0 dimension (λ j _,
      points_assign this ((i - start) * dimension + j) (At dataset i j)) tt ;;;
    index_assign this (i - start) (dataset_get_id dataset i)) tt.

(** ** Choosing between two nodes *)

(** [BoundingBox_t::Distance(box1, box2, dimension, comp)], the distance
    between two boxes: it is handed the computations counter and leaves it
    as it sees fit. *)
Variable BoundingBox_Distance :
  BoundingBox_t → BoundingBox_t → nat → ComputationsCounter
  → Precision_t * ComputationsCounter.

Definition box_Distance (box1 box2 : BoundingBox_t) (dimension : nat) : M Precision_t :=
  λ s, let r := BoundingBox_Distance box1 box2 dimension (comp s) in
       Ok r.1 (set_comp r.2 s).

(** [ptr->get_box()]. *)
Definition get_box (ptr : NodePtr_t) : M BoundingBox_t :=
  n <- deref ptr ;; ret (box_ n).

(** [ClosestNode]: the two nodes, each with the distance of its box from
    the box of this node. *)
Definition ClosestNode (this ptr1 ptr2 : NodePtr_t) (dimension : nat)
    : M ((NodePtr_t * Precision_t) * (NodePtr_t * Precision_t)) :=
  box <- get_box this ;;
  box1 <- get_box ptr1 ;;
  dist1 <- box_Distance box box1 dimension ;;
  box2 <- get_box ptr2 ;;
  dist2 <- box_Distance box box2 dimension ;;
  if Precision_lt dist1 dist2
  then ret ((ptr1, dist1), (ptr2, dist2))
  else ret ((ptr2, dist2), (ptr1, dist1)).

(** ** Reference definitions, in the words of the specification *)

(** The points of a leaf, in slot order: point [i] aliases the coordinates at
    offset [i * dimension] and carries [index_[i]]. *)
Definition leaf_points_upto (n : Node) (dimension : nat) (count : nat) : list Point_t :=
  imap (λ i id, Alias (take dimension (drop (i * dimension) (points_ n))) id)
       (take count (index_ n)).

Definition leaf_points (n : Node) (dimension : nat) : list Point_t :=
  leaf_points_upto n dimension (num_of_points_ n).

(** The points the discriminator does not exclude for a query point. *)
Definition non_excluded (query_point : Point_t) (pts : list Point_t) : list Point_t :=
  filter (λ p, AreTheSame (id_ p) (get_id query_point) = false) pts.

Definition with_distance (query_point : Point_t) (dimension : nat)
    (pts : list Point_t) : list candidate :=
  map (λ p, (Distance query_point (p_ p) dimension, p)) pts.

(** A linear scan for the k-nearest search: every non-excluded point of the
    leaf with its distance. *)
Definition brute_force_candidates (n : Node) (query_point : Point_t)
    (dimension : nat) : list candidate :=
  with_distance query_point dimension (non_excluded query_point (leaf_points n dimension)).

(** A linear scan for the range search: the non-excluded points within
    distance [r]. *)
Definition brute_force_range (n : Node) (query_point : Point_t) (r : Precision_t)
    (dimension : nat) : list candidate :=
  filter (λ c, Precision_le c.1 r = true) (brute_force_candidates n query_point dimension).

(** What the scan of [FindNearest] appends in either mode. *)
Definition scan_result (n : Node) (query_point : Point_t) (range : NEIGHBORTYPE)
    (dimension : nat) : list candidate :=
  match range with
  | Radius r => brute_force_range n query_point r dimension
  | KNearest _ => brute_force_candidates n query_point dimension
  end.

(** The brute-force k nearest of a leaf: the first [k] of the non-excluded
    points in ascending order of distance, ties by ascending id. *)
Definition brute_force_knn (n : Node) (query_point : Point_t) (k dimension : nat)
    : list candidate :=
  take k (insertion_sort PairComparator (brute_force_candidates n query_point dimension)).

(** [d] is a k-th smallest of the distances of [l]: it is the distance of
    one of the candidates, fewer than [k] of them are nearer than [d], and
    at least [k] of them are no farther than [d]. *)
Definition kth_smallest_distance (k : nat) (d : Precision_t) (l : list candidate) : Prop :=
  (∃ c, c ∈ l ∧ c.1 = d)
  ∧ length (filter (λ c, Precision_lt c.1 d = true) l) < k
  ∧ k ≤ length (filter (λ c, Precision_lt d c.1 = false) l).

(** A leaf whose id buffer covers its points, as [Init] leaves it. *)
Definition leaf_ok (n : Node) : Prop := num_of_points_ n ≤ length (index_ n).

(** Two states that differ at most in the computations counter. *)
Definition same_store (s s' : State) : Prop :=
  memory s' = memory s ∧ range_nn_fp_ s' = range_nn_fp_ s.

(** ** Reasoning about runs *)

(** [wp c Q F U s]: the run of [c] from [s] ends in a result and state
    satisfying [Q], or in a fatal error satisfying [F]; an undefined run is
    accepted only if [U]. *)
Definition wp {A : Type} (c : M A) (Q : A → State → Prop)
    (F : string → State → Prop) (U : Prop) (s : State) : Prop :=
  match c s with
  | Ok a s' => Q a s'
  | Fatal msg s' => F msg s'
  | Undefined => U
  end.

(** What a run returned, and the state it ended in. *)
Definition returned {A : Type} (o : outcome A) : option A :=
  match o with
  | Ok a _ => Some a
  | _ => None
  end.

Definition state_after {A : Type} (o : outcome A) : option State :=
  match o with
  | Ok _ s | Fatal _ s => Some s
  | Undefined => None
  end.

(** ** What the loops compute *)

(** What the scan has appended after the first [count] points of the
    leaf. *)
Definition scan_upto (n : Node) (query_point : Point_t) (range : NEIGHBORTYPE)
    (dimension count : nat) : list candidate :=
  let all := with_distance query_point dimension
               (non_excluded query_point (leaf_points_upto n dimension count)) in
  match range with
  | Radius r => filter (λ c, Precision_le c.1 r = true) all
  | KNearest _ => all
  end.

(** No element of the sorted range is ordered before an earlier one. *)
Definition ascending (l : list candidate) : Prop :=
  StronglySorted (λ a b, PairComparator b a = false) l.

(** The k candidates a query point starts from: slots [i * k .. i * k + k)
    of the neighbours buffer. *)
Definition seeds (buf : list NNResult) (i k : nat) : list candidate :=
  (λ r, (distance_ r, nearest_ r)) <$> take k (drop (i * k) buf).

(** A slot after a candidate has been written back to it. *)
Definition record_candidate (c : candidate) (r : NNResult) : NNResult :=
  set_nearest c.2 (set_distance c.1 r).

(** The query node's point [i]. *)
Definition query_point_at (q : Node) (dimension i : nat) : Point_t :=
  Alias (take dimension (drop (i * dimension) (points_ q))) (index_ q !!! i).

(** The trimmed candidate list of the query node's point [i]. *)
Definition knn_of_point (n q : Node) (buf : list NNResult) (k dimension i : nat)
    : list candidate :=
  take k (std_sort (seeds buf i k
                    ++ brute_force_candidates n (query_point_at q dimension i) dimension)).

(** The buffer after the slots [i * k .. i * k + upto) took the candidates
    [res]. *)
Definition update_slots (buf : list NNResult) (i k upto : nat) (res : list candidate)
    : list NNResult :=
  imap (λ m r, if decide (i * k ≤ m < i * k + upto)
               then match res !! (m - i * k) with
                    | Some c => record_candidate c r
                    | None => r
                    end
               else r) buf.

(** The buffer after the first [count] points of the query node have been
    searched. *)
Definition knn_buffer (n q : Node) (k dimension count : nat) (buf : list NNResult)
    : list NNResult :=
  imap (λ m r, if decide (m < count * k)
               then match knn_of_point n q buf k dimension (m / k) !! (m mod k) with
                    | Some c => record_candidate c r
                    | None => r
                    end
               else r) buf.

(** The distance of the k-th candidate of the query node's point [i]. *)
Definition kth_distance (n q : Node) (buf : list NNResult) (k dimension i : nat)
    : Precision_t :=
  match last (knn_of_point n q buf k dimension i) with
  | Some c => c.1
  | None => Precision_zero
  end.

(** The running maximum of the k-th distances of the first [count] points. *)
Definition max_local_upto (n q : Node) (buf : list NNResult) (k dimension count : nat)
    : Precision_t :=
  foldl (λ m i, let d := kth_distance n q buf k dimension i in
                if Precision_lt m d then d else m)
        Precision_zero (seq 0 count).

(** The record written for a neighbour of the query point with id [id]. *)
Definition range_record (id : index_t) (c : candidate) : NNResult :=
  {| point_id_ := id; nearest_ := c.2; distance_ := c.1 |}.

(** The records of the query node's point [i]: one for each point of the
    leaf within the radius. *)
Definition range_records_of_point (n q : Node) (r : Precision_t) (dimension i : nat)
    : list NNResult :=
  range_record (index_ q !!! i)
    <$> brute_force_range n (query_point_at q dimension i) r dimension.

(** The records of the first [count] points of the query node, in order. *)
Definition range_records (n q : Node) (r : Precision_t) (dimension count : nat)
    : list NNResult :=
  flat_map (range_records_of_point n q r dimension) (seq 0 count).

(** The file after a query tried to write [recs]: the records that fit are
    appended, and the first that does not fit is refused. *)
Definition write_records (recs : list NNResult) (f : FILE) : FILE :=
  {| written := written f ++ take (room f) recs;
     room := room f - length recs;
     io_errno := io_errno f;
     refused := refused f + (if length recs <=? room f then 0 else 1) |}.

(** The end of a run that a refused write made fatal. *)
Definition write_failed (f0 : FILE) (recs : list NNResult) (mem : list Node)
    (msg : string) (s' : State) : Prop :=
  msg = write_error (io_errno f0)
  ∧ memory s' = mem
  ∧ range_nn_fp_ s' = write_records recs f0
  ∧ room f0 < length recs.

(** The buffer after the slots below [upto] were primed, [knns] slots to a
    point. *)
Definition primed_upto (n : Node) (knns upto : nat) : list NNResult :=
  imap (λ m r, if decide (m < upto)
               then set_point_id (index_ n !!! (m / knns)) r
               else r) (kneighbors_ n).

(** Two nodes that differ at most in their neighbours buffer. *)
Definition same_but_kneighbors (n n' : Node) : Prop :=
  box_ n' = box_ n ∧ statistics_ n' = statistics_ n
  ∧ left_ n' = left_ n ∧ right_ n' = right_ n
  ∧ points_ n' = points_ n ∧ index_ n' = index_ n
  ∧ node_id_ n' = node_id_ n ∧ num_of_points_ n' = num_of_points_ n
  ∧ min_dist_so_far_ n' = min_dist_so_far_ n.

(** An arena in which at most the neighbours buffer of the node at
    [query_node] changed. *)
Definition only_kneighbors_of (query_node : NodePtr_t) (m m' : list Node) : Prop :=
  length m' = length m
  ∧ ∀ p n, m !! p = Some n →
      ∃ n', m' !! p = Some n' ∧ same_but_kneighbors n n' ∧ (p ≠ query_node → n' = n).

(** Every state a run of [c] from [s] can end in, with a result or with a
    fatal error, satisfies [P]. *)
Definition ends_in {A : Type} (c : M A) (s : State) (P : State → Prop) : Prop :=
  wp c (λ _ s', P s') (λ _ s', P s') True s.

(** Every run of [c] ends in a state related by [R] to the one it began in. *)
Definition preserves_rel (R : State → State → Prop) {A : Type} (c : M A) : Prop :=
  ∀ s, ends_in c s (R s).

(** Row [i] of a dataset, and the point it makes with its id. *)
Definition dataset_row (dataset : BinaryDataset) (dimension i : nat) : list Precision_t :=
  map (At dataset i) (seq 0 dimension).

Definition dataset_point (dataset : BinaryDataset) (dimension i : nat) : Point_t :=
  Alias (dataset_row dataset dimension i) (dataset_get_id dataset i).

(** The counter after [d] more distance computations and [m] more
    comparisons were reported to it. *)
Definition count_up (d m : nat) (c : ComputationsCounter) : ComputationsCounter :=
  if diagnostic
  then {| distances := distances c + d; comparisons := comparisons c + m |}
  else c.

(** Every run of [c] from a state satisfying [P] that returns ends in a
    state satisfying [P], having reported [d] distance computations and [m]
    comparisons; it ends in a fatal error only if [F]. *)
Definition charges (P : State → Prop) (F : Prop) {A : Type} (c : M A) (d m : nat) : Prop :=
  ∀ s, P s →
    wp c (λ _ s', P s' ∧ comp s' = count_up d m (comp s)) (λ _ _, F) True s.

(** Pieces of text, one after the other. *)
Definition joined (pieces : list string) : string :=
  foldr String.append ""%string pieces.

(** What [Print] writes before the points: the kind and id of the node, its
    box and its point count. *)
Definition Print_heading (n : Node) (dimension : nat) : string :=
  (if IsLeaf n then "Leaf: "%string else "Node: "%string)
  +:+ pretty (node_id_ n) +:+ newline
  +:+ BoundingBox_Print (box_ n) dimension
  +:+ "num_of_points: "%string +:+ pretty (num_of_points_ n) +:+ newline.

(** The line [Print] writes for point [i] of a leaf: its coordinates, each
    followed by a blank, a dash, and its id. *)
Definition Print_point (n : Node) (dimension i : nat) : string :=
  joined ((λ x, sprintf_lg x +:+ " "%string)
            <$> take dimension (drop (i * dimension) (points_ n)))
  +:+ "-"%string +:+ pretty (index_ n !!! i) +:+ " "%string +:+ newline.

(** The node at [this] has [N] points. *)
Definition has_points (this : NodePtr_t) (N : nat) (s : State) : Prop :=
  ∀ n, memory s !! this = Some n → num_of_points_ n = N.

(** The node at [p] is there, with the id buffer [ids] and [L] slots for
    neighbours. *)
Definition has_slots (p : NodePtr_t) (ids : list index_t) (L : nat) (s : State) : Prop :=
  ∃ n, memory s !! p = Some n ∧ index_ n = ids ∧ length (kneighbors_ n) = L.

(** * Verification *)

Section runs.
Context {A : Type}.
Implicit Types (Q : A → State → Prop) (F : string → State → Prop) (U : Prop).

Lemma wp_ret (a : A) Q F U s : Q a s → wp (ret a) Q F U s.
Proof. done. Qed.

Lemma wp_mono (c : M A) Q Q' F F' U U' s :
  wp c Q F U s →
  (∀ a s', Q a s' → Q' a s') →
  (∀ msg s', F msg s' → F' msg s') →
  (U → U') →
  wp c Q' F' U' s.
Proof. unfold wp. destruct (c s); eauto. Qed.

Lemma wp_undefined Q F (U : Prop) s : U → wp (@undefined A) Q F U s.
Proof. done. Qed.

Lemma wp_FATAL msg Q F U s : F msg s → wp (@FATAL A msg) Q F U s.
Proof. done. Qed.

Lemma wp_of_option (o : option A) Q F U s :
  match o with Some a => Q a s | None => U end → wp (of_option o) Q F U s.
Proof. by destruct o. Qed.

Lemma wp_for_range (I : nat → A → State → Prop) body F U count :
  ∀ start a s,
  I start a s →
  (∀ i a s, start ≤ i < start + count → I i a s → wp (body i a) (I (S i)) F U s) →
  wp (for_range start count body a) (I (start + count)) F U s.
Proof.
  induction count as [|count IH]; intros start a s Hinv Hbody; simpl.
  - rewrite Nat.add_0_r. by apply wp_ret.
  - assert (Hstep : wp (body start a) (I (S start)) F U s) by (apply Hbody; [lia|done]).
    unfold bind, wp in *. destruct (body start a s) as [a' s'| |]; try done.
    replace (start + S count) with (S start + count) by lia.
    apply IH; [done|]. intros i a0 s0 Hi. apply Hbody. lia.
Qed.
End runs.

Lemma wp_bind {A B : Type} (c : M A) (k : A → M B) Q F U s :
  wp c (λ a s', wp (k a) Q F U s') F U s → wp (bind c k) Q F U s.
Proof. unfold wp, bind. by destruct (c s). Qed.

Lemma wp_deref p Q F U s :
  match memory s !! p with Some n => Q n s | None => U end →
  wp (deref p) Q F U s.
Proof. unfold deref. apply wp_of_option. Qed.

Lemma wp_index_at p i n Q F U s :
  memory s !! p = Some n →
  match index_ n !! i with Some id => Q id s | None => U end →
  wp (index_at p i) Q F U s.
Proof.
  intros Hn Hi. unfold index_at. apply wp_bind, wp_deref. rewrite Hn.
  by apply wp_of_option.
Qed.

Lemma wp_points_at p i n Q F U s :
  memory s !! p = Some n →
  match points_ n !! i with Some x => Q x s | None => U end →
  wp (points_at p i) Q F U s.
Proof.
  intros Hn Hi. unfold points_at. apply wp_bind, wp_deref. rewrite Hn.
  by apply wp_of_option.
Qed.

Lemma wp_points_from p offset dimension n Q F U s :
  memory s !! p = Some n →
  Q (take dimension (drop offset (points_ n))) s →
  wp (points_from p offset dimension) Q F U s.
Proof.
  intros Hn HQ. unfold points_from. apply wp_bind, wp_deref. by rewrite Hn.
Qed.

Lemma wp_kneighbors_at p i n Q F U s :
  memory s !! p = Some n →
  match kneighbors_ n !! i with Some r => Q r s | None => U end →
  wp (kneighbors_at p i) Q F U s.
Proof.
  intros Hn Hi. unfold kneighbors_at. apply wp_bind, wp_deref. rewrite Hn.
  by apply wp_of_option.
Qed.

Lemma wp_kneighbors_assign p i f n Q F U s :
  memory s !! p = Some n →
  match kneighbors_ n !! i with
  | Some r => Q tt (set_memory (<[p := set_kneighbors (<[i := f r]> (kneighbors_ n)) n]> (memory s)) s)
  | None => U
  end →
  wp (kneighbors_assign p i f) Q F U s.
Proof.
  intros Hn Hi. unfold kneighbors_assign. apply wp_bind, wp_deref. rewrite Hn.
  apply wp_bind, wp_of_option. by destruct (kneighbors_ n !! i).
Qed.

Lemma same_store_refl s : same_store s s.
Proof. done. Qed.

Lemma same_store_trans s1 s2 s3 : same_store s1 s2 → same_store s2 s3 → same_store s1 s3.
Proof. unfold same_store. intros [-> ->] [-> ->]. done. Qed.

Lemma wp_UpdateDistances Q F U s :
  (∀ s', same_store s s' → Q tt s') → wp UpdateDistances Q F U s.
Proof. intros HQ. unfold wp, UpdateDistances. apply HQ. by destruct diagnostic. Qed.

Lemma wp_UpdateComparisons Q F U s :
  (∀ s', same_store s s' → Q tt s') → wp UpdateComparisons Q F U s.
Proof. intros HQ. unfold wp, UpdateComparisons. apply HQ. by destruct diagnostic. Qed.

(** [Init] leaves a leaf whose buffers cover its points. *)
Lemma Init_leaf_ok box statistics node_id start num_of_points dimension dataset n :
  leaf_ok (Init_leaf box statistics node_id start num_of_points dimension dataset n)
  ∧ length (points_ (Init_leaf box statistics node_id start num_of_points dimension dataset n))
    = num_of_points * dimension.
Proof.
  unfold leaf_ok. simpl. rewrite length_map, length_seq. split; [done|].
  generalize start. induction num_of_points as [|m IH]; intros st; simpl; [done|].
  by rewrite length_app, length_map, length_seq, IH.
Qed.

(** ** The scan of [FindNearest] *)

Lemma scan_upto_all n q range dimension :
  scan_upto n q range dimension (num_of_points_ n) = scan_result n q range dimension.
Proof. by destruct range. Qed.

Lemma leaf_points_upto_S n dimension i id :
  index_ n !! i = Some id →
  leaf_points_upto n dimension (S i) =
  leaf_points_upto n dimension i
    ++ [Alias (take dimension (drop (i * dimension) (points_ n))) id].
Proof.
  intros Hid. unfold leaf_points_upto.
  rewrite (take_S_r _ _ _ Hid), imap_app. simpl.
  rewrite length_take_le; [|apply lookup_lt_Some in Hid; lia].
  by rewrite Nat.add_0_r.
Qed.

Lemma scan_upto_S n q range dimension i id :
  index_ n !! i = Some id →
  scan_upto n q range dimension (S i) =
  scan_upto n q range dimension i ++
    (if AreTheSame id (get_id q) then []
     else
       let ptr := take dimension (drop (i * dimension) (points_ n)) in
       let dist := Distance q ptr dimension in
       match range with
       | Radius r => if Precision_le dist r then [(dist, Alias ptr id)] else []
       | KNearest _ => [(dist, Alias ptr id)]
       end).
Proof.
  intros Hid. unfold scan_upto, non_excluded, with_distance.
  rewrite (leaf_points_upto_S _ _ _ _ Hid), filter_app, fmap_app.
  rewrite filter_cons, filter_nil. simpl.
  destruct (AreTheSame id (get_id q)) eqn:Hsame.
  - rewrite decide_False by done. simpl. rewrite app_nil_r.
    destruct range; by rewrite ?app_nil_r.
  - rewrite decide_True by done. simpl. destruct range as [r|k]; [|done].
    rewrite filter_app, filter_cons, filter_nil. simpl.
    destruct (Precision_le _ r) eqn:Hle.
    + by rewrite decide_True.
    + by rewrite decide_False.
Qed.

Lemma FindNearest_scan_wp this q nearest range dimension n s :
  memory s !! this = Some n →
  leaf_ok n →
  wp (FindNearest_scan this q nearest range dimension)
     (λ res s', res = nearest ++ scan_result n q range dimension ∧ same_store s s')
     (λ _ _, False) False s.
Proof.
  intros Hn Hok. unfold FindNearest_scan. apply wp_bind, wp_deref. rewrite Hn.
  eapply (wp_mono _ _ _ (λ _ _, False) _ False);
    [apply (wp_for_range (λ i acc s',
              acc = nearest ++ scan_upto n q range dimension i ∧ same_store s s'))
    | | done | done].
  - split; [|done]. unfold scan_upto, leaf_points_upto. rewrite take_0. simpl.
    destruct range; by rewrite app_nil_r.
  - intros i acc s1 Hi [-> Hs1].
    assert (Hn1 : memory s1 !! this = Some n) by (destruct Hs1 as [-> _]; done).
    destruct (lookup_lt_is_Some_2 (index_ n) i) as [id Hid]; [unfold leaf_ok in Hok; lia|].
    rewrite (scan_upto_S _ _ _ _ _ _ Hid).
    apply wp_bind, wp_UpdateDistances. intros s2 Hs2.
    assert (Hn2 : memory s2 !! this = Some n) by (destruct Hs2 as [-> _]; done).
    assert (Hs : same_store s s2) by eauto using same_store_trans.
    apply wp_bind. eapply wp_index_at; [done|]. rewrite Hid.
    destruct (AreTheSame id (get_id q)).
    { apply wp_ret. by rewrite app_nil_r. }
    apply wp_bind. eapply wp_points_from; [done|]. simpl.
    destruct range as [r|k].
    + destruct (Precision_le _ r); apply wp_ret; by rewrite ?app_nil_r, ?app_assoc.
    + apply wp_ret. by rewrite app_assoc.
  - simpl. intros acc s' [-> Hs']. by rewrite scan_upto_all.
Qed.

(** ** The contract of [std::sort] and the order on distances *)

(** [std::sort] rearranges its range, and leaves it ascending for the
    comparator. *)
Hypothesis std_sort_Permutation : ∀ l, std_sort l ≡ₚ l.
Hypothesis std_sort_ascending : ∀ l, ascending (std_sort l).

(** [operator<] is a strict weak ordering: it is irreflexive and
    transitive, and so is its complement.  [operator<=] is transitive. *)
Hypothesis Precision_lt_irrefl : ∀ a, Precision_lt a a = false.
Hypothesis Precision_lt_trans : ∀ a b c,
  Precision_lt a b = true → Precision_lt b c = true → Precision_lt a c = true.
Hypothesis Precision_nlt_trans : ∀ a b c,
  Precision_lt b a = false → Precision_lt c b = false → Precision_lt c a = false.
Hypothesis Precision_le_trans : ∀ a b c,
  Precision_le a b = true → Precision_le b c = true → Precision_le a c = true.

Lemma std_sort_length l : length (std_sort l) = length l.
Proof using std_sort_Permutation. by rewrite std_sort_Permutation. Qed.

(** ** The trim of [FindNearest] *)

Lemma iterator_loop_run size count : ∀ start s,
  start ≤ size →
  for_range start count (λ _ it, iterator_next size it) start s
  = if decide (start + count ≤ size) then Ok (start + count) s else Undefined.
Proof.
  induction count as [|count IH]; intros start s Hstart; simpl.
  - rewrite decide_True by lia. unfold ret. f_equal. lia.
  - unfold bind, iterator_next. destruct (decide (start < size)) as [Hlt|Hge].
    + simpl. rewrite IH by lia.
      destruct (decide (S start + count ≤ size)).
      * rewrite decide_True by lia. f_equal. lia.
      * by rewrite decide_False by lia.
    + simpl. by rewrite decide_False by lia.
Qed.

Lemma trim_boundary_run nearest k s :
  trim_boundary nearest k s = if decide (k ≤ length nearest) then Ok k s else Undefined.
Proof. unfold trim_boundary. rewrite iterator_loop_run by lia. done. Qed.

(** With at least [k] candidates the trim returns the first [k] of them in
    sorted order; with fewer, the iterator is stepped past the end. *)
Lemma FindNearest_trim_Ok k l s :
  k ≤ length l → FindNearest_trim k l s = Ok (take k (std_sort l)) s.
Proof using std_sort_Permutation.
  intros Hk. unfold FindNearest_trim, bind, erase_from.
  rewrite trim_boundary_run, decide_True by done.
  rewrite std_sort_length. destruct (k <? length l) eqn:Hlt; [done|].
  apply Nat.ltb_ge in Hlt. replace (k - length l) with 0 by lia. simpl.
  by rewrite app_nil_r, take_ge by (rewrite std_sort_length; lia).
Qed.

Lemma FindNearest_trim_Undefined k l s :
  length l < k → FindNearest_trim k l s = Undefined.
Proof.
  intros Hk. unfold FindNearest_trim, bind.
  by rewrite trim_boundary_run, decide_False by lia.
Qed.


Lemma PairComparator_false a b :
  PairComparator b a = false →
  Precision_lt b.1 a.1 = false
  ∧ (Precision_lt a.1 b.1 = true ∨ id_ a.2 ≤ id_ b.2).
Proof.
  unfold PairComparator. intros H. apply orb_false_iff in H as [H1 H2].
  split; [done|]. apply andb_false_iff in H2 as [H2|H2].
  - left. by apply negb_false_iff in H2.
  - right. apply Nat.ltb_ge in H2. lia.
Qed.

Lemma PairComparator_asym a b : PairComparator a b = true → PairComparator b a = false.
Proof using Precision_lt_trans Precision_lt_irrefl.
  unfold PairComparator. intros H. apply orb_true_iff in H as [H|H].
  - apply orb_false_iff. split.
    + destruct (Precision_lt b.1 a.1) eqn:Hba; [|done].
      by rewrite <-(Precision_lt_irrefl a.1), (Precision_lt_trans _ _ _ H Hba).
    + by rewrite H.
  - apply andb_true_iff in H as [H1 H2]. apply negb_true_iff in H1.
    apply Nat.ltb_lt in H2. rewrite H1. simpl.
    apply andb_false_iff. right. apply Nat.ltb_ge. lia.
Qed.

Lemma PairComparator_trans a b c :
  PairComparator b a = false → PairComparator c b = false → PairComparator c a = false.
Proof using Precision_nlt_trans.
  intros [Hba Hab]%PairComparator_false [Hcb Hbc]%PairComparator_false.
  unfold PairComparator. apply orb_false_iff.
  assert (Hca : Precision_lt c.1 a.1 = false) by eauto.
  split; [done|]. apply andb_false_iff.
  destruct (Precision_lt a.1 c.1) eqn:Hac; [by left|]. right.
  apply Nat.ltb_ge.
  destruct Hab as [Hab|Hab].
  { by rewrite (Precision_nlt_trans _ _ _ Hcb Hac) in Hab. }
  destruct Hbc as [Hbc|Hbc].
  { by rewrite (Precision_nlt_trans _ _ _ Hac Hba) in Hbc. }
  lia.
Qed.

(** Straight insertion meets the contract. *)
Lemma insert_sorted_Permutation {A : Type} (cmp : A → A → bool) x l :
  insert_sorted cmp x l ≡ₚ x :: l.
Proof.
  induction l as [|y l IH]; simpl; [done|].
  destruct (cmp x y); [done|]. rewrite IH. apply Permutation_swap.
Qed.

Lemma insertion_sort_Permutation {A : Type} (cmp : A → A → bool) l :
  insertion_sort cmp l ≡ₚ l.
Proof.
  induction l as [|x l IH]; simpl; [done|].
  by rewrite insert_sorted_Permutation, IH.
Qed.

Lemma insert_sorted_ascending x l :
  ascending l → ascending (insert_sorted PairComparator x l).
Proof using Precision_lt_trans Precision_lt_irrefl Precision_nlt_trans.
  unfold ascending. induction 1 as [|y l Hl IH Hy]; simpl.
  { repeat constructor. }
  destruct (PairComparator x y) eqn:Hxy.
  - constructor; [by constructor|].
    apply PairComparator_asym in Hxy. constructor; [done|].
    eapply Forall_impl; [exact Hy|]. simpl. eauto using PairComparator_trans.
  - constructor; [done|].
    rewrite insert_sorted_Permutation. by constructor.
Qed.

Lemma insertion_sort_ascending l : ascending (insertion_sort PairComparator l).
Proof using Precision_lt_trans Precision_lt_irrefl Precision_nlt_trans.
  induction l as [|x l IH]; simpl; [constructor|]. by apply insert_sorted_ascending.
Qed.

(** ** [FindNearest] *)

Lemma wp_Ok {A : Type} (c : M A) Q s :
  wp c Q (λ _ _, False) False s → ∃ a s', c s = Ok a s' ∧ Q a s'.
Proof. unfold wp. destruct (c s); [eauto|done..]. Qed.

Lemma FindNearest_range_wp this q nearest r dimension n s :
  memory s !! this = Some n →
  leaf_ok n →
  wp (FindNearest this q nearest (Radius r) dimension)
     (λ res s', res = nearest ++ brute_force_range n q r dimension ∧ same_store s s')
     (λ _ _, False) False s.
Proof.
  intros Hn Hok. unfold FindNearest. apply wp_bind.
  eapply wp_mono; [by apply FindNearest_scan_wp|simpl|done..].
  intros res s' [-> Hs']. by apply wp_ret.
Qed.

Lemma FindNearest_knn_wp this q nearest k dimension n s :
  memory s !! this = Some n →
  leaf_ok n →
  k ≤ length (nearest ++ brute_force_candidates n q dimension) →
  wp (FindNearest this q nearest (KNearest k) dimension)
     (λ res s',
        res = take k (std_sort (nearest ++ brute_force_candidates n q dimension))
        ∧ same_store s s')
     (λ _ _, False) False s.
Proof using std_sort_Permutation.
  intros Hn Hok Hk. unfold FindNearest. apply wp_bind.
  eapply wp_mono; [by apply FindNearest_scan_wp|simpl|done..].
  intros res s' [-> Hs']. unfold wp. by rewrite FindNearest_trim_Ok.
Qed.

(** In k-nearest mode with fewer than [k] candidates after the scan, the
    run is undefined. *)
Lemma FindNearest_knn_Undefined this q nearest k dimension n s :
  memory s !! this = Some n →
  leaf_ok n →
  length (nearest ++ brute_force_candidates n q dimension) < k →
  FindNearest this q nearest (KNearest k) dimension s = Undefined.
Proof.
  intros Hn Hok Hk.
  destruct (wp_Ok _ _ _ (FindNearest_scan_wp this q nearest (KNearest k) dimension n s Hn Hok))
    as (res & s' & Hrun & -> & _).
  unfold FindNearest, bind. rewrite Hrun. by apply FindNearest_trim_Undefined.
Qed.

Lemma ascending_lookup l i j a b :
  ascending l → i < j → l !! i = Some a → l !! j = Some b →
  Precision_lt b.1 a.1 = false
  ∧ (Precision_lt a.1 b.1 = false → id_ a.2 ≤ id_ b.2).
Proof.
  unfold ascending. intros Hl. revert i j.
  induction Hl as [|x l Hl IH Hx]; intros i j Hij Hi Hj; [done|].
  destruct j as [|j]; [lia|]. simpl in Hj. destruct i as [|i]; simpl in Hi.
  - injection Hi as ->. rewrite Forall_forall in Hx.
    apply list_elem_of_lookup_2, Hx, PairComparator_false in Hj as [? [?|?]].
    + split; [done|congruence].
    + done.
  - apply (IH i j); [lia|done..].
Qed.

Lemma ascending_take_drop l k a b :
  ascending l → a ∈ take k l → b ∈ drop k l → Precision_lt b.1 a.1 = false.
Proof.
  intros Hl Ha Hb. rewrite <-(take_drop k l) in Hl.
  apply StronglySorted_app in Hl as (Hab & _ & _).
  by destruct (PairComparator_false _ _ (Hab _ _ Ha Hb)).
Qed.

Lemma brute_force_candidates_elem n q dimension c :
  c ∈ brute_force_candidates n q dimension →
  ∃ i id,
    i < num_of_points_ n
    ∧ index_ n !! i = Some id
    ∧ AreTheSame id (get_id q) = false
    ∧ c = (Distance q (take dimension (drop (i * dimension) (points_ n))) dimension,
           Alias (take dimension (drop (i * dimension) (points_ n))) id).
Proof.
  unfold brute_force_candidates, with_distance, non_excluded, leaf_points, leaf_points_upto.
  intros (p & -> & Hp)%list_elem_of_fmap.
  apply list_elem_of_filter in Hp as [Hsame Hp].
  apply elem_of_lookup_imap in Hp as (i & id & -> & Hi).
  apply lookup_take_Some in Hi as [Hi Hlt]. exists i, id. done.
Qed.

(** Among the candidates of a leaf with distinct ids, two that the
    comparator does not separate are the same candidate. *)
Lemma brute_force_candidates_separated n q dimension a b :
  NoDup (take (num_of_points_ n) (index_ n)) →
  a ∈ brute_force_candidates n q dimension →
  b ∈ brute_force_candidates n q dimension →
  PairComparator b a = false → PairComparator a b = false → a = b.
Proof.
  intros Hnd (i & ida & Hi & Hida & _ & ->)%brute_force_candidates_elem
    (j & idb & Hj & Hidb & _ & ->)%brute_force_candidates_elem
    [Hba Hab]%PairComparator_false [Hab' Hba']%PairComparator_false. simpl in *.
  assert (ida = idb) as <-.
  { destruct Hab as [Hab|Hab], Hba' as [Hba'|Hba']; try congruence. lia. }
  assert (i = j) as <-; [|done].
  apply (NoDup_lookup _ i j ida Hnd); by apply lookup_take_Some.
Qed.

Lemma std_sort_brute_force n q dimension :
  NoDup (take (num_of_points_ n) (index_ n)) →
  std_sort (brute_force_candidates n q dimension)
  = insertion_sort PairComparator (brute_force_candidates n q dimension).
Proof using std_sort_ascending std_sort_Permutation Precision_lt_trans Precision_lt_irrefl Precision_nlt_trans.
  intros Hnd. apply (StronglySorted_unique_strong (λ a b, PairComparator b a = false)).
  - intros a b Ha Hb Hab Hba.
    rewrite std_sort_Permutation in Ha. rewrite insertion_sort_Permutation in Hb.
    eauto using brute_force_candidates_separated.
  - apply std_sort_ascending.
  - apply insertion_sort_ascending.
  - by rewrite std_sort_Permutation, insertion_sort_Permutation.
Qed.

Lemma FindNearest_knn_Ok this q nearest k dimension n s :
  memory s !! this = Some n →
  leaf_ok n →
  k ≤ length (nearest ++ brute_force_candidates n q dimension) →
  ∃ s',
    FindNearest this q nearest (KNearest k) dimension s
    = Ok (take k (std_sort (nearest ++ brute_force_candidates n q dimension))) s'
    ∧ same_store s s'.
Proof using std_sort_Permutation.
  intros Hn Hok Hk.
  destruct (wp_Ok _ _ _ (FindNearest_knn_wp this q nearest k dimension n s Hn Hok Hk))
    as (res & s' & Hrun & -> & Hs').
  by exists s'.
Qed.

(** C1 (as amended).  In k-nearest mode, with at least [k] candidates
    between the list it was passed and the non-excluded points of the leaf,
    [FindNearest] returns the first [k] of them in ascending order of
    distance, ties between equal distances in ascending order of point id.
    When the list passed in is empty and the ids of the leaf are distinct,
    these are exactly the brute-force k nearest of the leaf. *)
Theorem FindNearest_knn_first_k_ascending this q nearest k dimension n s :
  memory s !! this = Some n →
  leaf_ok n →
  k ≤ length (nearest ++ brute_force_candidates n q dimension) →
  ∃ s' kept dropped,
    FindNearest this q nearest (KNearest k) dimension s = Ok kept s'
    ∧ kept ++ dropped ≡ₚ nearest ++ brute_force_candidates n q dimension
    ∧ length kept = k
    ∧ (∀ i j a b, i < j →
         (kept ++ dropped) !! i = Some a → (kept ++ dropped) !! j = Some b →
         Precision_lt b.1 a.1 = false
         ∧ (Precision_lt a.1 b.1 = false → id_ a.2 ≤ id_ b.2))
    ∧ (nearest = [] → NoDup (take (num_of_points_ n) (index_ n)) →
       kept = brute_force_knn n q k dimension).
Proof using std_sort_ascending std_sort_Permutation Precision_lt_trans Precision_lt_irrefl Precision_nlt_trans.
  intros Hn Hok Hk.
  destruct (FindNearest_knn_Ok this q nearest k dimension n s Hn Hok Hk) as (s' & Hrun & _).
  set (l := nearest ++ brute_force_candidates n q dimension) in *.
  exists s', (take k (std_sort l)), (drop k (std_sort l)).
  rewrite take_drop. split_and!.
  - done.
  - apply std_sort_Permutation.
  - rewrite length_take, std_sort_length. lia.
  - intros i j a b. apply ascending_lookup, std_sort_ascending.
  - intros Hnil Hnd. subst l. rewrite Hnil. simpl.
    by rewrite std_sort_brute_force.
Qed.

(** ** [FindAllNearest] in k-nearest mode *)

Lemma set_kneighbors_id n : set_kneighbors (kneighbors_ n) n = n.
Proof. by destruct n. Qed.

Lemma seeds_length buf i k : i * k + k ≤ length buf → length (seeds buf i k) = k.
Proof. intros. unfold seeds. rewrite length_fmap, length_take, length_drop. lia. Qed.

Lemma seeds_lookup buf i k j r :
  j < k → buf !! (i * k + j) = Some r →
  seeds buf i k !! j = Some (distance_ r, nearest_ r).
Proof.
  intros Hj Hr. unfold seeds.
  by rewrite list_lookup_fmap, lookup_take_lt, lookup_drop, Hr.
Qed.

Lemma update_slots_0 buf i k res : update_slots buf i k 0 res = buf.
Proof.
  unfold update_slots. apply list_eq. intros m. rewrite list_lookup_imap.
  destruct (buf !! m); [simpl|done]. rewrite decide_False; [done|lia].
Qed.

Lemma update_slots_length buf i k upto res :
  length (update_slots buf i k upto res) = length buf.
Proof. apply length_imap. Qed.

Lemma update_slots_S buf i k j res c r :
  res !! j = Some c →
  update_slots buf i k j res !! (i * k + j) = Some r →
  <[i * k + j := record_candidate c r]> (update_slots buf i k j res)
  = update_slots buf i k (S j) res.
Proof.
  intros Hc Hr. apply list_eq. intros m.
  unfold update_slots in *. rewrite list_lookup_imap in Hr.
  rewrite list_lookup_insert, length_imap, !list_lookup_imap.
  destruct (buf !! (i * k + j)) as [r0|] eqn:Hr0; [|done]. simpl in Hr.
  rewrite decide_False in Hr by lia. injection Hr as ->.
  destruct (decide (i * k + j = m)) as [<-|Hm].
  - rewrite decide_True by (split; [done|]; by eapply lookup_lt_Some).
    rewrite Hr0. simpl. rewrite decide_True by lia.
    replace (i * k + j - i * k) with j by lia. by rewrite Hc.
  - rewrite decide_False by (by intros [? _]).
    destruct (buf !! m); [simpl|done].
    destruct (decide (i * k ≤ m < i * k + j)).
    + by rewrite decide_True by lia.
    + by rewrite decide_False by lia.
Qed.

Lemma memory_insert_id (s : State) p n :
  memory s !! p = Some n → <[p := set_kneighbors (kneighbors_ n) n]> (memory s) = memory s.
Proof. intros Hp. rewrite set_kneighbors_id. by apply list_insert_id. Qed.

Lemma seeds_loop_wp qn q1 i k s1 :
  memory s1 !! qn = Some q1 →
  i * k + k ≤ length (kneighbors_ q1) →
  wp (for_range 0 k (λ j temp,
        r <- kneighbors_at qn (i * k + j) ;;
        ret (<[j := (distance_ r, nearest_ r)]> temp))
        (replicate k (Precision_zero, Point_default)))
     (λ temp s', temp = seeds (kneighbors_ q1) i k ∧ s' = s1)
     (λ _ _, False) False s1.
Proof.
  intros Hq Hlen. set (sd := seeds (kneighbors_ q1) i k).
  assert (Hsd : length sd = k) by by apply seeds_length.
  eapply (wp_mono _ _ _ (λ _ _, False) _ False);
    [apply (wp_for_range (λ j temp s',
       temp = take j sd ++ replicate (k - j) (Precision_zero, Point_default) ∧ s' = s1))
    | | done | done].
  - by rewrite take_0, Nat.sub_0_r.
  - intros j temp s' Hj [-> ->].
    destruct (lookup_lt_is_Some_2 (kneighbors_ q1) (i * k + j)) as [r Hr]; [lia|].
    apply wp_bind. eapply wp_kneighbors_at; [done|]. rewrite Hr.
    apply wp_ret. split; [|done].
    assert (Hj' : sd !! j = Some (distance_ r, nearest_ r)) by (apply seeds_lookup; [lia|done]).
    rewrite (take_S_r _ _ _ Hj'), insert_app_r_alt by (rewrite length_take; lia).
    rewrite length_take_le, Nat.sub_diag by lia.
    replace (k - j) with (S (k - S j)) by lia. simpl.
    by rewrite <-app_assoc.
  - simpl. intros temp s' [-> ->]. split; [|done].
    by rewrite Nat.sub_diag, app_nil_r, take_ge by lia.
Qed.

Lemma write_back_loop_wp qn q1 i k res s1 s2 :
  memory s1 !! qn = Some q1 →
  i * k + k ≤ length (kneighbors_ q1) →
  length res = k →
  same_store s1 s2 →
  wp (for_range 0 k (λ j _,
        c <- of_option (res !! j) ;;
        kneighbors_assign qn (i * k + j) (set_distance c.1) ;;;
        kneighbors_assign qn (i * k + j) (set_nearest c.2)) tt)
     (λ _ s',
        memory s' = <[qn := set_kneighbors (update_slots (kneighbors_ q1) i k k res) q1]> (memory s1)
        ∧ range_nn_fp_ s' = range_nn_fp_ s1)
     (λ _ _, False) False s2.
Proof.
  intros Hq Hlen Hres [Hmem Hfile].
  assert (Hqn : qn < length (memory s1)) by by eapply lookup_lt_Some.
  eapply (wp_mono _ _ _ (λ _ _, False) _ False);
    [apply (wp_for_range (λ j _ s',
       memory s' = <[qn := set_kneighbors (update_slots (kneighbors_ q1) i k j res) q1]> (memory s1)
       ∧ range_nn_fp_ s' = range_nn_fp_ s1))
    | | done | done].
  - rewrite update_slots_0, memory_insert_id by done. done.
  - intros j [] s' Hj [Hmem' Hfile'].
    destruct (lookup_lt_is_Some_2 res j) as [c Hc]; [lia|].
    set (b := update_slots (kneighbors_ q1) i k j res) in *.
    destruct (lookup_lt_is_Some_2 b (i * k + j)) as [r Hr].
    { unfold b. rewrite update_slots_length. lia. }
    apply wp_bind, wp_of_option. rewrite Hc.
    apply wp_bind. eapply wp_kneighbors_assign.
    { rewrite Hmem'. by apply list_lookup_insert_eq. }
    simpl. rewrite Hr.
    eapply wp_kneighbors_assign.
    { simpl. apply list_lookup_insert_eq. by rewrite Hmem', length_insert. }
    simpl. rewrite list_lookup_insert_eq by by eapply lookup_lt_Some.
    split; [|done].
    rewrite Hmem', !list_insert_insert_eq. f_equal.
    unfold set_kneighbors. simpl. f_equal.
    by apply update_slots_S.
  - done.
Qed.

Lemma knn_of_point_length n q buf k dimension i :
  i * k + k ≤ length buf →
  length (knn_of_point n q buf k dimension i) = k.
Proof using std_sort_Permutation.
  intros Hlen. unfold knn_of_point.
  rewrite length_take, std_sort_length, length_app, seeds_length by done. lia.
Qed.

Lemma FindAllNearest_knn_point_wp this qn k dimension i m n1 q1 s1 :
  1 ≤ k →
  memory s1 !! this = Some n1 →
  leaf_ok n1 →
  memory s1 !! qn = Some q1 →
  i < length (index_ q1) →
  i * k + k ≤ length (kneighbors_ q1) →
  wp (FindAllNearest_knn_point this qn k dimension i m)
     (λ m' s2,
        memory s2
        = <[qn := set_kneighbors
                    (update_slots (kneighbors_ q1) i k k
                       (knn_of_point n1 q1 (kneighbors_ q1) k dimension i)) q1]>
            (memory s1)
        ∧ range_nn_fp_ s2 = range_nn_fp_ s1
        ∧ m' = (let d := kth_distance n1 q1 (kneighbors_ q1) k dimension i in
                if Precision_lt m d then d else m))
     (λ _ _, False) False s1.
Proof using std_sort_Permutation.
  intros Hk Hn Hok Hq Hi Hlen. unfold FindAllNearest_knn_point.
  apply wp_bind.
  destruct (i * k + k) as [|lst] eqn:Hlst; [lia|].
  destruct (lookup_lt_is_Some_2 (kneighbors_ q1) lst) as [rl Hrl]; [lia|].
  apply wp_bind. eapply wp_kneighbors_at; [done|]. rewrite Hrl. apply wp_ret.
  rewrite <-Hlst in *. clear lst Hlst rl Hrl.
  apply wp_bind.
  eapply wp_mono; [by apply (seeds_loop_wp qn q1 i k s1)| |done..].
  simpl. intros ? ? [-> ->].
  apply wp_bind. eapply wp_points_from; [done|].
  destruct (lookup_lt_is_Some_2 (index_ q1) i) as [id Hid]; [done|].
  apply wp_bind. eapply wp_index_at; [done|]. rewrite Hid.
  assert (Hpt : Alias (take dimension (drop (i * dimension) (points_ q1))) id
                = query_point_at q1 dimension i).
  { unfold query_point_at. by rewrite (list_lookup_total_correct _ _ _ Hid). }
  rewrite Hpt. apply wp_bind.
  eapply wp_mono;
    [apply (FindNearest_knn_wp this _ _ k dimension n1); [done|done|]| |done..].
  { rewrite length_app, seeds_length by done. lia. }
  simpl. intros res s2 [Hres Hs2].
  fold (knn_of_point n1 q1 (kneighbors_ q1) k dimension i) in Hres. subst res.
  set (res := knn_of_point n1 q1 (kneighbors_ q1) k dimension i).
  assert (Hreslen : length res = k) by (by apply knn_of_point_length).
  apply wp_bind.
  eapply wp_mono; [by apply (write_back_loop_wp qn q1 i k res s1 s2)| |done..].
  simpl. intros _ s3 [Hmem3 Hfile3].
  apply wp_bind, wp_UpdateComparisons. intros s4 [Hmem4 Hfile4].
  apply wp_bind, wp_of_option.
  unfold kth_distance. fold res.
  destruct (last res) as [back|] eqn:Hback.
  2: { apply last_None in Hback. rewrite Hback in Hreslen. simpl in Hreslen. lia. }
  destruct (Precision_lt m back.1); apply wp_ret; by rewrite Hmem4, Hfile4.
Qed.

(** The search of point [i] reads and writes only the slots of point [i]. *)
Lemma knn_buffer_seeds n q k dimension count buf i :
  count ≤ i → seeds (knn_buffer n q k dimension count buf) i k = seeds buf i k.
Proof.
  intros Hi. unfold seeds. f_equal. apply list_eq. intros j.
  destruct (decide (j < k)) as [Hj|Hj].
  2: { by rewrite !lookup_take_ge by lia. }
  rewrite !lookup_take_lt, !lookup_drop by done.
  unfold knn_buffer. rewrite list_lookup_imap.
  destruct (buf !! (i * k + j)); [simpl|done].
  rewrite decide_False; [done|nia].
Qed.

Lemma knn_buffer_length n q k dimension count buf :
  length (knn_buffer n q k dimension count buf) = length buf.
Proof. apply length_imap. Qed.

Lemma knn_buffer_0 n q k dimension buf : knn_buffer n q k dimension 0 buf = buf.
Proof.
  unfold knn_buffer. apply list_eq. intros m. rewrite list_lookup_imap.
  destruct (buf !! m); [|done]. unfold fmap, option_fmap, option_map.
  case_decide; [lia|done].
Qed.

Lemma knn_buffer_S n q k dimension count buf :
  1 ≤ k →
  update_slots (knn_buffer n q k dimension count buf) count k k
    (knn_of_point n q buf k dimension count)
  = knn_buffer n q k dimension (S count) buf.
Proof.
  intros Hk. apply list_eq. intros m. unfold update_slots, knn_buffer.
  rewrite !list_lookup_imap. destruct (buf !! m) as [r|]; [|done].
  unfold fmap, option_fmap, option_map. f_equal.
  destruct (decide (count * k ≤ m < count * k + k)) as [Hm|Hm].
  - rewrite (decide_False (P := m < count * k)) by lia.
    rewrite (decide_True (P := m < S count * k)) by lia.
    assert (m `div` k = count) as ->.
    { symmetry. apply (Nat.div_unique m k count (m - count * k)); lia. }
    assert (m `mod` k = m - count * k) as ->; [|done].
    symmetry. apply (Nat.mod_unique m k count (m - count * k)); lia.
  - destruct (decide (m < count * k)).
    + by rewrite decide_True by lia.
    + by rewrite decide_False by lia.
Qed.

Lemma max_local_upto_S n q buf k dimension count :
  max_local_upto n q buf k dimension (S count)
  = (let m := max_local_upto n q buf k dimension count in
     let d := kth_distance n q buf k dimension count in
     if Precision_lt m d then d else m).
Proof. unfold max_local_upto. by rewrite seq_S, foldl_app. Qed.

Lemma knn_of_point_frame n q k dimension count buf b b' i :
  count ≤ i →
  knn_of_point (set_kneighbors b n) (set_kneighbors b' q)
    (knn_buffer n q k dimension count buf) k dimension i
  = knn_of_point n q buf k dimension i.
Proof. intros Hi. unfold knn_of_point. by rewrite knn_buffer_seeds. Qed.

Lemma lookup_this_after (s : State) this qn n q b :
  memory s !! this = Some n →
  memory s !! qn = Some q →
  ∃ b', <[qn := set_kneighbors b q]> (memory s) !! this = Some (set_kneighbors b' n).
Proof.
  intros Hn Hq. destruct (decide (qn = this)) as [->|Hne].
  - exists b. rewrite list_lookup_insert_eq by by eapply lookup_lt_Some. congruence.
  - exists (kneighbors_ n). by rewrite list_lookup_insert_ne, set_kneighbors_id.
Qed.

Lemma FindAllNearest_knn_wp this qn bound k dimension n q s :
  1 ≤ k →
  memory s !! this = Some n →
  leaf_ok n →
  memory s !! qn = Some q →
  leaf_ok q →
  num_of_points_ q * k ≤ length (kneighbors_ q) →
  wp (FindAllNearest this qn bound (KNearest k) dimension)
     (λ bound' s',
        memory s'
        = <[qn := set_kneighbors
                    (knn_buffer n q k dimension (num_of_points_ q) (kneighbors_ q)) q]>
            (memory s)
        ∧ range_nn_fp_ s' = range_nn_fp_ s
        ∧ bound' = (let m := max_local_upto n q (kneighbors_ q) k dimension (num_of_points_ q) in
                    if Precision_lt m bound then m else bound))
     (λ _ _, False) False s.
Proof using std_sort_Permutation.
  intros Hk Hn Hok Hq Hqok Hlen. unfold FindAllNearest.
  apply wp_bind, wp_deref. rewrite Hq. apply wp_bind.
  assert (Hqn : qn < length (memory s)) by by eapply lookup_lt_Some.
  eapply (wp_mono _ _ _ (λ _ _, False) _ False);
    [apply (wp_for_range (λ c m s',
       memory s'
       = <[qn := set_kneighbors (knn_buffer n q k dimension c (kneighbors_ q)) q]> (memory s)
       ∧ range_nn_fp_ s' = range_nn_fp_ s
       ∧ m = max_local_upto n q (kneighbors_ q) k dimension c))
    | | done | done].
  - by rewrite knn_buffer_0, memory_insert_id.
  - intros c m s1 Hc (Hmem1 & Hfile1 & ->).
    destruct (lookup_this_after s this qn n q
                (knn_buffer n q k dimension c (kneighbors_ q)) Hn Hq) as [b' Hthis].
    assert (Hthis1 : memory s1 !! this = Some (set_kneighbors b' n))
      by (rewrite Hmem1; exact Hthis).
    eapply wp_mono;
      [apply (FindAllNearest_knn_point_wp this qn k dimension c _
                (set_kneighbors b' n)
                (set_kneighbors (knn_buffer n q k dimension c (kneighbors_ q)) q) s1)
      | |done..]; try done.
    + rewrite Hmem1. by apply list_lookup_insert_eq.
    + simpl. unfold leaf_ok in Hqok. lia.
    + simpl. rewrite knn_buffer_length. nia.
    + simpl. intros m' s2 (Hmem2 & Hfile2 & ->).
      rewrite knn_of_point_frame in Hmem2 by done.
      rewrite knn_buffer_S in Hmem2 by done.
      rewrite Hmem1, list_insert_insert_eq in Hmem2.
      split_and!; [done|congruence|].
      rewrite max_local_upto_S. unfold kth_distance.
      by rewrite knn_of_point_frame.
  - simpl. intros m s' (Hmem & Hfile & ->).
    destruct (Precision_lt _ bound); by apply wp_ret.
Qed.

(** ** [FindAllNearest] in range mode *)

Lemma FILE_eq (f g : FILE) :
  written f = written g → room f = room g → io_errno f = io_errno g →
  refused f = refused g → f = g.
Proof. destruct f, g. simpl. by intros -> -> -> ->. Qed.

Lemma write_records_nil f : write_records [] f = f.
Proof.
  apply FILE_eq; simpl; rewrite ?take_nil, ?app_nil_r; first [done|lia].
Qed.

Lemma write_records_app a b f :
  length a ≤ room f →
  write_records b (write_records a f) = write_records (a ++ b) f.
Proof.
  intros Ha. apply FILE_eq; simpl; rewrite ?length_app.
  - rewrite take_app, (take_ge a) by done. by rewrite app_assoc.
  - lia.
  - done.
  - rewrite (proj2 (Nat.leb_le _ _) Ha).
    destruct (Nat.leb_spec (length b) (room f - length a));
      destruct (Nat.leb_spec (length a + length b) (room f)); lia.
Qed.

Lemma write_records_full l rest f :
  room f < length l → write_records (l ++ rest) f = write_records l f.
Proof.
  intros Hl. apply FILE_eq; simpl; rewrite ?length_app.
  - by rewrite take_app_le by lia.
  - lia.
  - done.
  - destruct (Nat.leb_spec (length l + length rest) (room f));
      destruct (Nat.leb_spec (length l) (room f)); lia.
Qed.

Lemma range_records_S n q r dimension count :
  range_records n q r dimension (S count)
  = range_records n q r dimension count ++ range_records_of_point n q r dimension count.
Proof.
  unfold range_records. by rewrite seq_S, flat_map_app; simpl; rewrite app_nil_r.
Qed.

Lemma range_records_prefix n q r dimension count total :
  count ≤ total →
  ∃ rest, range_records n q r dimension total
          = range_records n q r dimension count ++ rest.
Proof.
  intros Hc. exists (flat_map (range_records_of_point n q r dimension)
                       (seq count (total - count))).
  unfold range_records. rewrite <-flat_map_app, <-seq_app. f_equal. f_equal. lia.
Qed.

Lemma write_loop_wp qn q i id temp s1 :
  memory s1 !! qn = Some q →
  index_ q !! i = Some id →
  wp (for_range 0 (length temp) (λ j _,
        id <- index_at qn i ;;
        c <- of_option (temp !! j) ;;
        let result := {| point_id_ := id; nearest_ := c.2; distance_ := c.1 |} in
        n <- fwrite result ;;
        if n =? 1 then ret tt
        else e <- errno ;; FATAL (write_error e)) tt)
     (λ _ s', memory s' = memory s1
              ∧ range_nn_fp_ s' = write_records (range_record id <$> temp) (range_nn_fp_ s1)
              ∧ length temp ≤ room (range_nn_fp_ s1))
     (write_failed (range_nn_fp_ s1) (range_record id <$> temp) (memory s1))
     False s1.
Proof.
  intros Hq Hid. set (f1 := range_nn_fp_ s1). set (recs := range_record id <$> temp).
  eapply (wp_mono _ _ _ (write_failed f1 recs (memory s1)) _ False);
    [apply (wp_for_range (λ j _ s',
       memory s' = memory s1
       ∧ range_nn_fp_ s' = write_records (take j recs) f1
       ∧ j ≤ room f1))
    | | done | done].
  - rewrite take_0, write_records_nil. split_and!; [done|done|lia].
  - intros j [] s' Hj (Hmem & Hfile & Hroom).
    destruct (lookup_lt_is_Some_2 temp j) as [c Hc]; [lia|].
    assert (Hrec : recs !! j = Some (range_record id c)).
    { unfold recs. by rewrite list_lookup_fmap, Hc. }
    assert (Hlen : length recs = length temp) by apply length_fmap.
    apply wp_bind. eapply wp_index_at; [by rewrite Hmem|]. rewrite Hid.
    apply wp_bind, wp_of_option. rewrite Hc.
    unfold wp, bind, fwrite. rewrite Hfile. simpl.
    rewrite length_take_le by lia.
    destruct (room f1 - j) as [|n'] eqn:Hn'; simpl.
    + assert (room f1 = j) as Hj' by lia.
      split_and!; [done|done| |lia].
      apply FILE_eq; simpl.
      * by rewrite Hj', take_take, Nat.min_id.
      * lia.
      * done.
      * rewrite ?length_take_le by lia.
        destruct (Nat.leb_spec j (room f1)); destruct (Nat.leb_spec (length recs) (room f1)); lia.
    + split_and!; [done| |lia].
      apply FILE_eq; simpl.
      * rewrite (take_ge (take j recs)) by (rewrite length_take; lia).
        rewrite (take_ge (take (S j) recs)) by (rewrite length_take; lia).
        by rewrite (take_S_r _ _ _ Hrec), app_assoc.
      * rewrite ?length_take_le by lia. lia.
      * done.
      * rewrite ?length_take_le by lia.
        destruct (Nat.leb_spec j (room f1)); destruct (Nat.leb_spec (S j) (room f1)); lia.
  - simpl. intros _ s' (Hmem & Hfile & Hroom).
    assert (Hlen : length recs = length temp) by apply length_fmap.
    rewrite <-Hlen, take_ge in Hfile by lia. done.
Qed.

Lemma FindAllNearest_range_point_wp this qn r dimension i n q s1 :
  memory s1 !! this = Some n →
  leaf_ok n →
  memory s1 !! qn = Some q →
  i < length (index_ q) →
  wp (FindAllNearest_range_point this qn r dimension i)
     (λ _ s', memory s' = memory s1
              ∧ range_nn_fp_ s'
                = write_records (range_records_of_point n q r dimension i) (range_nn_fp_ s1)
              ∧ length (range_records_of_point n q r dimension i) ≤ room (range_nn_fp_ s1))
     (write_failed (range_nn_fp_ s1) (range_records_of_point n q r dimension i) (memory s1))
     False s1.
Proof.
  intros Hn Hok Hq Hi. unfold FindAllNearest_range_point.
  apply wp_bind. eapply wp_points_from; [done|].
  destruct (lookup_lt_is_Some_2 (index_ q) i) as [id Hid]; [done|].
  apply wp_bind. eapply wp_index_at; [done|]. rewrite Hid.
  assert (Hpt : Alias (take dimension (drop (i * dimension) (points_ q))) id
                = query_point_at q dimension i).
  { unfold query_point_at. by rewrite (list_lookup_total_correct _ _ _ Hid). }
  rewrite Hpt. apply wp_bind.
  eapply (wp_mono _ _ _ (λ _ _, False) _ False);
    [by apply (FindNearest_range_wp this _ _ r dimension n)| |done..].
  simpl. intros temp s2 [-> [Hmem2 Hfile2]].
  unfold range_records_of_point. rewrite (list_lookup_total_correct _ _ _ Hid).
  rewrite <-Hmem2, <-Hfile2.
  eapply wp_mono; [apply (write_loop_wp qn q i id); by rewrite ?Hmem2|..]; try done.
  simpl. intros _ s' (? & ? & Hlen). by rewrite length_fmap.
Qed.

Lemma FindAllNearest_range_wp this qn bound r dimension n q s :
  memory s !! this = Some n →
  leaf_ok n →
  memory s !! qn = Some q →
  leaf_ok q →
  wp (FindAllNearest this qn bound (Radius r) dimension)
     (λ bound' s',
        bound' = r
        ∧ memory s' = memory s
        ∧ range_nn_fp_ s'
          = write_records (range_records n q r dimension (num_of_points_ q)) (range_nn_fp_ s)
        ∧ length (range_records n q r dimension (num_of_points_ q)) ≤ room (range_nn_fp_ s))
     (write_failed (range_nn_fp_ s) (range_records n q r dimension (num_of_points_ q)) (memory s))
     False s.
Proof.
  intros Hn Hok Hq Hqok. unfold FindAllNearest.
  apply wp_bind, wp_deref. rewrite Hq. apply wp_bind.
  set (f0 := range_nn_fp_ s). set (all := range_records n q r dimension (num_of_points_ q)).
  eapply (wp_mono _ _ _ (write_failed f0 all (memory s)) _ False);
    [apply (wp_for_range (λ c (_ : Precision_t) s',
       memory s' = memory s
       ∧ range_nn_fp_ s' = write_records (range_records n q r dimension c) f0
       ∧ length (range_records n q r dimension c) ≤ room f0))
    | | done | done].
  - unfold range_records. simpl. rewrite write_records_nil. split_and!; [done|done|lia].
  - intros c m s1 Hc (Hmem1 & Hfile1 & Hroom1).
    apply wp_bind.
    eapply wp_mono;
      [apply (FindAllNearest_range_point_wp this qn r dimension c n q s1);
         rewrite ?Hmem1; try done; unfold leaf_ok in Hqok; lia
      | | |done].
    + simpl. intros _ s2 (Hmem2 & Hfile2 & Hroom2). apply wp_ret.
      rewrite Hfile1 in Hfile2, Hroom2. simpl in Hroom2.
      rewrite write_records_app in Hfile2 by done.
      rewrite range_records_S, length_app. split_and!; [congruence|done|lia].
    + intros msg s2 (-> & Hmem2 & Hfile2 & Hroom2).
      rewrite Hfile1 in Hfile2, Hroom2. simpl in Hroom2.
      rewrite write_records_app, <-range_records_S in Hfile2 by done.
      destruct (range_records_prefix n q r dimension (S c) (num_of_points_ q))
        as [rest Hrest]; [lia|].
      assert (Hfull : room f0 < length (range_records n q r dimension (S c))).
      { rewrite range_records_S, length_app. lia. }
      unfold write_failed, all. rewrite Hrest, write_records_full by done.
      rewrite Hfile1. simpl. split_and!; [done|congruence|done|].
      rewrite length_app. lia.
  - simpl. intros m s' (Hmem & Hfile & Hroom). by apply wp_ret.
Qed.

(** ** [InitKNeighbors] *)

Lemma primed_upto_0 n knns : primed_upto n knns 0 = kneighbors_ n.
Proof.
  unfold primed_upto. apply list_eq. intros m. rewrite list_lookup_imap.
  destruct (kneighbors_ n !! m); [|done]. unfold fmap, option_fmap, option_map.
  case_decide; [lia|done].
Qed.

Lemma primed_upto_length n knns upto :
  length (primed_upto n knns upto) = length (kneighbors_ n).
Proof. apply length_imap. Qed.

Lemma primed_upto_S n knns i j id r :
  j < knns →
  index_ n !! i = Some id →
  primed_upto n knns (i * knns + j) !! (i * knns + j) = Some r →
  <[i * knns + j := set_point_id id r]> (primed_upto n knns (i * knns + j))
  = primed_upto n knns (i * knns + S j).
Proof.
  intros Hj Hid Hr. apply list_eq. intros m.
  unfold primed_upto in *. rewrite list_lookup_imap in Hr.
  rewrite list_lookup_insert, length_imap, !list_lookup_imap.
  destruct (kneighbors_ n !! (i * knns + j)) as [r0|] eqn:Hr0; [|done].
  unfold fmap, option_fmap, option_map in Hr.
  rewrite decide_False in Hr by lia. injection Hr as ->.
  destruct (decide (i * knns + j = m)) as [<-|Hm].
  - rewrite decide_True by (split; [done|]; by eapply lookup_lt_Some).
    rewrite Hr0. unfold fmap, option_fmap, option_map.
    rewrite decide_True by lia. do 2 f_equal.
    assert ((i * knns + j) `div` knns = i) as ->.
    { symmetry. apply (Nat.div_unique _ knns i j); lia. }
    by rewrite (list_lookup_total_correct _ _ _ Hid).
  - rewrite decide_False by (by intros [? _]).
    destruct (kneighbors_ n !! m); [|done]. unfold fmap, option_fmap, option_map.
    destruct (decide (m < i * knns + j)).
    + by rewrite decide_True by lia.
    + by rewrite decide_False by lia.
Qed.

Lemma InitKNeighbors_wp this knns n s :
  memory s !! this = Some n →
  leaf_ok n →
  num_of_points_ n * knns ≤ length (kneighbors_ n) →
  wp (InitKNeighbors this knns)
     (λ _ s', s' = set_memory
                     (<[this := set_kneighbors
                                  (primed_upto n knns (num_of_points_ n * knns)) n]>
                        (memory s)) s)
     (λ _ _, False) False s.
Proof.
  intros Hn Hok Hlen. unfold InitKNeighbors.
  apply wp_bind, wp_deref. rewrite Hn.
  assert (Hthis : this < length (memory s)) by by eapply lookup_lt_Some.
  pose (Inv := λ upto (_ : unit) s',
    s' = set_memory (<[this := set_kneighbors (primed_upto n knns upto) n]> (memory s)) s).
  eapply (wp_mono _ _ _ (λ _ _, False) _ False);
    [apply (wp_for_range (λ i, Inv (i * knns)))| |done..].
  - unfold Inv. simpl. rewrite primed_upto_0, memory_insert_id by done. by destruct s.
  - intros i [] s1 Hi Hinv.
    eapply (wp_mono _ _ _ (λ _ _, False) _ False);
      [apply (wp_for_range (λ j, Inv (i * knns + j)))| |done..].
    + by rewrite Nat.add_0_r.
    + intros j [] s2 Hj ->.
      destruct (lookup_lt_is_Some_2 (index_ n) i) as [id Hid];
        [unfold leaf_ok in Hok; lia|].
      destruct (lookup_lt_is_Some_2 (primed_upto n knns (i * knns + j)) (i * knns + j))
        as [r Hr]; [rewrite primed_upto_length; nia|].
      apply wp_bind. eapply wp_index_at.
      { simpl. by apply list_lookup_insert_eq. }
      simpl. rewrite Hid.
      eapply wp_kneighbors_assign.
      { simpl. by apply list_lookup_insert_eq. }
      simpl. rewrite Hr. unfold Inv, set_memory. simpl.
      rewrite list_insert_insert_eq. do 2 f_equal.
      unfold set_kneighbors. simpl. f_equal.
      rewrite <-(primed_upto_S n knns i j id r) by (done || lia). done.
    + intros [] s2 Hs2. unfold Inv in *. rewrite Hs2.
      by replace (S i * knns) with (i * knns + (0 + knns)) by lia.
  - done.
Qed.

(** ** What queries leave unchanged *)

Section preservation.
Variable R : State → State → Prop.
Hypothesis R_refl : ∀ s, R s s.
Hypothesis R_trans : ∀ s1 s2 s3, R s1 s2 → R s2 s3 → R s1 s3.

Local Abbreviation preserves := (preserves_rel R).

Lemma preserves_ret {A : Type} (a : A) : preserves (ret a).
Proof using R_refl. intros s. apply R_refl. Qed.

Lemma preserves_undefined {A : Type} : preserves (@undefined A).
Proof. by intros s. Qed.

Lemma preserves_FATAL {A : Type} msg : preserves (@FATAL A msg).
Proof using R_refl. intros s. apply R_refl. Qed.

Lemma preserves_of_option {A : Type} (o : option A) : preserves (of_option o).
Proof using R_refl. destruct o; [apply preserves_ret|apply preserves_undefined]. Qed.

Lemma preserves_bind {A B : Type} (c : M A) (k : A → M B) :
  preserves c → (∀ a, preserves (k a)) → preserves (bind c k).
Proof using R_trans.
  intros Hc Hk s. specialize (Hc s). unfold ends_in, wp, bind in *.
  destruct (c s) as [a s1|msg s1|]; [|done..].
  specialize (Hk a s1). unfold ends_in, wp in Hk.
  destruct (k a s1); eauto.
Qed.

Lemma preserves_for_range {A : Type} (body : nat → A → M A) count :
  (∀ i a, preserves (body i a)) →
  ∀ start a, preserves (for_range start count body a).
Proof using R_trans R_refl.
  intros Hbody. induction count as [|count IH]; intros start a; simpl.
  - apply preserves_ret.
  - apply preserves_bind; [apply Hbody|]. intros a'. apply IH.
Qed.

Lemma preserves_deref p : preserves (deref p).
Proof using R_refl. intros s. unfold ends_in, wp, deref. destruct (memory s !! p); [apply R_refl|done]. Qed.

Lemma preserves_index_at p i : preserves (index_at p i).
Proof using R_trans R_refl. apply preserves_bind; [apply preserves_deref|]. intros n. apply preserves_of_option. Qed.

Lemma preserves_points_at p i : preserves (points_at p i).
Proof using R_trans R_refl. apply preserves_bind; [apply preserves_deref|]. intros n. apply preserves_of_option. Qed.

Lemma preserves_points_from p offset dimension : preserves (points_from p offset dimension).
Proof using R_trans R_refl. apply preserves_bind; [apply preserves_deref|]. intros n. apply preserves_ret. Qed.

Lemma preserves_kneighbors_at p i : preserves (kneighbors_at p i).
Proof using R_trans R_refl. apply preserves_bind; [apply preserves_deref|]. intros n. apply preserves_of_option. Qed.

Lemma preserves_errno : preserves errno.
Proof using R_refl. intros s. apply R_refl. Qed.

(** From here on the relation looks at the arena only. *)
Hypothesis R_memory : ∀ s s', memory s' = memory s → R s s'.

Lemma preserves_UpdateDistances : preserves UpdateDistances.
Proof using R_memory. intros s. apply R_memory. unfold UpdateDistances. by destruct diagnostic. Qed.

Lemma preserves_UpdateComparisons : preserves UpdateComparisons.
Proof using R_memory. intros s. apply R_memory. unfold UpdateComparisons. by destruct diagnostic. Qed.

Lemma preserves_fwrite r : preserves (fwrite r).
Proof using R_memory.
  intros s. unfold ends_in, wp, fwrite.
  destruct (room (range_nn_fp_ s)); by apply R_memory.
Qed.

Lemma preserves_FindNearest_scan this q nearest range dimension :
  preserves (FindNearest_scan this q nearest range dimension).
Proof using R_trans R_refl R_memory.
  apply preserves_bind; [apply preserves_deref|]. intros n.
  apply preserves_for_range. intros i acc.
  apply preserves_bind; [apply preserves_UpdateDistances|]. intros _.
  apply preserves_bind; [apply preserves_index_at|]. intros id.
  destruct (AreTheSame id (get_id q)); [apply preserves_ret|].
  apply preserves_bind; [apply preserves_points_from|]. intros ptr. simpl.
  destruct range as [r|k]; [destruct (Precision_le _ r)|]; apply preserves_ret.
Qed.

Lemma preserves_FindNearest_trim k nearest : preserves (FindNearest_trim k nearest).
Proof using R_trans R_refl.
  apply preserves_bind.
  { apply preserves_for_range. intros _ it. unfold iterator_next.
    destruct (decide (it < length nearest)); [apply preserves_ret|apply preserves_undefined]. }
  intros it. simpl. destruct (k <? _); apply preserves_ret.
Qed.

Lemma preserves_FindNearest this q nearest range dimension :
  preserves (FindNearest this q nearest range dimension).
Proof using R_trans R_refl R_memory.
  apply preserves_bind; [apply preserves_FindNearest_scan|]. intros res.
  destruct range; [apply preserves_ret|apply preserves_FindNearest_trim].
Qed.

Lemma preserves_FindAllNearest_range_point this qn r dimension i :
  preserves (FindAllNearest_range_point this qn r dimension i).
Proof using R_trans R_refl R_memory.
  apply preserves_bind; [apply preserves_points_from|]. intros ptr.
  apply preserves_bind; [apply preserves_index_at|]. intros id.
  apply preserves_bind; [apply preserves_FindNearest|]. intros temp.
  apply preserves_for_range. intros j _.
  apply preserves_bind; [apply preserves_index_at|]. intros id'.
  apply preserves_bind; [apply preserves_of_option|]. intros c.
  apply preserves_bind; [apply preserves_fwrite|]. intros w.
  destruct (w =? 1); [apply preserves_ret|].
  apply preserves_bind; [apply preserves_errno|]. intros e. apply preserves_FATAL.
Qed.

Lemma preserves_FindAllNearest_knn_point_with this qn k dimension i m :
  (∀ idx f, preserves (kneighbors_assign qn idx f)) →
  preserves (FindAllNearest_knn_point this qn k dimension i m).
Proof using R_trans R_refl R_memory.
  intros Hassign. unfold FindAllNearest_knn_point.
  apply preserves_bind.
  { destruct (i * k + k); [apply preserves_undefined|].
    apply preserves_bind; [apply preserves_kneighbors_at|]. intros r. apply preserves_ret. }
  intros _. apply preserves_bind.
  { apply preserves_for_range. intros j temp.
    apply preserves_bind; [apply preserves_kneighbors_at|]. intros r. apply preserves_ret. }
  intros temp.
  apply preserves_bind; [apply preserves_points_from|]. intros ptr.
  apply preserves_bind; [apply preserves_index_at|]. intros id.
  apply preserves_bind; [apply preserves_FindNearest|]. intros res.
  apply preserves_bind.
  { apply preserves_for_range. intros j _.
    apply preserves_bind; [apply preserves_of_option|]. intros c.
    apply preserves_bind; [apply Hassign|]. intros _. apply Hassign. }
  intros _.
  apply preserves_bind; [apply preserves_UpdateComparisons|]. intros _.
  apply preserves_bind; [apply preserves_of_option|]. intros back.
  destruct (Precision_lt m back.1); apply preserves_ret.
Qed.

Lemma preserves_FindAllNearest_with this qn bound range dimension :
  (∀ idx f, isStdFloat range = false → preserves (kneighbors_assign qn idx f)) →
  preserves (FindAllNearest this qn bound range dimension).
Proof using R_trans R_refl R_memory.
  intros Hassign. unfold FindAllNearest.
  apply preserves_bind; [apply preserves_deref|]. intros q.
  apply preserves_bind.
  { apply preserves_for_range. intros i m. destruct range as [r|k].
    - apply preserves_bind; [apply preserves_FindAllNearest_range_point|].
      intros _. apply preserves_ret.
    - apply preserves_FindAllNearest_knn_point_with. intros idx f. by apply Hassign. }
  intros m. destruct range as [r|k]; [apply preserves_ret|].
  destruct (Precision_lt m bound); apply preserves_ret.
Qed.

Lemma preserves_Print this dimension :
  preserves (Print this dimension).
Proof using R_trans R_refl.
  unfold Print. apply preserves_bind; [apply preserves_deref|]. intros n.
  destruct (IsLeaf n); [|apply preserves_ret].
  apply preserves_for_range. intros i str.
  apply preserves_bind.
  { apply preserves_for_range. intros j str'.
    apply preserves_bind; [apply preserves_points_at|]. intros x. apply preserves_ret. }
  intros str'. apply preserves_bind; [apply preserves_index_at|]. intros id.
  apply preserves_ret.
Qed.

End preservation.

Lemma same_but_kneighbors_refl n : same_but_kneighbors n n.
Proof. by repeat split. Qed.

Lemma same_but_kneighbors_trans n1 n2 n3 :
  same_but_kneighbors n1 n2 → same_but_kneighbors n2 n3 → same_but_kneighbors n1 n3.
Proof.
  unfold same_but_kneighbors.
  intros (?&?&?&?&?&?&?&?&?) (?&?&?&?&?&?&?&?&?). repeat split; congruence.
Qed.

Lemma only_kneighbors_of_refl qn m : only_kneighbors_of qn m m.
Proof. split; [done|]. intros p n Hp. exists n. eauto using same_but_kneighbors_refl. Qed.

Lemma only_kneighbors_of_trans qn m1 m2 m3 :
  only_kneighbors_of qn m1 m2 → only_kneighbors_of qn m2 m3 → only_kneighbors_of qn m1 m3.
Proof.
  intros [Hl1 H1] [Hl2 H2]. split; [congruence|]. intros p n Hp.
  destruct (H1 p n Hp) as (n' & Hp' & Hs1 & He1).
  destruct (H2 p n' Hp') as (n'' & Hp'' & Hs2 & He2).
  exists n''. split_and!; [done|by eapply same_but_kneighbors_trans|].
  intros Hne. by rewrite He2, He1.
Qed.

Lemma kneighbors_assign_only_kneighbors qn idx f s :
  ends_in (kneighbors_assign qn idx f) s
    (λ s', only_kneighbors_of qn (memory s) (memory s')).
Proof.
  unfold ends_in, wp, kneighbors_assign, bind, deref.
  destruct (memory s !! qn) as [n|] eqn:Hn; simpl; [|done].
  destruct (kneighbors_ n !! idx) as [r|]; simpl; [|done].
  split; [by rewrite length_insert|]. intros p n0 Hp.
  destruct (decide (p = qn)) as [->|Hne].
  - rewrite list_lookup_insert_eq by by eapply lookup_lt_Some.
    eexists. split; [done|]. split; [|done].
    assert (n0 = n) as -> by congruence. by repeat split.
  - rewrite list_lookup_insert_ne by done. exists n0.
    eauto using same_but_kneighbors_refl.
Qed.

(** C9.  Every query-time operation leaves the index as it was but for the
    neighbours buffer: a run of [FindNearest] leaves the arena of nodes
    unchanged; a run of [FindAllNearest] leaves every node's box,
    statistics, children, point buffer, id buffer, node id, point count and
    cached bound unchanged and changes no node other than the query node,
    and in range mode it changes no node at all; a run of [Print] leaves the
    whole state unchanged. *)
Theorem queries_change_only_the_neighbors_buffer
    this query_node query_point nearest bound range dimension s :
  ends_in (FindNearest this query_point nearest range dimension) s
    (λ s', memory s' = memory s)
  ∧ ends_in (FindAllNearest this query_node bound range dimension) s
      (λ s', only_kneighbors_of query_node (memory s) (memory s')
             ∧ (isStdFloat range = true → memory s' = memory s))
  ∧ ends_in (Print this dimension) s (λ s', s' = s).
Proof.
  split_and!.
  - apply (preserves_FindNearest (λ s s', memory s' = memory s)); congruence.
  - apply (preserves_FindAllNearest_with
             (λ s s', only_kneighbors_of query_node (memory s) (memory s')
                      ∧ (isStdFloat range = true → memory s' = memory s))).
    + intros s0. split; [apply only_kneighbors_of_refl|done].
    + intros s1 s2 s3 [H1 H1'] [H2 H2']. split; [by eapply only_kneighbors_of_trans|].
      intros Hr. rewrite H2', H1' by done. done.
    + intros s0 s' Hm. rewrite Hm. split; [apply only_kneighbors_of_refl|done].
    + intros idx f Hr s0. eapply wp_mono; [apply kneighbors_assign_only_kneighbors|..];
        simpl; try done; intros; split; congruence.
  - apply (preserves_Print (λ s s', s' = s)); congruence.
Qed.

Lemma wp_Ok_or_Fatal {A : Type} (c : M A) Q F s :
  wp c Q F False s →
  (∃ a s', c s = Ok a s' ∧ Q a s') ∨ (∃ msg s', c s = Fatal msg s' ∧ F msg s').
Proof. unfold wp. destruct (c s); [left|right|done]; eauto. Qed.

Lemma brute_force_range_elem n q r dimension c :
  c ∈ brute_force_range n q r dimension
  ↔ c ∈ with_distance q dimension (leaf_points n dimension)
    ∧ AreTheSame (id_ c.2) (get_id q) = false
    ∧ Precision_le c.1 r = true.
Proof.
  unfold brute_force_range, brute_force_candidates, with_distance, non_excluded.
  rewrite list_elem_of_filter, !list_elem_of_fmap. split.
  - intros (Hle & p & -> & [Hp Hin]%list_elem_of_filter). eauto 6.
  - intros ((p & -> & Hin) & Hsame & Hle). split; [done|].
    exists p. split; [done|]. by apply list_elem_of_filter.
Qed.

Lemma brute_force_range_sublist n q r dimension :
  brute_force_range n q r dimension
    `sublist_of` with_distance q dimension (leaf_points n dimension).
Proof.
  unfold brute_force_range, brute_force_candidates, with_distance, non_excluded.
  etrans; [apply sublist_filter|]. apply fmap_sublist, sublist_filter.
Qed.

(** C3.  For every radius, range-mode [FindNearest] appends to the list it
    was passed exactly the points of the leaf that the discriminator does not
    exclude and whose distance to the query point is at most the radius, each
    slot of the leaf at most once and in slot order; and range-mode
    [FindAllNearest], when the file takes the records, appends to it exactly
    those points for each point of the query node in turn. *)
Theorem range_search_collects_exactly_points_within_radius
    this query_node query_point nearest bound r dimension n q s :
  memory s !! this = Some n →
  leaf_ok n →
  memory s !! query_node = Some q →
  leaf_ok q →
  (∃ s', FindNearest this query_point nearest (Radius r) dimension s
         = Ok (nearest ++ brute_force_range n query_point r dimension) s'
         ∧ same_store s s')
  ∧ brute_force_range n query_point r dimension
      `sublist_of` with_distance query_point dimension (leaf_points n dimension)
  ∧ (∀ c, c ∈ brute_force_range n query_point r dimension
          ↔ c ∈ with_distance query_point dimension (leaf_points n dimension)
            ∧ AreTheSame (id_ c.2) (get_id query_point) = false
            ∧ Precision_le c.1 r = true)
  ∧ (length (range_records n q r dimension (num_of_points_ q)) ≤ room (range_nn_fp_ s) →
     ∃ s', FindAllNearest this query_node bound (Radius r) dimension s = Ok r s'
           ∧ written (range_nn_fp_ s')
             = written (range_nn_fp_ s)
               ++ flat_map (λ i, range_record (index_ q !!! i)
                                   <$> brute_force_range n (query_point_at q dimension i)
                                         r dimension)
                           (seq 0 (num_of_points_ q))).
Proof.
  intros Hn Hok Hq Hqok. split_and!.
  - destruct (wp_Ok _ _ _ (FindNearest_range_wp this query_point nearest r dimension n s Hn Hok))
      as (res & s' & Hrun & -> & Hs'). by exists s'.
  - apply brute_force_range_sublist.
  - apply brute_force_range_elem.
  - intros Hroom.
    destruct (wp_Ok_or_Fatal _ _ _ _
                (FindAllNearest_range_wp this query_node bound r dimension n q s Hn Hok Hq Hqok))
      as [(b & s' & Hrun & -> & _ & Hfile & _)|(msg & s' & _ & _ & _ & _ & Hfull)]; [|lia].
    exists s'. split; [done|]. rewrite Hfile. simpl.
    by rewrite take_ge by done.
Qed.

(** C8.  In range mode [FindAllNearest] appends one record, holding the id
    of the query point, the neighbour and the distance, for every
    qualifying neighbour of every point of the query node, as long as the
    file takes them; when a write fails the run ends at once in a fatal
    error whose message is the text [Error while writing range nearest
    neighbors: ], the description [strerror] gives of the [errno] the
    failed write left, and a line feed: the records before the refused one
    are in the file, none after it, the device saw one refused write and no
    other, and no node changed. *)
Theorem range_write_failure_is_fatal
    this query_node bound r dimension n q s :
  memory s !! this = Some n →
  leaf_ok n →
  memory s !! query_node = Some q →
  leaf_ok q →
  let f := range_nn_fp_ s in
  let records := range_records n q r dimension (num_of_points_ q) in
  (length records ≤ room f →
   ∃ s', FindAllNearest this query_node bound (Radius r) dimension s = Ok r s'
         ∧ written (range_nn_fp_ s') = written f ++ records
         ∧ refused (range_nn_fp_ s') = refused f)
  ∧ (room f < length records →
     ∃ s', FindAllNearest this query_node bound (Radius r) dimension s
           = Fatal ("Error while writing range nearest neighbors: "
                    +:+ strerror (io_errno f) +:+ newline) s'
           ∧ written (range_nn_fp_ s') = written f ++ take (room f) records
           ∧ refused (range_nn_fp_ s') = S (refused f)
           ∧ memory s' = memory s).
Proof.
  intros Hn Hok Hq Hqok f records.
  pose proof (FindAllNearest_range_wp this query_node bound r dimension n q s Hn Hok Hq Hqok)
    as Hwp.
  apply wp_Ok_or_Fatal in Hwp. fold f records in Hwp. split.
  - intros Hroom.
    destruct Hwp as [(b & s' & Hrun & -> & _ & Hfile & _)|(msg & s' & _ & _ & _ & _ & Hfull)];
      [|lia].
    exists s'. rewrite Hfile. simpl. rewrite take_ge by done.
    rewrite (proj2 (Nat.leb_le _ _) Hroom). split_and!; [done|done|lia].
  - intros Hroom.
    destruct Hwp as [(b & s' & _ & _ & _ & _ & Hfit)|(msg & s' & Hrun & -> & Hmem & Hfile & _)];
      [lia|].
    exists s'. rewrite Hfile. simpl.
    rewrite (proj2 (Nat.leb_gt _ _) Hroom). split_and!; [done|done|lia|done].
Qed.

Lemma knn_buffer_lookup n q k dimension count buf i j r c :
  i < count → j < k →
  buf !! (i * k + j) = Some r →
  knn_of_point n q buf k dimension i !! j = Some c →
  knn_buffer n q k dimension count buf !! (i * k + j) = Some (record_candidate c r).
Proof.
  intros Hi Hj Hr Hc. unfold knn_buffer. rewrite list_lookup_imap, Hr.
  unfold fmap, option_fmap, option_map. rewrite decide_True by nia.
  assert ((i * k + j) `div` k = i) as ->.
  { symmetry. apply (Nat.div_unique _ k i j); lia. }
  assert ((i * k + j) `mod` k = j) as ->.
  { symmetry. apply (Nat.mod_unique _ k i j); lia. }
  by rewrite Hc.
Qed.

(** After the search, the slots of point [i] hold its trimmed candidate
    list. *)
Lemma knn_buffer_seeds_after n q k dimension count buf i :
  i < count → count * k ≤ length buf →
  seeds (knn_buffer n q k dimension count buf) i k = knn_of_point n q buf k dimension i.
Proof using std_sort_Permutation.
  intros Hi Hlen. assert (Hik : i * k + k ≤ length buf) by nia.
  apply list_eq. intros j.
  destruct (decide (j < k)) as [Hj|Hj].
  - destruct (lookup_lt_is_Some_2 buf (i * k + j)) as [r Hr]; [nia|].
    destruct (lookup_lt_is_Some_2 (knn_of_point n q buf k dimension i) j) as [c Hc].
    { by rewrite knn_of_point_length. }
    rewrite (seeds_lookup _ i k j (record_candidate c r)); [|done|by apply knn_buffer_lookup].
    rewrite Hc. by destruct c.
  - rewrite !lookup_ge_None_2; [done| |].
    + rewrite knn_of_point_length by done. lia.
    + unfold seeds. rewrite length_fmap, length_take. lia.
Qed.

Lemma Precision_lt_asym a b : Precision_lt a b = true → Precision_lt b a = false.
Proof using Precision_lt_trans Precision_lt_irrefl.
  intros Hab. destruct (Precision_lt b a) eqn:Hba; [|done].
  by rewrite <-(Precision_lt_irrefl a), (Precision_lt_trans _ _ _ Hab Hba).
Qed.

Lemma max_local_upto_upper n q buf k dimension count i :
  i < count →
  Precision_lt (max_local_upto n q buf k dimension count) (kth_distance n q buf k dimension i)
  = false.
Proof using Precision_lt_trans Precision_lt_irrefl.
  induction count as [|count IH]; [lia|]. intros Hi.
  rewrite max_local_upto_S. simpl.
  set (m := max_local_upto n q buf k dimension count) in *.
  set (d := kth_distance n q buf k dimension count).
  destruct (Precision_lt m d) eqn:Hmd.
  - destruct (decide (i = count)) as [->|Hne]; [apply Precision_lt_irrefl|].
    destruct (Precision_lt d (kth_distance n q buf k dimension i)) eqn:Hdi; [|done].
    rewrite <-(IH ltac:(lia)). symmetry. by eapply Precision_lt_trans.
  - destruct (decide (i = count)) as [->|Hne]; [done|]. apply IH. lia.
Qed.

Lemma max_local_upto_attained n q buf k dimension count :
  max_local_upto n q buf k dimension count = Precision_zero
  ∨ ∃ i, i < count
         ∧ max_local_upto n q buf k dimension count = kth_distance n q buf k dimension i.
Proof.
  induction count as [|count IH]; [by left|].
  rewrite max_local_upto_S. simpl.
  destruct (Precision_lt _ _).
  - right. exists count. split; [lia|done].
  - destruct IH as [?|(i & ? & ?)]; [by left|]. right. exists i. split; [lia|done].
Qed.

Lemma filter_all {A : Type} (P : A → Prop) `{∀ x, Decision (P x)} (l : list A) :
  Forall P l → filter P l = l.
Proof.
  induction 1 as [|x l Hx Hl IH]; [done|]. by rewrite filter_cons_True, IH.
Qed.

Lemma filter_none {A : Type} (P : A → Prop) `{∀ x, Decision (P x)} (l : list A) :
  Forall (λ x, ¬ P x) l → filter P l = [].
Proof.
  induction 1 as [|x l Hx Hl IH]; [done|]. by rewrite filter_cons_False, IH.
Qed.

Lemma max_local_upto_not_negative n q buf k dimension count :
  Precision_lt (max_local_upto n q buf k dimension count) Precision_zero = false.
Proof using Precision_lt_trans Precision_lt_irrefl.
  induction count as [|count IH]; [apply Precision_lt_irrefl|].
  rewrite max_local_upto_S. simpl.
  set (m := max_local_upto n q buf k dimension count) in *.
  set (d := kth_distance n q buf k dimension count).
  destruct (Precision_lt m d) eqn:Hmd; [|done].
  destruct (Precision_lt d Precision_zero) eqn:Hd; [|done].
  by rewrite <-IH, (Precision_lt_trans _ _ _ Hmd Hd).
Qed.

(** What is found at position [k - 1] of the sorted candidates is a k-th
    smallest of their distances. *)
Lemma sorted_kth_is_kth_smallest k l c :
  1 ≤ k →
  std_sort l !! (k - 1) = Some c →
  kth_smallest_distance k c.1 l.
Proof using std_sort_ascending std_sort_Permutation Precision_lt_irrefl.
  intros Hk Hc. set (L := std_sort l) in *.
  assert (HL : k ≤ length L) by (apply lookup_lt_Some in Hc; lia).
  split_and!.
  - exists c. split; [|done].
    rewrite <-(std_sort_Permutation l). by eapply list_elem_of_lookup_2.
  - set (P := λ x : candidate, Precision_lt x.1 c.1 = true).
    assert (Hperm : length (filter P l) = length (filter P L))
      by (unfold L; by rewrite std_sort_Permutation).
    rewrite Hperm, <-(take_drop (k - 1) L), filter_app, length_app.
    rewrite (filter_none P (drop (k - 1) L)).
    { simpl. rewrite Nat.add_0_r.
      pose proof (length_filter P (take (k - 1) L)) as Hle.
      rewrite length_take in Hle. lia. }
    apply Forall_forall. intros x Hx. apply list_elem_of_lookup_1 in Hx as [m Hx].
    rewrite lookup_drop in Hx. unfold P. apply not_true_iff_false.
    destruct m as [|m].
    + rewrite Nat.add_0_r in Hx. assert (x = c) as -> by congruence.
      apply Precision_lt_irrefl.
    + by destruct (ascending_lookup L (k - 1) (k - 1 + S m) c x (std_sort_ascending _)
                     ltac:(lia) Hc Hx).
  - set (Q := λ x : candidate, Precision_lt c.1 x.1 = false).
    assert (Hperm : length (filter Q l) = length (filter Q L))
      by (unfold L; by rewrite std_sort_Permutation).
    rewrite Hperm, <-(take_drop k L), filter_app, length_app.
    rewrite (filter_all Q (take k L)).
    { rewrite length_take. lia. }
    apply Forall_forall. intros x Hx. apply elem_of_take in Hx as (m & Hx & Hm).
    unfold Q. destruct (decide (m = k - 1)) as [->|Hne].
    + assert (x = c) as -> by congruence. apply Precision_lt_irrefl.
    + by destruct (ascending_lookup L m (k - 1) x c (std_sort_ascending _)
                     ltac:(lia) Hx Hc).
Qed.

Lemma kth_distance_lookup n q buf k dimension i :
  1 ≤ k →
  i * k + k ≤ length buf →
  ∃ c, std_sort (seeds buf i k
                 ++ brute_force_candidates n (query_point_at q dimension i) dimension)
         !! (k - 1) = Some c
       ∧ knn_of_point n q buf k dimension i !! (k - 1) = Some c
       ∧ kth_distance n q buf k dimension i = c.1.
Proof using std_sort_Permutation.
  intros Hk Hlen.
  pose proof (knn_of_point_length n q buf k dimension i Hlen) as Hreslen.
  destruct (lookup_lt_is_Some_2 (knn_of_point n q buf k dimension i) (k - 1)) as [c Hc];
    [lia|].
  exists c. split_and!; [|done|].
  - unfold knn_of_point in Hc. by apply lookup_take_Some in Hc as [Hc _].
  - unfold kth_distance. rewrite last_lookup, Hreslen.
    replace (pred k) with (k - 1) by lia. by rewrite Hc.
Qed.

(** C4.  In k-nearest mode [FindAllNearest] keeps the running maximum,
    starting from zero, of the k-th smallest neighbour distances of the
    points of the query node, and returns the smaller of that maximum and the
    bound passed in: the bound returned never exceeds the incoming bound.
    The k-th smallest distance of a point is taken among what its [k] slots
    held before the call together with the non-excluded points of the leaf;
    the call leaves it in the last of the point's slots. *)
Theorem knn_bound_is_running_max_capped_by_incoming
    this query_node bound k dimension n q s :
  1 ≤ k →
  memory s !! this = Some n →
  leaf_ok n →
  memory s !! query_node = Some q →
  leaf_ok q →
  num_of_points_ q * k ≤ length (kneighbors_ q) →
  ∃ bound' s' q' worst (kth : nat → Precision_t),
    FindAllNearest this query_node bound (KNearest k) dimension s = Ok bound' s'
    ∧ memory s' !! query_node = Some q'
    ∧ (∀ i, i < num_of_points_ q →
         kth_smallest_distance k (kth i)
           (seeds (kneighbors_ q) i k
            ++ brute_force_candidates n (query_point_at q dimension i) dimension)
         ∧ ∃ slot, kneighbors_ q' !! (i * k + k - 1) = Some slot
                   ∧ distance_ slot = kth i)
    ∧ (worst = Precision_zero ∨ ∃ i, i < num_of_points_ q ∧ worst = kth i)
    ∧ Precision_lt worst Precision_zero = false
    ∧ (∀ i, i < num_of_points_ q → Precision_lt worst (kth i) = false)
    ∧ bound' = (if Precision_lt worst bound then worst else bound)
    ∧ Precision_lt bound bound' = false.
Proof using std_sort_ascending std_sort_Permutation Precision_lt_trans Precision_lt_irrefl.
  intros Hk Hn Hok Hq Hqok Hlen.
  set (worst := max_local_upto n q (kneighbors_ q) k dimension (num_of_points_ q)).
  set (kth := kth_distance n q (kneighbors_ q) k dimension).
  destruct (wp_Ok _ _ _
              (FindAllNearest_knn_wp this query_node bound k dimension n q s
                 Hk Hn Hok Hq Hqok Hlen))
    as (bound' & s' & Hrun & Hmem & _ & Hbound). simpl in Hbound. fold worst in Hbound.
  eexists bound', s', _, worst, kth. split_and!.
  - done.
  - rewrite Hmem. apply list_lookup_insert_eq. by eapply lookup_lt_Some.
  - intros i Hi. simpl.
    assert (Hik : i * k + k ≤ length (kneighbors_ q)) by nia.
    destruct (kth_distance_lookup n q (kneighbors_ q) k dimension i Hk Hik)
      as (c & Hsorted & Hc & Hkth).
    unfold kth. rewrite Hkth. split.
    + by apply sorted_kth_is_kth_smallest.
    + destruct (lookup_lt_is_Some_2 (kneighbors_ q) (i * k + (k - 1))) as [r Hr]; [lia|].
      exists (record_candidate c r). split; [|done].
      replace (i * k + k - 1) with (i * k + (k - 1)) by lia.
      apply knn_buffer_lookup; [done|lia|done..].
  - apply max_local_upto_attained.
  - apply max_local_upto_not_negative.
  - intros i Hi. by apply max_local_upto_upper.
  - done.
  - rewrite Hbound. destruct (Precision_lt worst bound) eqn:Hw.
    + by apply Precision_lt_asym.
    + apply Precision_lt_irrefl.
Qed.

(** C7 (as amended).  [InitKNeighbors] allocates nothing: it writes through
    the neighbours buffer the node already has.  Given a buffer of at least
    pointCount × k slots it returns normally, keeps the length of the buffer,
    and leaves in each of the [k] slots of local point [i] that point's
    original dataset id in the field [point_id_], the other two fields of
    the slot and every further slot being as before. *)
Theorem InitKNeighbors_primes_point_id this knns n s :
  memory s !! this = Some n →
  leaf_ok n →
  num_of_points_ n * knns ≤ length (kneighbors_ n) →
  ∃ buf,
    InitKNeighbors this knns s
    = Ok tt (set_memory (<[this := set_kneighbors buf n]> (memory s)) s)
    ∧ length buf = length (kneighbors_ n)
    ∧ (∀ i j slot, i < num_of_points_ n → j < knns →
         kneighbors_ n !! (i * knns + j) = Some slot →
         ∃ id, index_ n !! i = Some id
               ∧ buf !! (i * knns + j) = Some (set_point_id id slot))
    ∧ (∀ m, num_of_points_ n * knns ≤ m → buf !! m = kneighbors_ n !! m).
Proof.
  intros Hn Hok Hlen.
  destruct (wp_Ok _ _ _ (InitKNeighbors_wp this knns n s Hn Hok Hlen))
    as ([] & s' & Hrun & ->).
  eexists. split_and!; [done|apply primed_upto_length| |].
  - intros i j slot Hi Hj Hslot.
    destruct (lookup_lt_is_Some_2 (index_ n) i) as [id Hid];
      [unfold leaf_ok in Hok; lia|].
    exists id. split; [done|]. unfold primed_upto.
    rewrite list_lookup_imap, Hslot. unfold fmap, option_fmap, option_map.
    rewrite decide_True by nia. do 2 f_equal.
    assert ((i * knns + j) `div` knns = i) as ->.
    { symmetry. apply (Nat.div_unique _ knns i j); lia. }
    by rewrite (list_lookup_total_correct _ _ _ Hid).
  - intros m Hm. unfold primed_upto. rewrite list_lookup_imap.
    destruct (kneighbors_ n !! m); [|done]. unfold fmap, option_fmap, option_map.
    by rewrite decide_False by lia.
Qed.






(** Adding candidates to an ascending list does not increase what is found
    at any position after sorting. *)
Lemma sorted_superset_le (A C : list candidate) j a b :
  ascending A →
  A !! j = Some a →
  std_sort (A ++ C) !! j = Some b →
  Precision_lt a.1 b.1 = false.
Proof using std_sort_ascending std_sort_Permutation Precision_lt_irrefl Precision_nlt_trans.
  intros HA Ha Hb. destruct (Precision_lt a.1 b.1) eqn:Hab; [exfalso|done].
  set (L := std_sort (A ++ C)) in *.
  set (P := λ x : candidate, Precision_lt x.1 b.1 = true).
  assert (Hlow : length (filter P L) ≤ j).
  { rewrite <-(take_drop j L), filter_app, length_app.
    rewrite (filter_none P (drop j L)).
    - simpl. rewrite Nat.add_0_r. etrans; [apply length_filter|]. rewrite length_take. lia.
    - apply Forall_forall. intros x Hx. apply list_elem_of_lookup_1 in Hx as [m Hx].
      rewrite lookup_drop in Hx. unfold P. apply not_true_iff_false.
      destruct m as [|m].
      + rewrite Nat.add_0_r in Hx. assert (x = b) as -> by congruence.
        apply Precision_lt_irrefl.
      + by destruct (ascending_lookup L j (j + S m) b x (std_sort_ascending _)
                       ltac:(lia) Hb Hx). }
  assert (Hhigh : S j ≤ length (filter P (A ++ C))).
  { rewrite filter_app, length_app, <-(take_drop (S j) A), filter_app, length_app.
    rewrite (filter_all P (take (S j) A)).
    - rewrite length_take_le; [lia|]. apply lookup_lt_Some in Ha. lia.
    - apply Forall_forall. intros x Hx. apply elem_of_take in Hx as (m & Hx & Hm).
      unfold P. destruct (decide (m = j)) as [->|Hne].
      + by assert (x = a) as -> by congruence.
      + destruct (ascending_lookup A m j x a HA ltac:(lia) Hx Ha) as [Hle _].
        destruct (Precision_lt x.1 b.1) eqn:Hxb; [done|].
        by rewrite (Precision_nlt_trans _ _ _ Hxb Hle) in Hab. }
  assert (Hperm : length (filter P L) = length (filter P (A ++ C))).
  { unfold L. by rewrite std_sort_Permutation. }
  lia.
Qed.

Lemma knn_of_point_keeps_k n q buf k dimension i :
  knn_of_point n q buf k dimension i
  = take k (std_sort (seeds buf i k
                      ++ brute_force_candidates n (query_point_at q dimension i) dimension)).
Proof. done. Qed.

Lemma knn_of_point_ascending n q buf k dimension i :
  i * k + k ≤ length buf → ascending (knn_of_point n q buf k dimension i).
Proof using std_sort_ascending std_sort_Permutation.
  intros Hlen. rewrite knn_of_point_keeps_k.
  pose proof (std_sort_ascending
                (seeds buf i k
                 ++ brute_force_candidates n (query_point_at q dimension i) dimension)) as Hs.
  rewrite <-(take_drop k (std_sort _)) in Hs.
  by apply StronglySorted_app in Hs as (_ & Hs & _).
Qed.

(** C6 (as amended).  A second k-nearest run of [FindAllNearest], seeded
    from the neighbours buffer the first run wrote, merges the points of the
    leaf once more: for each point of the query node it leaves the first [k],
    in ascending order, of the point's first-run slots taken together with
    the leaf's non-excluded points, so a neighbour the first run recorded is
    a candidate again and can fill a further slot.  No slot's distance is
    larger after the second run than after the first. *)
Theorem second_knn_run_merges_the_leaf_again
    this query_node bound bound2 k dimension n q s :
  1 ≤ k →
  memory s !! this = Some n →
  leaf_ok n →
  memory s !! query_node = Some q →
  leaf_ok q →
  num_of_points_ q * k ≤ length (kneighbors_ q) →
  ∃ b1 s1 q1 b2 s2 q2,
    FindAllNearest this query_node bound (KNearest k) dimension s = Ok b1 s1
    ∧ FindAllNearest this query_node bound2 (KNearest k) dimension s1 = Ok b2 s2
    ∧ memory s1 !! query_node = Some q1
    ∧ memory s2 !! query_node = Some q2
    ∧ ∀ i, i < num_of_points_ q →
        seeds (kneighbors_ q2) i k
        = take k (std_sort (seeds (kneighbors_ q1) i k
                            ++ brute_force_candidates n (query_point_at q dimension i)
                                 dimension))
        ∧ ∀ j c1 c2,
            seeds (kneighbors_ q1) i k !! j = Some c1 →
            seeds (kneighbors_ q2) i k !! j = Some c2 →
            Precision_lt c1.1 c2.1 = false.
Proof using std_sort_ascending std_sort_Permutation Precision_lt_irrefl Precision_nlt_trans.
  intros Hk Hn Hok Hq Hqok Hlen.
  assert (Hqn : query_node < length (memory s)) by by eapply lookup_lt_Some.
  destruct (wp_Ok _ _ _
              (FindAllNearest_knn_wp this query_node bound k dimension n q s
                 Hk Hn Hok Hq Hqok Hlen))
    as (b1 & s1 & Hrun1 & Hmem1 & _ & _).
  set (buf1 := knn_buffer n q k dimension (num_of_points_ q) (kneighbors_ q)) in *.
  set (q1 := set_kneighbors buf1 q).
  assert (Hq1 : memory s1 !! query_node = Some q1).
  { rewrite Hmem1. by apply list_lookup_insert_eq. }
  destruct (lookup_this_after s this query_node n q buf1 Hn Hq) as [b' Hthis].
  assert (Hn1 : memory s1 !! this = Some (set_kneighbors b' n))
    by (rewrite Hmem1; exact Hthis).
  assert (Hlen1 : num_of_points_ q1 * k ≤ length (kneighbors_ q1)).
  { simpl. unfold buf1. by rewrite knn_buffer_length. }
  destruct (wp_Ok _ _ _
              (FindAllNearest_knn_wp this query_node bound2 k dimension
                 (set_kneighbors b' n) q1 s1 Hk Hn1 Hok Hq1 Hqok Hlen1))
    as (b2 & s2 & Hrun2 & Hmem2 & _ & _).
  eexists b1, s1, q1, b2, s2, _. split_and!; [done|done|done| |].
  { rewrite Hmem2. apply list_lookup_insert_eq. by eapply lookup_lt_Some. }
  intros i Hi. simpl in *.
  assert (Hi1 : i * k + k ≤ length buf1) by nia.
  assert (Hseeds2 :
    seeds (knn_buffer (set_kneighbors b' n) q1 k dimension (num_of_points_ q) buf1) i k
    = take k (std_sort (seeds buf1 i k
                        ++ brute_force_candidates n (query_point_at q dimension i) dimension))).
  { rewrite knn_buffer_seeds_after by done. by rewrite knn_of_point_keeps_k. }
  split; [done|]. intros j c1 c2 Hc1 Hc2.
  rewrite Hseeds2 in Hc2. apply lookup_take_Some in Hc2 as [Hc2 _].
  eapply sorted_superset_le; [|exact Hc1|exact Hc2].
  unfold buf1. rewrite knn_buffer_seeds_after by (done || lia).
  apply knn_of_point_ascending. nia.
Qed.

(** * Further properties *)

(** ** Runs that end in undefined behaviour, and what runs report to the
    computations counter *)

(** A loop whose round [i0] is undefined is undefined, if the rounds before
    it keep an invariant under which round [i0] is undefined. *)
Lemma for_range_Undefined {A : Type} (I : nat → A → State → Prop)
    (body : nat → A → M A) count i0 :
  ∀ start a s,
  start ≤ i0 < start + count →
  I start a s →
  (∀ i a s, start ≤ i < i0 → I i a s → wp (body i a) (I (S i)) (λ _ _, False) True s) →
  (∀ a s, I i0 a s → body i0 a s = Undefined) →
  for_range start count body a s = Undefined.
Proof.
  induction count as [|count IH]; intros start a s Hi Hinv Hstep Hstop; [lia|].
  simpl. unfold bind. destruct (decide (start = i0)) as [->|Hne].
  - by rewrite Hstop.
  - pose proof (Hstep start a s ltac:(lia) Hinv) as Hwp. unfold wp in Hwp.
    destruct (body start a s) as [a' s'| |]; [|done..].
    apply IH; [lia|done| |done]. intros i a0 s0 Hi0. apply Hstep. lia.
Qed.

Lemma State_eq (s s' : State) :
  memory s' = memory s → range_nn_fp_ s' = range_nn_fp_ s → comp s' = comp s → s' = s.
Proof. destruct s, s'. simpl. by intros -> -> ->. Qed.

Lemma count_up_0 c : count_up 0 0 c = c.
Proof. unfold count_up. destruct diagnostic, c; simpl; [|done]. f_equal; lia. Qed.

Lemma count_up_add d1 m1 d2 m2 c :
  count_up d2 m2 (count_up d1 m1 c) = count_up (d1 + d2) (m1 + m2) c.
Proof. unfold count_up. destruct diagnostic; [|done]. simpl. f_equal; lia. Qed.

Section accounting.

Variable P : State → Prop.

Variable F : Prop.

Hypothesis P_memory : ∀ s s', memory s' = memory s → P s → P s'.

Lemma charges_eq {A : Type} (c : M A) d m d' m' :
  charges P F c d m → d = d' → m = m' → charges P F c d' m'.
Proof. by intros H <- <-. Qed.

Lemma charges_ret {A : Type} (a : A) : charges P F (ret a) 0 0.
Proof. intros s HP. unfold wp, ret. by rewrite count_up_0. Qed.

Lemma charges_undefined {A : Type} d m : charges P F (@undefined A) d m.
Proof. by intros s HP. Qed.

Lemma charges_FATAL {A : Type} msg d m : F → charges P F (@FATAL A msg) d m.
Proof. by intros HF s HP. Qed.

Lemma charges_of_option {A : Type} (o : option A) : charges P F (of_option o) 0 0.
Proof. destruct o; [apply charges_ret|apply charges_undefined]. Qed.

Lemma charges_bind {A B : Type} (c : M A) (k : A → M B) d1 m1 d2 m2 :
  charges P F c d1 m1 → (∀ a, charges P F (k a) d2 m2) →
  charges P F (bind c k) (d1 + d2) (m1 + m2).
Proof.
  intros Hc Hk s HP. specialize (Hc s HP). unfold wp, bind in *.
  destruct (c s) as [a s1| |]; [|done..]. destruct Hc as [HP1 Hc1].
  specialize (Hk a s1 HP1). unfold wp in Hk.
  destruct (k a s1) as [b s2| |]; [|done..]. destruct Hk as [HP2 Hc2].
  split; [done|]. by rewrite Hc2, Hc1, count_up_add.
Qed.

Lemma charges_bind_free {A B : Type} (c : M A) (k : A → M B) d m :
  charges P F c 0 0 → (∀ a, charges P F (k a) d m) → charges P F (bind c k) d m.
Proof. intros Hc Hk. by apply (charges_bind c k 0 0 d m). Qed.

Lemma charges_then_free {A B : Type} (c : M A) (k : A → M B) d m :
  charges P F c d m → (∀ a, charges P F (k a) 0 0) → charges P F (bind c k) d m.
Proof. intros Hc Hk. eapply charges_eq; [by apply (charges_bind c k d m 0 0)|lia..]. Qed.

Lemma charges_for_range {A : Type} (body : nat → A → M A) count d m :
  (∀ i a, charges P F (body i a) d m) →
  ∀ start a, charges P F (for_range start count body a) (count * d) (count * m).
Proof.
  intros Hbody. induction count as [|count IH]; intros start a; simpl.
  - apply charges_ret.
  - apply charges_bind; [apply Hbody|]. intros a'. apply IH.
Qed.

Lemma charges_for_range_free {A : Type} (body : nat → A → M A) count start a :
  (∀ i a, charges P F (body i a) 0 0) →
  charges P F (for_range start count body a) 0 0.
Proof. intros Hbody. eapply charges_eq; [by apply charges_for_range|lia..]. Qed.

(** An operation that only reads is free. *)
Lemma charges_read {A : Type} (c : M A) :
  (∀ s, wp c (λ _ s', s' = s) (λ _ _, F) True s) → charges P F c 0 0.
Proof.
  intros Hc s HP. specialize (Hc s). unfold wp in *.
  destruct (c s); [|done..]. subst. by rewrite count_up_0.
Qed.

Lemma charges_deref p : charges P F (deref p) 0 0.
Proof.
  apply charges_read. intros s. unfold wp, deref, of_option.
  by destruct (memory s !! p).
Qed.

Lemma charges_index_at p i : charges P F (index_at p i) 0 0.
Proof.
  apply charges_bind_free; [apply charges_deref|]. intros n. apply charges_of_option.
Qed.

Lemma charges_points_from p offset dimension :
  charges P F (points_from p offset dimension) 0 0.
Proof.
  apply charges_bind_free; [apply charges_deref|]. intros n. apply charges_ret.
Qed.

Lemma charges_kneighbors_at p i : charges P F (kneighbors_at p i) 0 0.
Proof.
  apply charges_bind_free; [apply charges_deref|]. intros n. apply charges_of_option.
Qed.

Lemma charges_errno : charges P F errno 0 0.
Proof. by apply charges_read. Qed.

Lemma charges_UpdateDistances : charges P F UpdateDistances 1 0.
Proof using P_memory.
  intros s HP. unfold wp, UpdateDistances, count_up.
  destruct diagnostic; simpl; [|done].
  split; [by apply (P_memory s)|]. f_equal; lia.
Qed.

Lemma charges_UpdateComparisons : charges P F UpdateComparisons 0 1.
Proof using P_memory.
  intros s HP. unfold wp, UpdateComparisons, count_up.
  destruct diagnostic; simpl; [|done].
  split; [by apply (P_memory s)|]. f_equal; lia.
Qed.

Lemma charges_fwrite r : charges P F (fwrite r) 0 0.
Proof using P_memory.
  intros s HP. unfold wp, fwrite. rewrite count_up_0.
  destruct (room (range_nn_fp_ s)); simpl; (split; [by apply (P_memory s)|done]).
Qed.

Lemma charges_FindNearest_scan_point p q range dimension i nearest :
  charges P F
    (UpdateDistances ;;;
     id <- index_at p i ;;
     if AreTheSame id (get_id q) then ret nearest
     else
       ptr <- points_from p (i * dimension) dimension ;;
       let dist := Distance q ptr dimension in
       match range with
       | Radius r =>
           if Precision_le dist r
           then ret (nearest ++ [(dist, Alias ptr id)])
           else ret nearest
       | KNearest _ => ret (nearest ++ [(dist, Alias ptr id)])
       end) 1 0.
Proof using P_memory.
  apply charges_then_free; [apply charges_UpdateDistances|]. intros _.
  apply charges_bind_free; [apply charges_index_at|]. intros id.
  destruct (AreTheSame id (get_id q)); [apply charges_ret|].
  apply charges_bind_free; [apply charges_points_from|]. intros ptr. simpl.
  destruct range as [r|k]; [destruct (Precision_le _ r)|]; apply charges_ret.
Qed.

(** The searches of the leaf at [this], which has [N] points. *)
Variable this : NodePtr_t.

Variable N : nat.

Hypothesis P_this : ∀ s, P s → has_points this N s.

Lemma charges_FindNearest_scan q nearest range dimension :
  charges P F (FindNearest_scan this q nearest range dimension) N 0.
Proof using P_memory P_this.
  intros s HP. unfold FindNearest_scan. apply wp_bind, wp_deref.
  destruct (memory s !! this) as [n|] eqn:Hm; [|done].
  rewrite (P_this s HP n Hm).
  eapply charges_eq; [apply (charges_for_range _ N 1 0)|lia..|done].
  intros i acc. apply charges_FindNearest_scan_point.
Qed.

Lemma charges_FindNearest_trim k nearest : charges P F (FindNearest_trim k nearest) 0 0.
Proof.
  apply charges_bind_free.
  { apply charges_for_range_free. intros _ it. unfold iterator_next.
    destruct (decide (it < length nearest)); [apply charges_ret|apply charges_undefined]. }
  intros it. simpl. destruct (k <? _); apply charges_ret.
Qed.

Lemma charges_FindNearest q nearest range dimension :
  charges P F (FindNearest this q nearest range dimension) N 0.
Proof using P_memory P_this.
  apply charges_then_free; [apply charges_FindNearest_scan|]. intros res.
  destruct range; [apply charges_ret|apply charges_FindNearest_trim].
Qed.

Lemma charges_FindAllNearest_range_point qn r dimension i :
  F → charges P F (FindAllNearest_range_point this qn r dimension i) N 0.
Proof using P_memory P_this.
  intros HF.
  apply charges_bind_free; [apply charges_points_from|]. intros ptr.
  apply charges_bind_free; [apply charges_index_at|]. intros id.
  apply charges_then_free; [apply charges_FindNearest|]. intros temp.
  apply charges_for_range_free. intros j _.
  apply charges_bind_free; [apply charges_index_at|]. intros id'.
  apply charges_bind_free; [apply charges_of_option|]. intros c.
  apply charges_bind_free; [apply charges_fwrite|]. intros w.
  destruct (w =? 1); [apply charges_ret|].
  apply charges_bind_free; [apply charges_errno|]. intros e. by apply charges_FATAL.
Qed.

Hypothesis P_assign : ∀ p i f, charges P F (kneighbors_assign p i f) 0 0.

Lemma charges_FindAllNearest_knn_point qn k dimension i m :
  charges P F (FindAllNearest_knn_point this qn k dimension i m) N 1.
Proof using P_memory P_this P_assign.
  unfold FindAllNearest_knn_point.
  apply charges_bind_free.
  { destruct (i * k + k); [apply charges_undefined|].
    apply charges_bind_free; [apply charges_kneighbors_at|]. intros r. apply charges_ret. }
  intros _. apply charges_bind_free.
  { apply charges_for_range_free. intros j temp.
    apply charges_bind_free; [apply charges_kneighbors_at|]. intros r. apply charges_ret. }
  intros temp.
  apply charges_bind_free; [apply charges_points_from|]. intros ptr.
  apply charges_bind_free; [apply charges_index_at|]. intros id.
  eapply charges_eq; [apply (charges_bind _ _ N 0 0 1)|lia..].
  { apply charges_FindNearest. }
  intros res. apply charges_bind_free.
  { apply charges_for_range_free. intros j _.
    apply charges_bind_free; [apply charges_of_option|]. intros c.
    apply charges_bind_free; [apply P_assign|]. intros _. apply P_assign. }
  intros _.
  apply charges_then_free; [apply charges_UpdateComparisons|]. intros _.
  apply charges_bind_free; [apply charges_of_option|]. intros back.
  destruct (Precision_lt m back.1); apply charges_ret.
Qed.

End accounting.

Lemma charges_and (P1 P2 : State → Prop) (F : Prop) {A : Type} (c : M A) d m :
  charges P1 F c d m → charges P2 F c d m → charges (λ s, P1 s ∧ P2 s) F c d m.
Proof.
  intros H1 H2 s [HP1 HP2]. specialize (H1 s HP1). specialize (H2 s HP2).
  unfold wp in *. destruct (c s); [|done..]. by destruct H1, H2.
Qed.

Lemma has_points_memory this N s s' :
  memory s' = memory s → has_points this N s → has_points this N s'.
Proof. unfold has_points. by intros ->. Qed.

Lemma has_slots_memory p ids L s s' :
  memory s' = memory s → has_slots p ids L s → has_slots p ids L s'.
Proof. unfold has_slots. by intros ->. Qed.

Lemma has_points_assign (F : Prop) this N p i f :
  charges (has_points this N) F (kneighbors_assign p i f) 0 0.
Proof.
  intros s HP. unfold wp, kneighbors_assign, bind, deref, of_option.
  destruct (memory s !! p) as [n|] eqn:Hp; simpl; [|done].
  destruct (kneighbors_ n !! i) as [r|]; simpl; [|done].
  rewrite count_up_0. split; [|done].
  intros n' Hn'. simpl in Hn'. destruct (decide (this = p)) as [->|Hne].
  - rewrite list_lookup_insert_eq in Hn' by (by eapply lookup_lt_Some).
    injection Hn' as <-. simpl. by apply HP.
  - rewrite list_lookup_insert_ne in Hn' by done. by apply HP.
Qed.

Lemma has_slots_assign (F : Prop) q ids L p i f :
  charges (has_slots q ids L) F (kneighbors_assign p i f) 0 0.
Proof.
  intros s (n0 & Hq & Hids & Hlen). unfold wp, kneighbors_assign, bind, deref, of_option.
  destruct (memory s !! p) as [n|] eqn:Hp; simpl; [|done].
  destruct (kneighbors_ n !! i) as [r|]; simpl; [|done].
  rewrite count_up_0. split; [|done]. unfold has_slots. simpl.
  destruct (decide (q = p)) as [->|Hne].
  - rewrite list_lookup_insert_eq by (by eapply lookup_lt_Some).
    eexists. split; [done|]. simpl. rewrite length_insert.
    assert (n0 = n) as -> by congruence. done.
  - rewrite list_lookup_insert_ne by done. eauto.
Qed.

Lemma has_slots_assign_wp q ids L p i f s :
  has_slots q ids L s →
  wp (kneighbors_assign p i f) (λ _ s', has_slots q ids L s') (λ _ _, False) True s.
Proof.
  intros (n0 & Hq & Hids & Hlen). unfold wp, kneighbors_assign, bind, deref, of_option.
  destruct (memory s !! p) as [n|] eqn:Hp; simpl; [|done].
  destruct (kneighbors_ n !! i) as [r|]; simpl; [|done].
  unfold has_slots. simpl. destruct (decide (q = p)) as [->|Hne].
  - rewrite list_lookup_insert_eq by (by eapply lookup_lt_Some).
    eexists. split; [done|]. simpl. rewrite length_insert.
    assert (n0 = n) as -> by congruence. done.
  - rewrite list_lookup_insert_ne by done. eauto.
Qed.

Lemma InitKNeighbors_slot_wp q ids L p i m s :
  has_slots q ids L s →
  wp (id <- index_at p i ;; kneighbors_assign p m (set_point_id id))
     (λ _ s', has_slots q ids L s') (λ _ _, False) True s.
Proof.
  intros HP. apply wp_bind. unfold index_at. apply wp_bind, wp_deref.
  destruct (memory s !! p) as [n|]; [|done]. apply wp_of_option.
  destruct (index_ n !! i) as [id|]; [|done]. by apply has_slots_assign_wp.
Qed.

(** ** [Init] of a leaf *)

Lemma wp_node_assign p f n Q F U s :
  memory s !! p = Some n →
  Q tt (set_memory (<[p := f n]> (memory s)) s) →
  wp (node_assign p f) Q F U s.
Proof. intros Hn HQ. unfold node_assign. apply wp_bind, wp_deref. by rewrite Hn. Qed.

Lemma wp_points_assign p i x n Q F U s :
  memory s !! p = Some n →
  i < length (points_ n) →
  Q tt (set_memory (<[p := set_points (<[i := x]> (points_ n)) n]> (memory s)) s) →
  wp (points_assign p i x) Q F U s.
Proof.
  intros Hn Hi HQ. unfold points_assign. apply wp_bind, wp_deref. rewrite Hn.
  apply wp_bind, wp_of_option.
  by destruct (lookup_lt_is_Some_2 (points_ n) i Hi) as [y ->].
Qed.

Lemma wp_index_assign p i id n Q F U s :
  memory s !! p = Some n →
  i < length (index_ n) →
  Q tt (set_memory (<[p := set_index (<[i := id]> (index_ n)) n]> (memory s)) s) →
  wp (index_assign p i id) Q F U s.
Proof.
  intros Hn Hi HQ. unfold index_assign. apply wp_bind, wp_deref. rewrite Hn.
  apply wp_bind, wp_of_option.
  by destruct (lookup_lt_is_Some_2 (index_ n) i Hi) as [y ->].
Qed.

Lemma insert_at_boundary {A : Type} (pre raw : list A) p x :
  p = length pre → p < length raw →
  <[p := x]> (pre ++ drop p raw) = (pre ++ [x]) ++ drop (S p) raw.
Proof.
  intros -> Hlt. rewrite insert_app_r_alt, Nat.sub_diag by lia.
  rewrite <-app_assoc. f_equal.
  destruct (drop (length pre) raw) as [|y l] eqn:Hd.
  - apply (f_equal length) in Hd. rewrite length_drop in Hd. simpl in Hd. lia.
  - simpl. f_equal. replace (S (length pre)) with (length pre + 1) by lia.
    by rewrite <-drop_drop, Hd.
Qed.

Lemma dataset_row_length dataset dimension i :
  length (dataset_row dataset dimension i) = dimension.
Proof. unfold dataset_row. by rewrite length_map, length_seq. Qed.

Lemma flat_map_rows_length (l : list nat) dataset dimension :
  length (flat_map (dataset_row dataset dimension) l) = length l * dimension.
Proof.
  induction l as [|x l IH]; simpl; [done|].
  by rewrite length_app, dataset_row_length, IH.
Qed.

(** The points buffer while row [i] is being copied, and the node then:
    the rows before [i], the first [j] coordinates of row [i], and what the
    allocator left in the rest. *)
Lemma Init_leaf_run_row this dataset dimension start count raw rawI n0 i s s1 :
  this < length (memory s) →
  length raw = count * dimension →
  start ≤ i < start + count →
  let node := λ pts, set_index rawI (set_points pts n0) in
  let rows := flat_map (dataset_row dataset dimension) (seq start (i - start)) in
  s1 = set_memory (<[this := node (rows ++ drop ((i - start) * dimension) raw)]> (memory s)) s →
  wp (for_range 0 dimension (λ j _,
        points_assign this ((i - start) * dimension + j) (At dataset i j)) tt)
     (λ _ s', s' = set_memory
                     (<[this := node ((rows ++ dataset_row dataset dimension i)
                                      ++ drop (S (i - start) * dimension) raw)]> (memory s)) s)
     (λ _ _, False) False s1.
Proof.
  intros Hthis Hraw Hi node rows ->.
  eapply (wp_mono _ _ _ (λ _ _, False) _ False);
    [apply (wp_for_range (λ j _ s',
       s' = set_memory
              (<[this := node ((rows ++ map (At dataset i) (seq 0 j))
                               ++ drop ((i - start) * dimension + j) raw)]> (memory s)) s))
    | | done | done].
  - simpl. by rewrite app_nil_r, Nat.add_0_r.
  - intros j' [] s' Hj ->.
    assert (Hrows : length rows = (i - start) * dimension).
    { unfold rows. by rewrite flat_map_rows_length, length_seq. }
    eapply wp_points_assign.
    + simpl. by apply list_lookup_insert_eq.
    + simpl. rewrite !length_app, length_map, length_seq, length_drop, Hrows, Hraw. nia.
    + simpl. rewrite list_insert_insert_eq. unfold set_memory. simpl. do 2 f_equal.
      unfold node, set_index, set_points. simpl. f_equal.
      rewrite insert_at_boundary.
      * change (At dataset i 0 :: map (At dataset i) (seq 1 j'))
          with (map (At dataset i) (seq 0 (S j'))).
        by rewrite seq_S, map_app, Nat.add_succ_r, !app_assoc.
      * by rewrite length_app, length_map, length_seq, Hrows.
      * rewrite Hraw. nia.
  - intros [] s' ->. unfold dataset_row.
    by replace (S (i - start) * dimension)
      with ((i - start) * dimension + (0 + dimension)) by lia.
Qed.

(** The allocator hands out buffers of the size asked for. *)
Hypothesis malloc_Precision_t_length : ∀ size, length (malloc_Precision_t size) = size.
Hypothesis malloc_index_t_length : ∀ size, length (malloc_index_t size) = size.

Lemma Init_leaf_run_wp this box statistics node_id start num_of_points dimension dataset n s :
  memory s !! this = Some n →
  wp (Init_leaf_run this box statistics node_id start num_of_points dimension dataset)
     (λ _ s', s' = set_memory
                     (<[this := Init_leaf box statistics node_id start num_of_points
                                  dimension dataset n]> (memory s)) s)
     (λ _ _, False) False s.
Proof using malloc_Precision_t_length malloc_index_t_length.
  intros Hn. assert (Hthis : this < length (memory s)) by by eapply lookup_lt_Some.
  set (raw := malloc_Precision_t (num_of_points * dimension)).
  set (rawI := malloc_index_t num_of_points).
  set (n0 := Init box statistics node_id num_of_points n).
  assert (Hraw : length raw = num_of_points * dimension) by apply malloc_Precision_t_length.
  assert (HrawI : length rawI = num_of_points) by apply malloc_index_t_length.
  pose (rows := λ c, flat_map (dataset_row dataset dimension) (seq start c)).
  pose (ids := λ c, map (dataset_get_id dataset) (seq start c)).
  pose (node := λ c, set_index (ids c ++ drop c rawI)
                       (set_points (rows c ++ drop (c * dimension) raw) n0)).
  unfold Init_leaf_run.
  apply wp_bind. eapply wp_node_assign; [done|]. fold n0.
  apply wp_bind, wp_deref. simpl. rewrite list_lookup_insert_eq by done.
  apply wp_bind. eapply wp_node_assign; [simpl; by apply list_lookup_insert_eq|].
  simpl. rewrite list_insert_insert_eq.
  apply wp_bind. eapply wp_node_assign; [simpl; by apply list_lookup_insert_eq|].
  simpl. rewrite list_insert_insert_eq.
  apply wp_bind, wp_deref. simpl. rewrite list_lookup_insert_eq by done. simpl.
  fold raw rawI.
  eapply (wp_mono _ _ _ (λ _ _, False) _ False);
    [apply (wp_for_range (λ i _ s',
       s' = set_memory (<[this := node (i - start)]> (memory s)) s))
    | | done | done].
  - rewrite Nat.sub_diag. unfold node, rows, ids, set_memory. simpl. by rewrite !drop_0.
  - intros i [] s1 Hi ->. set (c := i - start).
    apply wp_bind.
    eapply wp_mono;
      [apply (Init_leaf_run_row this dataset dimension start num_of_points raw
                (ids c ++ drop c rawI) n0 i s); done
      | |done..].
    simpl. intros [] s2 ->. fold c. fold (rows c).
    eapply wp_index_assign.
    + simpl. by apply list_lookup_insert_eq.
    + simpl. unfold ids. rewrite length_app, length_map, length_seq, length_drop, HrawI. lia.
    + assert (Hrows : rows (S c) = rows c ++ dataset_row dataset dimension i).
      { unfold rows. rewrite seq_S, flat_map_app. simpl. rewrite app_nil_r.
        by replace (start + c) with i by lia. }
      assert (Hids : ids (S c) = ids c ++ [dataset_get_id dataset i]).
      { unfold ids. rewrite seq_S, map_app. simpl.
        by replace (start + c) with i by lia. }
      replace (node (S i - start))
        with (set_index ((ids c ++ [dataset_get_id dataset i]) ++ drop (S c) rawI)
                (set_points ((rows c ++ dataset_row dataset dimension i)
                             ++ drop (S c * dimension) raw) n0)).
      2: { replace (S i - start) with (S c) by lia. unfold node. by rewrite Hrows, Hids. }
      simpl. rewrite list_insert_insert_eq. unfold set_memory. simpl. do 2 f_equal.
      unfold set_index, set_points. simpl. f_equal.
      rewrite insert_at_boundary; [done| |lia].
      unfold ids. by rewrite length_map, length_seq.
  - intros [] s' ->. replace (start + num_of_points - start) with num_of_points by lia.
    unfold node, rows, ids. rewrite !drop_ge, !app_nil_r by lia. done.
Qed.

Lemma Init_leaf_points box statistics node_id start num_of_points dimension dataset n :
  leaf_points (Init_leaf box statistics node_id start num_of_points dimension dataset n)
    dimension
  = dataset_point dataset dimension <$> seq start num_of_points.
Proof.
  assert (Hrow : ∀ l i x, l !! i = Some x →
            take dimension (drop (i * dimension) (flat_map (dataset_row dataset dimension) l))
            = dataset_row dataset dimension x).
  { induction l as [|y l IH]; intros i x Hx; [done|]. simpl.
    destruct i as [|i]; simpl in *.
    - injection Hx as ->. rewrite drop_0.
      by rewrite take_app_length' by (by rewrite dataset_row_length).
    - rewrite drop_app_add' by (by rewrite dataset_row_length). by apply IH. }
  apply list_eq. intros i. unfold leaf_points, leaf_points_upto. simpl.
  rewrite list_lookup_imap.
  rewrite (take_ge (map _ _)) by (by rewrite length_map, length_seq).
  rewrite !list_lookup_fmap.
  destruct (seq start num_of_points !! i) as [x|] eqn:Hx; simpl; [|done].
  unfold dataset_point, dataset_row in *. by rewrite (Hrow _ _ _ Hx).
Qed.

(** X1.  [Init] of a leaf returns, and whatever the allocator left in the two
    fresh buffers is overwritten: the node then has the box, statistics, id
    and point count it was given, the rows [start, start + num_of_points) of
    the dataset as its points, in order and [dimension] coordinates each, and
    their dataset ids; its children and its neighbours buffer are as before,
    and nothing else of the state changes. *)
Theorem Init_holds_the_dataset_slice
    this box statistics node_id start num_of_points dimension dataset n s :
  memory s !! this = Some n →
  ∃ n',
    Init_leaf_run this box statistics node_id start num_of_points dimension dataset s
    = Ok tt (set_memory (<[this := n']> (memory s)) s)
    ∧ n' = Init_leaf box statistics node_id start num_of_points dimension dataset n
    ∧ leaf_points n' dimension = dataset_point dataset dimension <$> seq start num_of_points
    ∧ length (points_ n') = num_of_points * dimension
    ∧ length (index_ n') = num_of_points
    ∧ (box_ n', statistics_ n', node_id_ n', num_of_points_ n')
      = (box, statistics, node_id, num_of_points)
    ∧ (left_ n', right_ n', kneighbors_ n', min_dist_so_far_ n')
      = (left_ n, right_ n, kneighbors_ n, min_dist_so_far_ n).
Proof using malloc_Precision_t_length malloc_index_t_length.
  intros Hn.
  destruct (wp_Ok _ _ _ (Init_leaf_run_wp this box statistics node_id start num_of_points
                           dimension dataset n s Hn)) as ([] & s' & Hrun & ->).
  eexists. split_and!; [done|done|apply Init_leaf_points| | |done|done].
  - apply Init_leaf_ok.
  - simpl. by rewrite length_map, length_seq.
Qed.

(** X2.  A leaf that [Init] has filled is searched as the rows of the dataset:
    range-mode [FindNearest] appends to the list it was passed exactly the
    rows [start, start + num_of_points) that the discriminator does not
    exclude and that lie within the radius of the query point, in row order,
    each with its distance and dataset id. *)
Theorem Init_then_range_search_finds_the_rows
    this box statistics node_id start num_of_points dimension dataset q nearest r n s :
  memory s !! this = Some n →
  ∃ s1 s2,
    Init_leaf_run this box statistics node_id start num_of_points dimension dataset s
    = Ok tt s1
    ∧ FindNearest this q nearest (Radius r) dimension s1
      = Ok (nearest
            ++ filter (λ c, Precision_le c.1 r = true)
                 (with_distance q dimension
                    (non_excluded q
                       (dataset_point dataset dimension <$> seq start num_of_points))))
           s2.
Proof using malloc_Precision_t_length malloc_index_t_length.
  intros Hn. assert (Hthis : this < length (memory s)) by by eapply lookup_lt_Some.
  destruct (wp_Ok _ _ _ (Init_leaf_run_wp this box statistics node_id start num_of_points
                           dimension dataset n s Hn)) as ([] & s1 & Hrun & ->).
  set (n' := Init_leaf box statistics node_id start num_of_points dimension dataset n) in *.
  assert (Hn' : memory (set_memory (<[this := n']> (memory s)) s) !! this = Some n')
    by (simpl; by apply list_lookup_insert_eq).
  destruct (wp_Ok _ _ _ (FindNearest_range_wp this q nearest r dimension n' _ Hn'
                           (proj1 (Init_leaf_ok _ _ _ _ _ _ _ _))))
    as (res & s2 & Hfind & -> & _).
  eexists _, s2. split; [done|]. rewrite Hfind. do 2 f_equal. simpl.
  unfold brute_force_range, brute_force_candidates. unfold n'.
  by rewrite Init_leaf_points.
Qed.

(** ** [ClosestNode] *)

(** X3.  [ClosestNode] returns the two nodes it was given, each with the
    distance of its box from the box of this node, the nearer first: the
    second of the pair is never nearer than the first. When neither distance
    is smaller than the other -- when they are equal -- the node given second
    comes first. The distances are computed for the first node and then for
    the second; of the state only the counter changes, as the two computations
    leave it. *)
Theorem ClosestNode_nearer_first this ptr1 ptr2 dimension n n1 n2 s :
  memory s !! this = Some n →
  memory s !! ptr1 = Some n1 →
  memory s !! ptr2 = Some n2 →
  let r1 := BoundingBox_Distance (box_ n) (box_ n1) dimension (comp s) in
  let r2 := BoundingBox_Distance (box_ n) (box_ n2) dimension r1.2 in
  ∃ near far,
    ClosestNode this ptr1 ptr2 dimension s = Ok (near, far) (set_comp r2.2 s)
    ∧ Precision_lt far.2 near.2 = false
    ∧ (Precision_lt r1.1 r2.1 = true → near = (ptr1, r1.1) ∧ far = (ptr2, r2.1))
    ∧ (Precision_lt r1.1 r2.1 = false → near = (ptr2, r2.1) ∧ far = (ptr1, r1.1)).
Proof using Precision_lt_irrefl Precision_lt_trans.
  intros Hn Hn1 Hn2 r1 r2.
  assert (Hrun : ClosestNode this ptr1 ptr2 dimension s
                 = Ok (if Precision_lt r1.1 r2.1
                       then ((ptr1, r1.1), (ptr2, r2.1))
                       else ((ptr2, r2.1), (ptr1, r1.1))) (set_comp r2.2 s)).
  { unfold ClosestNode, bind, get_box, bind, deref, of_option, box_Distance.
    rewrite Hn. simpl. rewrite Hn1. simpl. rewrite Hn2. simpl.
    fold r1. fold r2. by destruct (Precision_lt r1.1 r2.1). }
  destruct (Precision_lt r1.1 r2.1) eqn:Hlt.
  - exists (ptr1, r1.1), (ptr2, r2.1). split_and!; [done| |done|done].
    simpl. by apply Precision_lt_asym.
  - exists (ptr2, r2.1), (ptr1, r1.1). split_and!; [done|done|done|done].
Qed.

(** ** [FindNearest] *)

(** X4.  [FindNearest] checks neither the id buffer nor the number of
    candidates.  It reads [index_[i]] for every [i] below [num_of_points_],
    and in k-nearest mode it steps an iterator [k] times from the start of
    the candidate list: where the leaf is missing, or its id buffer is
    shorter than its point count, or fewer than [k] candidates exist after
    the scan, the run is undefined.  It never ends in a fatal error. *)
Theorem FindNearest_undefined_out_of_bounds this q nearest range dimension s :
  (¬ (∃ n, memory s !! this = Some n
           ∧ leaf_ok n
           ∧ ∀ k, range = KNearest k →
                  k ≤ length (nearest ++ brute_force_candidates n q dimension)) →
   FindNearest this q nearest range dimension s = Undefined)
  ∧ ∀ msg s', FindNearest this q nearest range dimension s ≠ Fatal msg s'.
Proof.
  split.
  - intros Hno. destruct (memory s !! this) as [n|] eqn:Hm.
    2: { unfold FindNearest, bind, FindNearest_scan, bind, deref, of_option.
         by rewrite Hm. }
    destruct (le_lt_dec (num_of_points_ n) (length (index_ n))) as [Hok|Hshort].
    + destruct range as [r|k].
      { exfalso. apply Hno. exists n. by split_and!. }
      apply (FindNearest_knn_Undefined this q nearest k dimension n s Hm Hok).
      destruct (le_lt_dec k (length (nearest ++ brute_force_candidates n q dimension)))
        as [Hk|Hk]; [|done].
      exfalso. apply Hno. exists n. split_and!; [done|done|]. by intros k' [= <-].
    + unfold FindNearest, bind.
      assert (FindNearest_scan this q nearest range dimension s = Undefined) as ->; [|done].
      unfold FindNearest_scan, bind at 1, deref, of_option. rewrite Hm. simpl.
      apply (for_range_Undefined (λ _ _ s', memory s' = memory s) _ _ (length (index_ n)));
        [lia|done| |].
      * intros i acc s1 Hi Hs1.
        eapply wp_mono;
          [apply (charges_FindNearest_scan_point (λ s', memory s' = memory s) False);
             [congruence|done]
          |by intros ? ? [? _]|done..].
      * intros acc s1 Hs1. unfold bind, UpdateDistances, index_at, bind, deref, of_option.
        destruct diagnostic; simpl; rewrite Hs1, Hm; simpl;
          by rewrite lookup_ge_None_2 by lia.
  - intros msg s' Hrun.
    set (N := match memory s !! this with Some n => num_of_points_ n | None => 0 end).
    assert (HP : has_points this N s).
    { intros n Hn. unfold N. by rewrite Hn. }
    pose proof (charges_FindNearest (has_points this N) False
                  (has_points_memory this _) this _ (λ _ H, H)
                  q nearest range dimension s HP) as Hwp.
    unfold wp in Hwp. by rewrite Hrun in Hwp.
Qed.

Lemma filter_sublist_mono {A : Type} (P Q : A → Prop)
    `{∀ x, Decision (P x)} `{∀ x, Decision (Q x)} (l : list A) :
  (∀ x, P x → Q x) → filter P l `sublist_of` filter Q l.
Proof.
  intros HPQ. induction l as [|x l IH]; [done|].
  rewrite !filter_cons. destruct (decide (P x)) as [HP|HP].
  - rewrite decide_True by auto. by constructor.
  - destruct (decide (Q x)); [by constructor|done].
Qed.

(** X5.  The range search is monotone in the radius: with a larger radius
    [FindNearest] finds every point it finds with a smaller one, in the same
    order, and possibly more in between. *)
Theorem range_search_grows_with_radius this q nearest r r' dimension n s :
  memory s !! this = Some n →
  leaf_ok n →
  Precision_le r r' = true →
  ∃ found found' s1 s2,
    FindNearest this q nearest (Radius r) dimension s = Ok (nearest ++ found) s1
    ∧ FindNearest this q nearest (Radius r') dimension s = Ok (nearest ++ found') s2
    ∧ found `sublist_of` found'.
Proof using Precision_le_trans.
  intros Hn Hok Hr.
  destruct (wp_Ok _ _ _ (FindNearest_range_wp this q nearest r dimension n s Hn Hok))
    as (res & s1 & Hrun & -> & _).
  destruct (wp_Ok _ _ _ (FindNearest_range_wp this q nearest r' dimension n s Hn Hok))
    as (res' & s2 & Hrun' & -> & _).
  eexists _, _, s1, s2. split_and!; [done|done|].
  apply filter_sublist_mono. intros c Hc. by eapply Precision_le_trans.
Qed.

(** X6.  The k-nearest results are nested: on the same leaf and the same list
    passed in, with enough candidates for the larger count, the result for
    [k] is the first [k] entries of the result for any larger count. *)
Theorem knn_results_are_nested this q nearest k k' dimension n s :
  memory s !! this = Some n →
  leaf_ok n →
  k ≤ k' →
  k' ≤ length (nearest ++ brute_force_candidates n q dimension) →
  ∃ res res' s1 s2,
    FindNearest this q nearest (KNearest k) dimension s = Ok res s1
    ∧ FindNearest this q nearest (KNearest k') dimension s = Ok res' s2
    ∧ res = take k res'.
Proof using std_sort_Permutation.
  intros Hn Hok Hk Hk'.
  destruct (FindNearest_knn_Ok this q nearest k dimension n s Hn Hok ltac:(lia))
    as (s1 & Hrun & _).
  destruct (FindNearest_knn_Ok this q nearest k' dimension n s Hn Hok Hk')
    as (s2 & Hrun' & _).
  eexists _, _, s1, s2. split_and!; [done|done|].
  rewrite take_take. f_equal. lia.
Qed.

Lemma exists_farthest (l : list candidate) :
  l ≠ [] → ∃ m, m ∈ l ∧ ∀ a, a ∈ l → Precision_lt m.1 a.1 = false.
Proof using Precision_lt_irrefl Precision_lt_trans.
  induction l as [|x l IH]; [done|]. intros _.
  destruct l as [|y l].
  - exists x. split; [by left|]. intros a ->%list_elem_of_singleton.
    apply Precision_lt_irrefl.
  - destruct IH as (m & Hm & Hmax); [done|].
    destruct (Precision_lt m.1 x.1) eqn:Hmx.
    + exists x. split; [by left|]. intros a [->|Ha]%elem_of_cons.
      * apply Precision_lt_irrefl.
      * destruct (Precision_lt x.1 a.1) eqn:Hxa; [|done].
        by rewrite <-(Hmax a Ha), (Precision_lt_trans _ _ _ Hmx Hxa).
    + exists m. split; [by right|]. intros a [->|Ha]%elem_of_cons; [done|by apply Hmax].
Qed.

(** In a list in which the elements satisfying [D] come first, they are a
    prefix. *)
Lemma filter_prefix {A : Type} (D : A → Prop) `{∀ x, Decision (D x)} (L : list A) :
  (∀ i j x y, i < j → L !! i = Some x → L !! j = Some y → D y → D x) →
  filter D L = take (length (filter D L)) L.
Proof.
  induction L as [|x L IH]; intros Hdown; [done|].
  rewrite filter_cons. destruct (decide (D x)) as [Hx|Hx].
  - simpl. f_equal. apply IH. intros i j a b Hij Ha Hb.
    apply (Hdown (S i) (S j)); [lia|done..].
  - rewrite (filter_none D L); [done|].
    apply Forall_forall. intros y Hy HDy. apply list_elem_of_lookup_1 in Hy as [j Hy].
    apply Hx. by apply (Hdown 0 (S j) x y); [lia|..].
Qed.

(** X7.  A leaf that is too far away leaves the candidates as they are. If the
    list passed to the k-nearest [FindNearest] holds [k] candidates and every
    point of the leaf that the discriminator does not exclude is farther from
    the query point than each of them, the entries returned are the candidates
    passed in, sorted: the leaf contributes nothing. *)
Theorem far_leaf_contributes_nothing this q nearest k dimension n s :
  memory s !! this = Some n →
  leaf_ok n →
  length nearest = k →
  (∀ a c, a ∈ nearest → c ∈ brute_force_candidates n q dimension →
     Precision_lt a.1 c.1 = true) →
  ∃ res s',
    FindNearest this q nearest (KNearest k) dimension s = Ok res s'
    ∧ res ≡ₚ nearest
    ∧ ∀ i j a b, i < j → res !! i = Some a → res !! j = Some b →
        Precision_lt b.1 a.1 = false.
Proof using std_sort_ascending std_sort_Permutation Precision_lt_trans Precision_lt_irrefl Precision_nlt_trans.
  intros Hn Hok Hlen Hfar.
  destruct (FindNearest_knn_Ok this q nearest k dimension n s Hn Hok
              ltac:(rewrite length_app; lia)) as (s' & Hrun & _).
  set (cands := brute_force_candidates n q dimension) in *.
  set (L := std_sort (nearest ++ cands)) in *.
  assert (Hasc : ascending (take k L)).
  { pose proof (std_sort_ascending (nearest ++ cands)) as Hs. fold L in Hs.
    rewrite <-(take_drop k L) in Hs.
    by apply StronglySorted_app in Hs as (_ & Hs & _). }
  exists (take k L), s'. split_and!; [done| |].
  2: { intros i j a b Hij Ha Hb.
       by destruct (ascending_lookup _ i j a b Hasc Hij Ha Hb). }
  destruct (decide (nearest = [])) as [->|Hne].
  { simpl in Hlen. subst k. by rewrite take_0. }
  destruct (exists_farthest nearest Hne) as (m & Hm & Hmax).
  set (D := λ x : candidate, Precision_lt m.1 x.1 = false).
  assert (Hfilter : filter D (nearest ++ cands) = nearest).
  { rewrite filter_app, (filter_all D nearest), (filter_none D cands).
    - apply app_nil_r.
    - apply Forall_forall. intros c Hc. unfold D. by rewrite (Hfar m c Hm Hc).
    - apply Forall_forall. intros a Ha. by apply Hmax. }
  assert (Hperm : filter D L ≡ₚ nearest).
  { unfold L. by rewrite std_sort_Permutation, Hfilter. }
  assert (Hprefix : filter D L = take (length (filter D L)) L).
  { apply filter_prefix. intros i j x y Hij Hx Hy Hy'. unfold D in *.
    destruct (ascending_lookup L i j x y (std_sort_ascending _) Hij Hx Hy) as [Hle _].
    by eapply Precision_nlt_trans. }
  rewrite Hperm in Hprefix at 2. rewrite Hlen in Hprefix.
  by rewrite <-Hprefix.
Qed.

(** X8.  [FindNearest] reports one distance computation for every point of the
    leaf -- it counts before it asks the discriminator, so the points it skips
    are counted too -- and no comparison, in either mode; nothing else of the
    state changes.  The counting is done by the scan, which returns on every
    leaf whose id buffer covers its points; the search itself returns, in
    the state the scan left, in range mode and whenever at least [k]
    candidates exist. *)
Theorem FindNearest_charges_every_point this q nearest range dimension n s :
  memory s !! this = Some n →
  leaf_ok n →
  let counted := set_comp (count_up (num_of_points_ n) 0 (comp s)) s in
  (∃ found, FindNearest_scan this q nearest range dimension s = Ok found counted)
  ∧ ((∀ k, range = KNearest k →
           k ≤ length (nearest ++ brute_force_candidates n q dimension)) →
     ∃ res, FindNearest this q nearest range dimension s = Ok res counted).
Proof using std_sort_Permutation.
  intros Hn Hok counted.
  assert (HP : has_points this (num_of_points_ n) s) by (intros n' Hn'; congruence).
  assert (Hscan : ∃ found, FindNearest_scan this q nearest range dimension s
                           = Ok found counted).
  { destruct (wp_Ok _ _ _ (FindNearest_scan_wp this q nearest range dimension n s Hn Hok))
      as (found & s' & Hrun & _ & Hm & Hf).
    pose proof (charges_FindNearest_scan (has_points this (num_of_points_ n)) False
                  (has_points_memory this _) this _ (λ _ H, H)
                  q nearest range dimension s HP) as H2.
    unfold wp in H2. rewrite Hrun in H2. destruct H2 as [_ Hc].
    exists found. rewrite Hrun. f_equal. by apply State_eq. }
  split; [done|]. intros Henough.
  assert (H1 : ∃ res s', FindNearest this q nearest range dimension s = Ok res s'
                         ∧ same_store s s').
  { destruct range as [r|k].
    - destruct (wp_Ok _ _ _ (FindNearest_range_wp this q nearest r dimension n s Hn Hok))
        as (res & s' & Hrun & _ & Hs'). eauto.
    - destruct (FindNearest_knn_Ok this q nearest k dimension n s Hn Hok
                  (Henough k eq_refl)) as (s' & Hrun & Hs'). eauto. }
  destruct H1 as (res & s' & Hrun & Hm & Hf).
  pose proof (charges_FindNearest (has_points this (num_of_points_ n)) False
                (has_points_memory this _) this _ (λ _ H, H)
                q nearest range dimension s HP) as H2.
  unfold wp in H2. rewrite Hrun in H2. destruct H2 as [_ Hc].
  exists res. rewrite Hrun. f_equal. by apply State_eq.
Qed.

(** ** [FindAllNearest] *)

(** X9.  With a query node that has no points [FindAllNearest] touches
    nothing, not even the leaf: it returns at once, in range mode with the
    radius and in k-nearest mode with the smaller of the incoming bound and
    zero -- the running maximum never left its initial value. *)
Theorem FindAllNearest_on_empty_query_node this qn bound range dimension q s :
  memory s !! qn = Some q →
  num_of_points_ q = 0 →
  FindAllNearest this qn bound range dimension s
  = Ok (match range with
        | Radius r => r
        | KNearest _ => if Precision_lt Precision_zero bound then Precision_zero else bound
        end) s.
Proof.
  intros Hq Hempty. unfold FindAllNearest, bind, deref, of_option.
  rewrite Hq. simpl. rewrite Hempty. simpl.
  destruct range as [r|k]; [done|]. by destruct (Precision_lt Precision_zero bound).
Qed.

(** X10.  In k-nearest mode [FindAllNearest] reads the last of the [k] slots
    of every point of the query node before anything else and checks nothing:
    with a query node that has points, the run is undefined when [k] is 0 (the
    slot read is the one before the buffer) and when the neighbours buffer has
    fewer than [k] slots for each point. *)
Theorem FindAllNearest_knn_needs_k_slots_per_point this qn bound k dimension q s :
  memory s !! qn = Some q →
  0 < num_of_points_ q →
  k = 0 ∨ length (kneighbors_ q) < num_of_points_ q * k →
  FindAllNearest this qn bound (KNearest k) dimension s = Undefined.
Proof.
  intros Hq Hpts Hk. set (L := length (kneighbors_ q)).
  set (N := match memory s !! this with Some n => num_of_points_ n | None => 0 end).
  set (P := λ s', has_points this N s' ∧ has_slots qn (index_ q) L s').
  assert (HP : P s).
  { split.
    - intros n Hn. unfold N. by rewrite Hn.
    - by exists q. }
  unfold FindAllNearest, bind at 1, deref, of_option. rewrite Hq. simpl.
  unfold bind at 1.
  assert (for_range 0 (num_of_points_ q)
            (λ i m, FindAllNearest_knn_point this qn k dimension i m) Precision_zero s
          = Undefined) as ->; [|done].
  apply (for_range_Undefined (λ _ _ s', P s') _ _ (if decide (k = 0) then 0 else L `div` k));
    [|done| |].
  - simpl. split; [lia|]. case_decide; [lia|].
    destruct Hk as [?|Hk]; [done|]. apply Nat.Div0.div_lt_upper_bound. fold L in Hk. lia.
  - intros i m s1 Hi HP1.
    eapply wp_mono;
      [apply (charges_FindAllNearest_knn_point P False) with (this := this) (N := N)
      |by intros ? ? [? _]|done..].
    + intros s2 s2' Hmem [? ?].
      split; [by eapply has_points_memory|by eapply has_slots_memory].
    + by intros s2 [? _].
    + intros p j f. apply charges_and; [apply has_points_assign|apply has_slots_assign].
    + done.
  - intros m s1 [_ (q1 & Hq1 & _ & Hlen1)]. unfold FindAllNearest_knn_point, bind at 1.
    set (i0 := if decide (k = 0) then 0 else L `div` k).
    destruct (i0 * k + k) as [|lst] eqn:Hlst; [done|].
    assert (Hout : L ≤ lst).
    { unfold i0 in Hlst. case_decide; [lia|].
      pose proof (Nat.div_mod_eq L k). pose proof (Nat.mod_upper_bound L k). lia. }
    unfold bind, kneighbors_at, bind, deref, of_option. rewrite Hq1. simpl.
    by rewrite lookup_ge_None_2 by lia.
Qed.

(** X11.  The k-nearest search writes the [distance_] and [nearest_] of the
    [k] slots of each point of the query node and nothing else: the buffer
    keeps its length, every slot keeps its [point_id_], the slots past the
    last point's are as they were, and the range file is not touched. *)
Theorem knn_search_writes_distance_and_neighbour_only
    this qn bound k dimension n q s :
  1 ≤ k →
  memory s !! this = Some n →
  leaf_ok n →
  memory s !! qn = Some q →
  leaf_ok q →
  num_of_points_ q * k ≤ length (kneighbors_ q) →
  ∃ bound' s' q',
    FindAllNearest this qn bound (KNearest k) dimension s = Ok bound' s'
    ∧ memory s' !! qn = Some q'
    ∧ range_nn_fp_ s' = range_nn_fp_ s
    ∧ length (kneighbors_ q') = length (kneighbors_ q)
    ∧ ∀ m slot, kneighbors_ q !! m = Some slot →
        ∃ slot', kneighbors_ q' !! m = Some slot'
                 ∧ point_id_ slot' = point_id_ slot
                 ∧ (num_of_points_ q * k ≤ m → slot' = slot).
Proof using std_sort_Permutation.
  intros Hk Hn Hok Hq Hqok Hlen.
  destruct (wp_Ok _ _ _
              (FindAllNearest_knn_wp this qn bound k dimension n q s Hk Hn Hok Hq Hqok Hlen))
    as (bound' & s' & Hrun & Hmem & Hfile & _).
  eexists bound', s', _. split_and!; [done| |done| |].
  - rewrite Hmem. apply list_lookup_insert_eq. by eapply lookup_lt_Some.
  - simpl. apply knn_buffer_length.
  - simpl. intros m slot Hslot. unfold knn_buffer.
    rewrite list_lookup_imap, Hslot. unfold fmap, option_fmap, option_map.
    case_decide as Hm.
    + destruct (knn_of_point _ _ _ _ _ _ !! _) as [c|].
      * exists (record_candidate c slot). split_and!; [done|done|intros ?; lia].
      * by exists slot.
    + eexists. by split.
Qed.

Lemma seeds_lookup_inv buf i k j c :
  seeds buf i k !! j = Some c →
  j < k ∧ ∃ r, buf !! (i * k + j) = Some r ∧ c = (distance_ r, nearest_ r).
Proof.
  unfold seeds. rewrite list_lookup_fmap.
  destruct (take k (drop (i * k) buf) !! j) as [r|] eqn:Hr; [|done].
  intros [= <-]. apply lookup_take_Some in Hr as [Hr Hj]. rewrite lookup_drop in Hr. eauto.
Qed.

(** Adding candidates to a list in ascending order of distance does not
    increase the distance found at any position after sorting. *)
Lemma sorted_superset_le_dist (A C : list candidate) j a b :
  (∀ m m' x y, m < m' → A !! m = Some x → A !! m' = Some y →
     Precision_lt y.1 x.1 = false) →
  A !! j = Some a →
  std_sort (A ++ C) !! j = Some b →
  Precision_lt a.1 b.1 = false.
Proof using std_sort_ascending std_sort_Permutation Precision_lt_irrefl Precision_nlt_trans.
  intros HA Ha Hb. destruct (Precision_lt a.1 b.1) eqn:Hab; [exfalso|done].
  set (L := std_sort (A ++ C)) in *.
  set (P := λ x : candidate, Precision_lt x.1 b.1 = true).
  assert (Hlow : length (filter P L) ≤ j).
  { rewrite <-(take_drop j L), filter_app, length_app.
    rewrite (filter_none P (drop j L)).
    - simpl. rewrite Nat.add_0_r. etrans; [apply length_filter|]. rewrite length_take. lia.
    - apply Forall_forall. intros x Hx. apply list_elem_of_lookup_1 in Hx as [m Hx].
      rewrite lookup_drop in Hx. unfold P. apply not_true_iff_false.
      destruct m as [|m].
      + rewrite Nat.add_0_r in Hx. assert (x = b) as -> by congruence.
        apply Precision_lt_irrefl.
      + by destruct (ascending_lookup L j (j + S m) b x (std_sort_ascending _)
                       ltac:(lia) Hb Hx). }
  assert (Hhigh : S j ≤ length (filter P (A ++ C))).
  { rewrite filter_app, length_app, <-(take_drop (S j) A), filter_app, length_app.
    rewrite (filter_all P (take (S j) A)).
    - rewrite length_take_le; [lia|]. apply lookup_lt_Some in Ha. lia.
    - apply Forall_forall. intros x Hx. apply elem_of_take in Hx as (m & Hx & Hm).
      unfold P. destruct (decide (m = j)) as [->|Hne].
      + by assert (x = a) as -> by congruence.
      + pose proof (HA m j x a ltac:(lia) Hx Ha) as Hle.
        destruct (Precision_lt x.1 b.1) eqn:Hxb; [done|].
        by rewrite (Precision_nlt_trans _ _ _ Hxb Hle) in Hab. }
  assert (Hperm : length (filter P L) = length (filter P (A ++ C))).
  { unfold L. by rewrite std_sort_Permutation. }
  lia.
Qed.

(** X12.  The k-nearest search leaves the [k] slots of every point of the
    query node in ascending order of distance, so that the last of them holds
    the largest; and if the slots of a point were in ascending order before
    the call, no slot of that point holds a larger distance after it. *)
Theorem knn_search_keeps_slots_sorted this qn bound k dimension n q s :
  1 ≤ k →
  memory s !! this = Some n →
  leaf_ok n →
  memory s !! qn = Some q →
  leaf_ok q →
  num_of_points_ q * k ≤ length (kneighbors_ q) →
  ∃ bound' s' q',
    FindAllNearest this qn bound (KNearest k) dimension s = Ok bound' s'
    ∧ memory s' !! qn = Some q'
    ∧ (∀ i j1 j2 a b, i < num_of_points_ q → j1 < j2 → j2 < k →
         kneighbors_ q' !! (i * k + j1) = Some a →
         kneighbors_ q' !! (i * k + j2) = Some b →
         Precision_lt (distance_ b) (distance_ a) = false)
    ∧ (∀ i, i < num_of_points_ q →
         (∀ j1 j2 a b, j1 < j2 → j2 < k →
            kneighbors_ q !! (i * k + j1) = Some a →
            kneighbors_ q !! (i * k + j2) = Some b →
            Precision_lt (distance_ b) (distance_ a) = false) →
         ∀ j old new, j < k →
           kneighbors_ q !! (i * k + j) = Some old →
           kneighbors_ q' !! (i * k + j) = Some new →
           Precision_lt (distance_ old) (distance_ new) = false).
Proof using std_sort_ascending std_sort_Permutation Precision_lt_irrefl Precision_nlt_trans.
  intros Hk Hn Hok Hq Hqok Hlen.
  destruct (wp_Ok _ _ _
              (FindAllNearest_knn_wp this qn bound k dimension n q s Hk Hn Hok Hq Hqok Hlen))
    as (bound' & s' & Hrun & Hmem & _ & _).
  set (buf := kneighbors_ q) in *.
  set (buf' := knn_buffer n q k dimension (num_of_points_ q) buf) in *.
  eexists bound', s', _. split_and!; [done| | |].
  - rewrite Hmem. apply list_lookup_insert_eq. by eapply lookup_lt_Some.
  - simpl. intros i j1 j2 a b Hi Hj Hj2 Ha Hb.
    assert (Hseeds : seeds buf' i k = knn_of_point n q buf k dimension i)
      by (by apply knn_buffer_seeds_after).
    pose proof (knn_of_point_ascending n q buf k dimension i ltac:(nia)) as Hasc.
    rewrite <-Hseeds in Hasc.
    destruct (ascending_lookup _ j1 j2 (distance_ a, nearest_ a) (distance_ b, nearest_ b)
                Hasc Hj) as [Hle _]; [apply seeds_lookup; [lia|done]..|done].
  - simpl. intros i Hi Hsorted j old new Hj Hold Hnew.
    assert (Hseeds : seeds buf' i k = knn_of_point n q buf k dimension i)
      by (by apply knn_buffer_seeds_after).
    pose proof (seeds_lookup buf' i k j new Hj Hnew) as Hnew'.
    rewrite Hseeds, knn_of_point_keeps_k in Hnew' by nia.
    apply lookup_take_Some in Hnew' as [Hnew' _].
    eapply (sorted_superset_le_dist (seeds buf i k) _ j
              (distance_ old, nearest_ old) (distance_ new, nearest_ new));
      [|by apply seeds_lookup|done].
    intros m m' x y Hm (Hm1 & r1 & Hr1 & ->)%seeds_lookup_inv
      (Hm2 & r2 & Hr2 & ->)%seeds_lookup_inv. simpl.
    exact (Hsorted m m' r1 r2 Hm Hm2 Hr1 Hr2).
Qed.

Lemma ascending_replicate k c : ascending (replicate k c).
Proof using Precision_lt_irrefl.
  unfold ascending. induction k as [|k IH]; simpl; constructor; [done|].
  apply Forall_forall. intros x [-> _]%elem_of_replicate.
  unfold PairComparator. by rewrite Precision_lt_irrefl, Nat.ltb_irrefl.
Qed.

(** X13.  A first k-nearest search finds the true neighbours. If every slot of
    the query node holds the sentinel -- the largest distance and the default
    point, what [FindNearest] itself pads with -- the ids of the leaf are
    distinct and every distance computed is below the sentinel's, then after
    [FindAllNearest] the [k] slots of each point of the query node hold the
    brute-force k nearest of the leaf for that point, in ascending order of
    distance and of id between equal distances, followed by sentinels when the
    leaf has fewer than [k] points to offer. *)
Theorem knn_search_from_sentinels_is_brute_force this qn bound k dimension n q s :
  1 ≤ k →
  memory s !! this = Some n →
  leaf_ok n →
  memory s !! qn = Some q →
  leaf_ok q →
  num_of_points_ q * k ≤ length (kneighbors_ q) →
  NoDup (take (num_of_points_ n) (index_ n)) →
  (∀ m slot, m < num_of_points_ q * k → kneighbors_ q !! m = Some slot →
     (distance_ slot, nearest_ slot) = dummy) →
  (∀ i c, i < num_of_points_ q →
     c ∈ brute_force_candidates n (query_point_at q dimension i) dimension →
     Precision_lt c.1 Precision_max = true) →
  ∃ bound' s' q',
    FindAllNearest this qn bound (KNearest k) dimension s = Ok bound' s'
    ∧ memory s' !! qn = Some q'
    ∧ ∀ i, i < num_of_points_ q →
        let found := brute_force_knn n (query_point_at q dimension i) k dimension in
        seeds (kneighbors_ q') i k = found ++ replicate (k - length found) dummy.
Proof using std_sort_ascending std_sort_Permutation Precision_lt_trans Precision_lt_irrefl Precision_nlt_trans.
  intros Hk Hn Hok Hq Hqok Hlen Hnd Hsentinel Hbelow.
  destruct (wp_Ok _ _ _
              (FindAllNearest_knn_wp this qn bound k dimension n q s Hk Hn Hok Hq Hqok Hlen))
    as (bound' & s' & Hrun & Hmem & _ & _).
  set (buf := kneighbors_ q) in *.
  eexists bound', s', _. split_and!; [done| |].
  { rewrite Hmem. apply list_lookup_insert_eq. by eapply lookup_lt_Some. }
  simpl. intros i Hi.
  set (cands := brute_force_candidates n (query_point_at q dimension i) dimension).
  assert (Hik : i * k + k ≤ num_of_points_ q * k) by nia.
  assert (Hik' : i * k + k ≤ length buf) by lia.
  rewrite knn_buffer_seeds_after, knn_of_point_keeps_k by done. fold cands.
  assert (Hseeds : seeds buf i k = replicate k dummy).
  { apply list_eq. intros j. destruct (decide (j < k)) as [Hj|Hj].
    - destruct (lookup_lt_is_Some_2 buf (i * k + j)) as [r Hr]; [lia|].
      rewrite (seeds_lookup _ _ _ _ _ Hj Hr), (Hsentinel (i * k + j) r) by (done || lia).
      symmetry. by apply lookup_replicate_2.
    - rewrite !lookup_ge_None_2; [done|rewrite length_replicate; lia|].
      rewrite seeds_length by done. lia. }
  assert (Hsorted : std_sort (replicate k dummy ++ cands)
                    = insertion_sort PairComparator cands ++ replicate k dummy).
  { apply (StronglySorted_unique_strong (λ a b, PairComparator b a = false)).
    - intros a b Ha Hb Hab Hba.
      rewrite std_sort_Permutation in Ha. rewrite insertion_sort_Permutation in Hb.
      apply elem_of_app in Ha as [[-> _]%elem_of_replicate|Ha];
        apply elem_of_app in Hb as [Hb|[-> _]%elem_of_replicate].
      + exfalso. unfold PairComparator in Hab. simpl in Hab.
        by rewrite (Hbelow i b Hi Hb) in Hab.
      + done.
      + by eapply brute_force_candidates_separated.
      + exfalso. unfold PairComparator in Hba. simpl in Hba.
        by rewrite (Hbelow i a Hi Ha) in Hba.
    - apply std_sort_ascending.
    - apply StronglySorted_app_2; [|apply insertion_sort_ascending|apply ascending_replicate].
      intros a b Ha [-> _]%elem_of_replicate. rewrite insertion_sort_Permutation in Ha.
      pose proof (Hbelow i a Hi Ha) as Hlt. unfold PairComparator. simpl.
      by rewrite (Precision_lt_asym _ _ Hlt), Hlt.
    - rewrite std_sort_Permutation, insertion_sort_Permutation. apply Permutation_app_comm. }
  rewrite Hseeds, Hsorted. unfold brute_force_knn. fold cands.
  rewrite take_app, take_replicate, length_take. f_equal. f_equal. lia.
Qed.

Lemma FindAllNearest_charges_wp (F : Prop) this qn bound range dimension n q s :
  (isStdFloat range = true → F) →
  memory s !! this = Some n →
  memory s !! qn = Some q →
  wp (FindAllNearest this qn bound range dimension)
     (λ _ s', comp s' = count_up (num_of_points_ q * num_of_points_ n)
                          (if isStdFloat range then 0 else num_of_points_ q) (comp s))
     (λ _ _, F) True s.
Proof.
  intros HF Hn Hq. set (N := num_of_points_ n). set (P := has_points this N).
  assert (HP : P s) by (intros n' Hn'; unfold N; congruence).
  assert (HPm : ∀ s s', memory s' = memory s → P s → P s')
    by apply has_points_memory.
  unfold FindAllNearest. apply wp_bind, wp_deref. rewrite Hq.
  eapply (wp_mono _ (λ _ s', P s' ∧ comp s' = count_up (num_of_points_ q * N)
                       (if isStdFloat range then 0 else num_of_points_ q) (comp s))
            _ (λ _ _, F) _ True); [|by intros ? ? [_ ?]|done..].
  match goal with
  | |- wp ?c _ _ _ _ =>
      assert (Hch : charges P F c (num_of_points_ q * N)
                      (if isStdFloat range then 0 else num_of_points_ q));
        [|exact (Hch s HP)]
  end.
  destruct range as [r|k]; simpl.
  - apply charges_then_free; [|intros m; apply charges_ret].
    eapply charges_eq; [apply (charges_for_range P F _ _ N 0)|lia..].
    intros i m. apply charges_then_free; [|intros _; apply charges_ret].
    apply charges_FindAllNearest_range_point; [done|by intros ? ?|by apply HF].
  - apply charges_then_free.
    2: { intros m. destruct (Precision_lt m bound); apply charges_ret. }
    eapply charges_eq; [apply (charges_for_range P F _ _ N 1)|lia..].
    intros i m. apply charges_FindAllNearest_knn_point; [done|by intros ? ?|].
    apply has_points_assign.
Qed.

(** X14.  [FindAllNearest] searches the leaf once for every point of the query
    node: a run that returns has reported as many distance computations as
    there are pairs of a query point and a leaf point, and in k-nearest mode
    one comparison for each query point. *)
Theorem FindAllNearest_charges_all_pairs this qn bound range dimension n q s :
  memory s !! this = Some n →
  leaf_ok n →
  memory s !! qn = Some q →
  leaf_ok q →
  match range with
  | KNearest k => 1 ≤ k ∧ num_of_points_ q * k ≤ length (kneighbors_ q)
  | Radius r =>
      length (range_records n q r dimension (num_of_points_ q)) ≤ room (range_nn_fp_ s)
  end →
  ∃ bound' s',
    FindAllNearest this qn bound range dimension s = Ok bound' s'
    ∧ comp s' = count_up (num_of_points_ q * num_of_points_ n)
                  (if isStdFloat range then 0 else num_of_points_ q) (comp s).
Proof using std_sort_Permutation.
  intros Hn Hok Hq Hqok Hrange.
  pose proof (FindAllNearest_charges_wp True this qn bound range dimension n q s
                (λ _, I) Hn Hq) as Hc.
  destruct range as [r|k].
  - pose proof (FindAllNearest_range_wp this qn bound r dimension n q s Hn Hok Hq Hqok) as Hw.
    unfold wp in Hc, Hw.
    destruct (FindAllNearest this qn bound (Radius r) dimension s) as [b s'|msg s'|];
      [by eauto| |done].
    destruct Hw as (_ & _ & _ & Hfull). lia.
  - destruct Hrange as [Hk Hlen].
    pose proof (FindAllNearest_knn_wp this qn bound k dimension n q s
                  Hk Hn Hok Hq Hqok Hlen) as Hw.
    unfold wp in Hc, Hw.
    destruct (FindAllNearest this qn bound (KNearest k) dimension s) as [b s'|msg s'|];
      [by eauto|done..].
Qed.

(** ** [InitKNeighbors] *)

(** X15.  [InitKNeighbors] writes slot [i * knns + j] for every point [i] and
    every [j] below [knns] and checks nothing: on a neighbours buffer with
    fewer than [num_of_points_ * knns] slots the run is undefined. *)
Theorem InitKNeighbors_needs_k_slots_per_point this knns n s :
  memory s !! this = Some n →
  length (kneighbors_ n) < num_of_points_ n * knns →
  InitKNeighbors this knns s = Undefined.
Proof.
  intros Hn Hshort. set (L := length (kneighbors_ n)).
  set (P := has_slots this (index_ n) L).
  assert (HP : P s) by by exists n.
  assert (Hknns : 0 < knns) by nia.
  unfold InitKNeighbors, bind at 1, deref, of_option. rewrite Hn. simpl.
  apply (for_range_Undefined (λ _ _ s', P s') _ _ (L `div` knns)); [|done| |].
  - simpl. split; [lia|]. apply Nat.Div0.div_lt_upper_bound. fold L in Hshort. lia.
  - intros i [] s1 Hi HP1.
    eapply (wp_mono _ _ _ (λ _ _, False) _ True);
      [apply (wp_for_range (λ _ _ s', P s'))| |done..]; [done| |done].
    intros j [] s2 Hj HP2. by apply InitKNeighbors_slot_wp.
  - intros [] s1 HP1.
    apply (for_range_Undefined (λ _ _ s', P s') _ _ (L `mod` knns)); [|done| |].
    + simpl. split; [lia|]. apply Nat.mod_upper_bound. lia.
    + intros j [] s2 Hj HP2. by apply InitKNeighbors_slot_wp.
    + intros [] s2 (n2 & Hn2 & _ & Hlen2).
      unfold bind, index_at, bind, deref, of_option. rewrite Hn2. simpl.
      destruct (index_ n2 !! (L `div` knns)); simpl; [|done].
      unfold kneighbors_assign, bind, deref, of_option. rewrite Hn2. simpl.
      pose proof (Nat.div_mod_eq L knns).
      by rewrite lookup_ge_None_2 by lia.
Qed.

Lemma primed_upto_lookup n knns i j slot :
  i < num_of_points_ n → j < knns →
  kneighbors_ n !! (i * knns + j) = Some slot →
  primed_upto n knns (num_of_points_ n * knns) !! (i * knns + j)
  = Some (set_point_id (index_ n !!! i) slot).
Proof.
  intros Hi Hj Hslot. unfold primed_upto.
  rewrite list_lookup_imap, Hslot. unfold fmap, option_fmap, option_map.
  rewrite decide_True by nia. do 2 f_equal.
  assert ((i * knns + j) `div` knns = i) as ->; [|done].
  symmetry. apply (Nat.div_unique _ knns i j); lia.
Qed.

(** X16.  [InitKNeighbors] is idempotent: a second call with the same count
    leaves the state exactly as the first left it. *)
Theorem InitKNeighbors_twice_is_once this knns n s :
  memory s !! this = Some n →
  leaf_ok n →
  num_of_points_ n * knns ≤ length (kneighbors_ n) →
  ∃ s1, InitKNeighbors this knns s = Ok tt s1 ∧ InitKNeighbors this knns s1 = Ok tt s1.
Proof.
  intros Hn Hok Hlen.
  assert (Hthis : this < length (memory s)) by by eapply lookup_lt_Some.
  destruct (wp_Ok _ _ _ (InitKNeighbors_wp this knns n s Hn Hok Hlen)) as ([] & s1 & Hrun & ->).
  set (buf1 := primed_upto n knns (num_of_points_ n * knns)) in *.
  set (n1 := set_kneighbors buf1 n).
  set (s1 := set_memory (<[this := n1]> (memory s)) s) in *.
  assert (Hn1 : memory s1 !! this = Some n1) by (simpl; by apply list_lookup_insert_eq).
  assert (Hlen1 : num_of_points_ n1 * knns ≤ length (kneighbors_ n1)).
  { simpl. unfold buf1. by rewrite primed_upto_length. }
  destruct (wp_Ok _ _ _ (InitKNeighbors_wp this knns n1 s1 Hn1 Hok Hlen1))
    as ([] & s2 & Hrun2 & ->).
  exists s1. split; [done|]. rewrite Hrun2. f_equal.
  assert (Hsame : primed_upto n1 knns (num_of_points_ n1 * knns) = buf1).
  { apply list_eq. intros m. unfold primed_upto at 1. simpl.
    rewrite list_lookup_imap. destruct (buf1 !! m) as [r1|] eqn:Hr1; [|done].
    unfold fmap, option_fmap, option_map. f_equal.
    case_decide as Hm; [|done].
    unfold buf1, primed_upto in Hr1. rewrite list_lookup_imap in Hr1.
    destruct (kneighbors_ n !! m) as [r|]; [|done].
    unfold fmap, option_fmap, option_map in Hr1.
    rewrite decide_True in Hr1 by done. injection Hr1 as <-. done. }
  rewrite Hsame. unfold s1, set_memory. simpl. f_equal.
  by rewrite list_insert_insert_eq.
Qed.

(** X17.  The k-nearest search never writes the [point_id_] of a slot. So the
    ids that [InitKNeighbors] leaves in the slots of the query node survive
    [FindAllNearest]: after the two calls, each of the [k] slots of point [i]
    still carries the dataset id of point [i], and the buffer has the length
    it had. *)
Theorem InitKNeighbors_then_search_keeps_point_ids this qn bound k dimension n q s :
  1 ≤ k →
  memory s !! this = Some n →
  leaf_ok n →
  memory s !! qn = Some q →
  leaf_ok q →
  num_of_points_ q * k ≤ length (kneighbors_ q) →
  ∃ s0 bound' s' q',
    InitKNeighbors qn k s = Ok tt s0
    ∧ FindAllNearest this qn bound (KNearest k) dimension s0 = Ok bound' s'
    ∧ memory s' !! qn = Some q'
    ∧ length (kneighbors_ q') = length (kneighbors_ q)
    ∧ ∀ i j, i < num_of_points_ q → j < k →
        ∃ slot, kneighbors_ q' !! (i * k + j) = Some slot
                ∧ point_id_ slot = index_ q !!! i.
Proof using std_sort_Permutation.
  intros Hk Hn Hok Hq Hqok Hlen.
  assert (Hqn : qn < length (memory s)) by by eapply lookup_lt_Some.
  destruct (wp_Ok _ _ _ (InitKNeighbors_wp qn k q s Hq Hqok Hlen)) as ([] & s0 & Hinit & ->).
  set (buf0 := primed_upto q k (num_of_points_ q * k)) in *.
  set (q0 := set_kneighbors buf0 q).
  set (s0 := set_memory (<[qn := q0]> (memory s)) s) in *.
  destruct (lookup_this_after s this qn n q buf0 Hn Hq) as [b' Hthis].
  assert (Hn0 : memory s0 !! this = Some (set_kneighbors b' n)) by exact Hthis.
  assert (Hq0 : memory s0 !! qn = Some q0) by (simpl; by apply list_lookup_insert_eq).
  assert (Hlen0 : num_of_points_ q0 * k ≤ length (kneighbors_ q0)).
  { simpl. unfold buf0. by rewrite primed_upto_length. }
  destruct (wp_Ok _ _ _
              (FindAllNearest_knn_wp this qn bound k dimension (set_kneighbors b' n) q0 s0
                 Hk Hn0 Hok Hq0 Hqok Hlen0))
    as (bound' & s' & Hrun & Hmem & _ & _).
  eexists s0, bound', s', _. split_and!; [done|done| | |].
  - rewrite Hmem. apply list_lookup_insert_eq. simpl. by rewrite length_insert.
  - simpl. unfold buf0. by rewrite knn_buffer_length, primed_upto_length.
  - intros i j Hi Hj. simpl.
    destruct (lookup_lt_is_Some_2 (kneighbors_ q) (i * k + j)) as [r Hr]; [nia|].
    destruct (lookup_lt_is_Some_2
                (knn_of_point (set_kneighbors b' n) q0 buf0 k dimension i) j) as [c Hc].
    { rewrite knn_of_point_length; [done|]. unfold buf0. rewrite primed_upto_length. nia. }
    eexists. split.
    + apply knn_buffer_lookup; [done|done| |done].
      unfold buf0. by apply primed_upto_lookup.
    + done.
Qed.

(** ** [Print] *)

Lemma append_assoc (a b c : string) : (a +:+ b) +:+ c = a +:+ (b +:+ c).
Proof.
  induction a as [|x a IH]; [done|].
  change (String x ((a +:+ b) +:+ c) = String x (a +:+ (b +:+ c))). by rewrite IH.
Qed.

Lemma append_nil_r (a : string) : a +:+ "" = a.
Proof.
  induction a as [|x a IH]; [done|].
  change (String x (a +:+ "") = String x a). by rewrite IH.
Qed.

Lemma joined_snoc l x : joined (l ++ [x]) = joined l +:+ x.
Proof.
  unfold joined. induction l as [|y l IH]; simpl.
  - by rewrite append_nil_r.
  - by rewrite IH, append_assoc.
Qed.

Lemma Print_point_wp this dimension n i str s :
  memory s !! this = Some n →
  leaf_ok n →
  num_of_points_ n * dimension ≤ length (points_ n) →
  i < num_of_points_ n →
  wp (str <- for_range 0 dimension (λ j str,
               x <- points_at this (i * dimension + j) ;;
               ret (str +:+ sprintf_lg x +:+ " "%string)) str ;;
      id <- index_at this i ;;
      ret (str +:+ "-"%string +:+ pretty id +:+ " "%string +:+ newline))
     (λ str' s', str' = str +:+ Print_point n dimension i ∧ s' = s)
     (λ _ _, False) False s.
Proof.
  intros Hn Hok Hpts Hi. set (coords := drop (i * dimension) (points_ n)).
  set (f := λ x, sprintf_lg x +:+ " "%string).
  apply wp_bind.
  eapply (wp_mono _ _ _ (λ _ _, False) _ False);
    [apply (wp_for_range (λ j str' s',
       str' = str +:+ joined (f <$> take j coords) ∧ s' = s))
    | | done | done].
  - by rewrite take_0, fmap_nil, append_nil_r.
  - intros j str' s' Hj [-> ->].
    destruct (lookup_lt_is_Some_2 (points_ n) (i * dimension + j)) as [x Hx]; [nia|].
    apply wp_bind. eapply wp_points_at; [done|]. rewrite Hx. apply wp_ret. split; [|done].
    assert (Hc : coords !! j = Some x) by (unfold coords; by rewrite lookup_drop).
    rewrite (take_S_r _ _ _ Hc), fmap_app. change (f <$> [x]) with [f x].
    by rewrite joined_snoc, append_assoc.
  - simpl. intros str' s' [-> ->].
    destruct (lookup_lt_is_Some_2 (index_ n) i) as [id Hid];
      [unfold leaf_ok in Hok; lia|].
    apply wp_bind. eapply wp_index_at; [done|]. rewrite Hid. apply wp_ret. split; [|done].
    unfold Print_point. fold coords.
    by rewrite (list_lookup_total_correct _ _ _ Hid), append_assoc.
Qed.

(** X18.  [Print] of an internal node writes the heading -- the kind and id of
    the node, its box, its point count -- and reads neither the point buffer
    nor the id buffer; [Print] of a leaf follows the heading by one line for
    each of its points, in slot order, giving the [dimension] coordinates of
    the point and its id. *)
Theorem Print_writes_heading_and_points this dimension n s :
  memory s !! this = Some n →
  (IsLeaf n = false → Print this dimension s = Ok (Print_heading n dimension) s)
  ∧ (IsLeaf n = true →
     leaf_ok n →
     num_of_points_ n * dimension ≤ length (points_ n) →
     Print this dimension s
     = Ok (Print_heading n dimension
           +:+ joined (Print_point n dimension <$> seq 0 (num_of_points_ n))) s).
Proof.
  intros Hn.
  assert (Hhead : ∀ a b c d e,
            (((""%string +:+ a +:+ b +:+ newline) +:+ c) +:+ d) +:+ e +:+ newline
            = a +:+ b +:+ newline +:+ c +:+ d +:+ e +:+ newline).
  { intros. by rewrite !append_assoc. }
  split.
  - intros Hleaf. unfold Print, bind, deref, of_option. rewrite Hn. simpl.
    rewrite Hleaf. unfold ret, Print_heading. by rewrite Hleaf, Hhead.
  - intros Hleaf Hok Hpts.
    assert (Hrun : wp (Print this dimension)
                      (λ str s', str = Print_heading n dimension
                                       +:+ joined (Print_point n dimension
                                                     <$> seq 0 (num_of_points_ n))
                                 ∧ s' = s)
                      (λ _ _, False) False s).
    { unfold Print. apply wp_bind, wp_deref. rewrite Hn, Hleaf, Hhead.
      eapply (wp_mono _ _ _ (λ _ _, False) _ False);
        [apply (wp_for_range (λ i str s',
           str = Print_heading n dimension
                 +:+ joined (Print_point n dimension <$> seq 0 i) ∧ s' = s))
        | | done | done].
      - change (joined (Print_point n dimension <$> seq 0 0)) with ""%string.
        unfold Print_heading. by rewrite Hleaf, append_nil_r.
      - intros i str s' Hi [-> ->].
        eapply wp_mono; [apply (Print_point_wp this dimension n i); [done..|lia]| |done..].
        intros str' s' [-> ->]. split; [|done].
        rewrite seq_S, fmap_app.
        change (Print_point n dimension <$> [0 + i]) with [Print_point n dimension i].
        by rewrite joined_snoc, append_assoc.
      - done. }
    destruct (wp_Ok _ _ _ Hrun) as (str & s' & -> & -> & ->). done.
Qed.

End NodeImpl.

Arguments Ok {Precision_t BoundingBox_t NodeCachedStatistics_t A} a s.
Arguments Fatal {Precision_t BoundingBox_t NodeCachedStatistics_t A} msg s.
Arguments Undefined {Precision_t BoundingBox_t NodeCachedStatistics_t A}.
Arguments returned {Precision_t BoundingBox_t NodeCachedStatistics_t A} o.
Arguments state_after {Precision_t BoundingBox_t NodeCachedStatistics_t A} o.
Arguments p_ {Precision_t} p.
Arguments id_ {Precision_t} p.
Arguments point_id_ {Precision_t} n.
Arguments nearest_ {Precision_t} n.
Arguments distance_ {Precision_t} n.
Arguments Radius {Precision_t} r.
Arguments KNearest {Precision_t} k.
Arguments memory {Precision_t BoundingBox_t NodeCachedStatistics_t} s.
Arguments range_nn_fp_ {Precision_t BoundingBox_t NodeCachedStatistics_t} s.
Arguments points_ {Precision_t BoundingBox_t NodeCachedStatistics_t} n.
Arguments index_ {Precision_t BoundingBox_t NodeCachedStatistics_t} n.
Arguments kneighbors_ {Precision_t BoundingBox_t NodeCachedStatistics_t} n.
Arguments num_of_points_ {Precision_t BoundingBox_t NodeCachedStatistics_t} n.
Arguments written {Precision_t} f.
Arguments room {Precision_t} f.
Arguments io_errno {Precision_t} f.
Arguments refused {Precision_t} f.
Arguments leaf_ok {Precision_t BoundingBox_t NodeCachedStatistics_t} n.
Arguments same_store {Precision_t BoundingBox_t NodeCachedStatistics_t} s s'.
Arguments seeds {Precision_t} buf i k.
Arguments set_kneighbors {Precision_t BoundingBox_t NodeCachedStatistics_t} buf n.
Arguments set_point_id {Precision_t} id r.
Arguments set_memory {Precision_t BoundingBox_t NodeCachedStatistics_t} m s.
Arguments erase_from {Precision_t} it nearest.
Arguments range_record {Precision_t} id c.
Arguments query_point_at {Precision_t BoundingBox_t NodeCachedStatistics_t} q dimension i.
Arguments leaf_points {Precision_t BoundingBox_t NodeCachedStatistics_t} n dimension.

(** * Concrete runs

    The index of the specification's scenario: four points (0,0), (1,0),
    (0,1), (5,5) with ids 0 to 3 in one leaf, integer coordinates, squared
    Euclidean distance, a discriminator that compares ids, straight
    insertion as the sort. *)


Definition Z_max : Z := 9223372036854775807%Z.

Definition Z_default : Point_t Z := {| p_ := []; id_ := 0 |}.

Fixpoint squared_distance (a b : list Z) : Z :=
  match a, b with
  | x :: a', y :: b' => ((x - y) * (x - y) + squared_distance a' b')%Z
  | _, _ => 0%Z
  end.

Definition Z_Distance (q : Point_t Z) (coordinates : list Z) (dimension : nat) : Z :=
  squared_distance (take dimension (p_ q)) (take dimension coordinates).

Definition Z_sort : list (Z * Point_t Z) → list (Z * Point_t Z) :=
  insertion_sort (PairComparator Z Z.ltb).

Definition Z_strerror (e : nat) : string := "errno " +:+ pretty e.

Definition Z_box_Print (box : unit) (dimension : nat) : string := "".

Definition four_points : BinaryDataset Z :=
  {| At := λ i j, nth (i * 2 + j) [0; 0; 1; 0; 0; 1; 5; 5]%Z 0%Z;
     dataset_get_id := λ i, i |}.

(** The leaf as the constructor and [Init] leave it: no neighbours buffer. *)
Definition fresh_leaf : Node Z unit unit :=
  Init_leaf Z unit unit tt tt 7 0 4 2 four_points (Node_new Z Z_max unit unit tt tt 0 0).

Definition empty_slot : NNResult Z :=
  {| point_id_ := 0; nearest_ := Z_default; distance_ := Z_max |}.

(** The leaf with a neighbours buffer of [slots] empty slots. *)
Definition leaf_with (slots : nat) : Node Z unit unit :=
  set_kneighbors (replicate slots empty_slot) fresh_leaf.

Definition no_space_file : FILE Z :=
  {| written := []; room := 2; io_errno := 28; refused := 0 |}.

Definition roomy_file : FILE Z :=
  {| written := []; room := 100; io_errno := 28; refused := 0 |}.

Definition state_with (leaf : Node Z unit unit) (file : FILE Z) : State Z unit unit :=
  {| memory := [leaf]; range_nn_fp_ := file;
     comp := {| distances := 0; comparisons := 0 |} |}.

Definition origin : Point_t Z := {| p_ := [0; 0]%Z; id_ := 0 |}.

Abbreviation Z_FindNearest_scan :=
  (FindNearest_scan Z Z.leb unit unit true Z_Distance Nat.eqb).
Abbreviation Z_FindNearest :=
  (FindNearest Z Z.leb Z_max unit unit true Z_default Z_Distance Nat.eqb Z_sort).
Abbreviation Z_FindAllNearest :=
  (FindAllNearest Z Z.ltb Z.leb 0%Z Z_max unit unit true Z_default Z_Distance Nat.eqb
     Z_strerror Z_sort).
Abbreviation Z_InitKNeighbors := (InitKNeighbors Z unit unit).
Abbreviation Z_Print := (Print Z unit unit Z_box_Print pretty).
Abbreviation Z_candidates := (brute_force_candidates Z unit unit Z_Distance Nat.eqb).
Abbreviation Z_range := (brute_force_range Z Z.leb unit unit Z_Distance Nat.eqb).
Abbreviation Z_knn := (brute_force_knn Z Z.ltb unit unit Z_Distance Nat.eqb).
Abbreviation Z_dummy := (dummy Z Z_max Z_default).
Abbreviation Z_trim_boundary := (trim_boundary Z unit unit).

Lemma Z_sort_Permutation l : Z_sort l ≡ₚ l.
Proof. apply insertion_sort_Permutation. Qed.

Lemma Z_ltb_irrefl (a : Z) : (a <? a)%Z = false.
Proof. apply Z.ltb_irrefl. Qed.

Lemma Z_ltb_trans (a b c : Z) : (a <? b)%Z = true → (b <? c)%Z = true → (a <? c)%Z = true.
Proof. rewrite !Z.ltb_lt. lia. Qed.

Lemma Z_nlt_trans (a b c : Z) : (b <? a)%Z = false → (c <? b)%Z = false → (c <? a)%Z = false.
Proof. rewrite !Z.ltb_ge. lia. Qed.

Lemma Z_leb_trans (a b c : Z) : (a <=? b)%Z = true → (b <=? c)%Z = true → (a <=? c)%Z = true.
Proof. rewrite !Z.leb_le. lia. Qed.

Lemma Z_sort_ascending l : ascending Z Z.ltb (Z_sort l).
Proof. apply insertion_sort_ascending; [apply Z_ltb_irrefl|apply Z_ltb_trans|apply Z_nlt_trans]. Qed.

Lemma fresh_leaf_ok : leaf_ok fresh_leaf.
Proof. unfold leaf_ok. simpl. lia. Qed.

Lemma leaf_with_ok slots : leaf_ok (leaf_with slots).
Proof. unfold leaf_ok. simpl. lia. Qed.

Abbreviation Z_with_distance := (with_distance Z Z_Distance).
Abbreviation Z_records := (range_records Z Z.leb unit unit Z_Distance Nat.eqb).
Abbreviation Z_kth_smallest := (kth_smallest_distance Z Z.ltb).
Abbreviation Z_write_error := (write_error Z_strerror).

(** The leaf in use: eight slots, two for each of its four points. *)
Definition searching : State Z unit unit := state_with (leaf_with 8) no_space_file.

(** A candidate from another leaf, at distance zero from the origin. *)
Definition elsewhere : Z * Point_t Z := (0%Z, {| p_ := [0; 0]%Z; id_ := 9 |}).

(** The distance and neighbour id in each slot of the leaf after a run. *)
Definition slots_after {A : Type} (o : outcome Z unit unit A) : option (list (Z * index_t)) :=
  match state_after o with
  | Some s => (λ n, (λ r, (distance_ r, id_ (nearest_ r))) <$> kneighbors_ n) <$> memory s !! 0
  | None => None
  end.

Definition first_run : outcome Z unit unit Z :=
  Z_FindAllNearest 0 0 Z_max (KNearest 2) 2 searching.

Definition second_run : outcome Z unit unit Z :=
  match state_after first_run with
  | Some s1 => Z_FindAllNearest 0 0 Z_max (KNearest 2) 2 s1
  | None => Undefined
  end.

(** The scenario of the specification: the two nearest of the origin are the
    points with ids 1 and 2, both at distance 1, in that order. *)
Example FindNearest_scenario :
  returned (Z_FindNearest 0 origin [] (KNearest 2) 2 (state_with fresh_leaf no_space_file))
  = Some [(1%Z, {| p_ := [1; 0]%Z; id_ := 1 |}); (1%Z, {| p_ := [0; 1]%Z; id_ := 2 |})].
Proof. reflexivity. Qed.

Lemma FindNearest_knn_first_k_ascending_witness :
  ∃ s' kept dropped,
    Z_FindNearest 0 origin [] (KNearest 2) 2 (state_with fresh_leaf no_space_file)
    = Ok kept s'
    ∧ kept ++ dropped ≡ₚ [] ++ Z_candidates fresh_leaf origin 2
    ∧ length kept = 2
    ∧ (∀ (i j : nat) (a b : Z * Point_t Z),
         i < j →
         (kept ++ dropped) !! i = Some a → (kept ++ dropped) !! j = Some b →
         (b.1 <? a.1)%Z = false ∧ ((a.1 <? b.1)%Z = false → id_ a.2 ≤ id_ b.2))
    ∧ (@nil (Z * Point_t Z) = [] →
       NoDup (take (num_of_points_ fresh_leaf) (index_ fresh_leaf)) →
       kept = Z_knn fresh_leaf origin 2 2).
Proof.
  apply (FindNearest_knn_first_k_ascending Z Z.ltb Z.leb Z_max unit unit true Z_default
           Z_Distance Nat.eqb Z_sort Z_sort_Permutation Z_sort_ascending
           Z_ltb_irrefl Z_ltb_trans Z_nlt_trans 0 origin [] 2 2 fresh_leaf).
  - reflexivity.
  - exact fresh_leaf_ok.
  - vm_compute. lia.
Defined.

(** C1 fails as stated: passed a list that already holds a candidate, the
    search returns that candidate, which is no point of the leaf, and not
    the brute-force nearest. *)
Lemma FindNearest_knn_is_not_the_leaf_scan :
  returned (Z_FindNearest 0 origin [elsewhere] (KNearest 1) 2
              (state_with fresh_leaf no_space_file))
  = Some [elsewhere]
  ∧ Z_knn fresh_leaf origin 1 2 = [(1%Z, {| p_ := [1; 0]%Z; id_ := 1 |})]
  ∧ returned (Z_FindNearest 0 origin [elsewhere] (KNearest 1) 2
                (state_with fresh_leaf no_space_file))
    ≠ Some (Z_knn fresh_leaf origin 1 2).
Proof. split_and!; vm_compute; [reflexivity|reflexivity|discriminate]. Qed.

(** C10.  The code at the failing input: an empty list passed in, a leaf
    with three non-excluded points and k = 5.  The scan leaves three
    candidates; the loop that finds the trim boundary then steps the
    iterator past the end of the three, before the size of the list is
    looked at, and the run is undefined.  Three steps stay within the
    list. *)
Theorem trim_boundary_past_the_end :
  ∃ s' candidates,
    Z_FindNearest_scan 0 origin [] (KNearest 5) 2 (state_with fresh_leaf no_space_file)
    = Ok candidates s'
    ∧ length candidates = 3
    ∧ Z_trim_boundary candidates 3 s' = Ok 3 s'
    ∧ Z_trim_boundary candidates 5 s' = Undefined
    ∧ Z_FindNearest 0 origin [] (KNearest 5) 2 (state_with fresh_leaf no_space_file)
      = Undefined.
Proof. do 2 eexists. split_and!; reflexivity. Qed.

Lemma range_search_witness :
  (∃ s', Z_FindNearest 0 origin [] (Radius 1%Z) 2 (state_with fresh_leaf roomy_file)
         = Ok ([] ++ Z_range fresh_leaf origin 1%Z 2) s'
         ∧ same_store (state_with fresh_leaf roomy_file) s')
  ∧ Z_range fresh_leaf origin 1%Z 2
      `sublist_of` Z_with_distance origin 2 (leaf_points fresh_leaf 2)
  ∧ (∀ c : Z * Point_t Z,
       c ∈ Z_range fresh_leaf origin 1%Z 2
       ↔ c ∈ Z_with_distance origin 2 (leaf_points fresh_leaf 2)
         ∧ (id_ c.2 =? get_id Z origin) = false
         ∧ (c.1 <=? 1)%Z = true)
  ∧ (∃ s', Z_FindAllNearest 0 0 Z_max (Radius 1%Z) 2 (state_with fresh_leaf roomy_file)
           = Ok 1%Z s'
           ∧ written (range_nn_fp_ s')
             = written (range_nn_fp_ (state_with fresh_leaf roomy_file))
               ++ flat_map (λ i, range_record (index_ fresh_leaf !!! i)
                                   <$> Z_range fresh_leaf (query_point_at fresh_leaf 2 i) 1%Z 2)
                           (seq 0 (num_of_points_ fresh_leaf))).
Proof.
  destruct (range_search_collects_exactly_points_within_radius Z Z.ltb Z.leb 0%Z Z_max unit unit
              true Z_default Z_Distance Nat.eqb Z_strerror Z_sort
              0 0 origin [] Z_max 1%Z 2 fresh_leaf fresh_leaf
              (state_with fresh_leaf roomy_file)
              eq_refl fresh_leaf_ok eq_refl fresh_leaf_ok) as (H1 & H2 & H3 & H4).
  split_and!; [exact H1|exact H2|exact H3|].
  apply H4. vm_compute. lia.
Defined.

(** The written records of the run above: the neighbours within squared
    distance 1 of each point in turn. *)
Example range_search_scenario :
  (λ s, (λ r, (point_id_ r, id_ (nearest_ r), distance_ r)) <$> written (range_nn_fp_ s))
    <$> state_after (Z_FindAllNearest 0 0 Z_max (Radius 1%Z) 2
                       (state_with fresh_leaf roomy_file))
  = Some [(0, 1, 1%Z); (0, 2, 1%Z); (1, 0, 1%Z); (2, 0, 1%Z)].
Proof. reflexivity. Qed.

Lemma range_write_failure_witness :
  ∃ s', Z_FindAllNearest 0 0 Z_max (Radius 1%Z) 2 (state_with fresh_leaf no_space_file)
        = Fatal ("Error while writing range nearest neighbors: "
                 +:+ Z_strerror 28 +:+ newline) s'
        ∧ written (range_nn_fp_ s')
          = [] ++ take 2 (Z_records fresh_leaf fresh_leaf 1%Z 2 4)
        ∧ refused (range_nn_fp_ s') = 1
        ∧ memory s' = [fresh_leaf].
Proof.
  apply (proj2 (range_write_failure_is_fatal Z Z.ltb Z.leb 0%Z Z_max unit unit
                  true Z_default Z_Distance Nat.eqb Z_strerror Z_sort
                  0 0 Z_max 1%Z 2 fresh_leaf fresh_leaf
                  (state_with fresh_leaf no_space_file)
                  eq_refl fresh_leaf_ok eq_refl fresh_leaf_ok)).
  vm_compute. lia.
Defined.

(** The run above: the device takes two records and refuses the third; the
    message carries what [strerror] makes of the device's [errno], 28. *)
Example range_write_failure_scenario :
  match Z_FindAllNearest 0 0 Z_max (Radius 1%Z) 2 (state_with fresh_leaf no_space_file) with
  | Fatal msg s' =>
      msg = "Error while writing range nearest neighbors: errno 28" +:+ newline
      ∧ (λ r, (point_id_ r, id_ (nearest_ r), distance_ r)) <$> written (range_nn_fp_ s')
        = [(0, 1, 1%Z); (0, 2, 1%Z)]
  | _ => False
  end.
Proof. vm_compute. split; reflexivity. Qed.

Lemma knn_bound_witness :
  ∃ bound' s' q' worst (kth : nat → Z),
    Z_FindAllNearest 0 0 Z_max (KNearest 2) 2 searching = Ok bound' s'
    ∧ memory s' !! 0 = Some q'
    ∧ (∀ i, i < num_of_points_ (leaf_with 8) →
         Z_kth_smallest 2 (kth i)
           (seeds (kneighbors_ (leaf_with 8)) i 2
            ++ Z_candidates (leaf_with 8) (query_point_at (leaf_with 8) 2 i) 2)
         ∧ ∃ slot, kneighbors_ q' !! (i * 2 + 2 - 1) = Some slot
                   ∧ distance_ slot = kth i)
    ∧ (worst = 0%Z ∨ ∃ i, i < num_of_points_ (leaf_with 8) ∧ worst = kth i)
    ∧ (worst <? 0)%Z = false
    ∧ (∀ i, i < num_of_points_ (leaf_with 8) → (worst <? kth i)%Z = false)
    ∧ bound' = (if (worst <? Z_max)%Z then worst else Z_max)
    ∧ (Z_max <? bound')%Z = false.
Proof.
  apply (knn_bound_is_running_max_capped_by_incoming Z Z.ltb Z.leb 0%Z Z_max unit unit
           true Z_default Z_Distance Nat.eqb Z_strerror Z_sort
           Z_sort_Permutation Z_sort_ascending Z_ltb_irrefl Z_ltb_trans
           0 0 Z_max 2 2 (leaf_with 8) (leaf_with 8) searching).
  - lia.
  - reflexivity.
  - exact (leaf_with_ok 8).
  - reflexivity.
  - exact (leaf_with_ok 8).
  - simpl. lia.
Defined.

(** The bound of the run above: the largest of the four second-nearest
    distances, 41 for the point (5,5). *)
Example knn_bound_scenario : returned first_run = Some 41%Z.
Proof. reflexivity. Qed.

Lemma InitKNeighbors_witness :
  ∃ buf,
    Z_InitKNeighbors 0 2 searching
    = Ok tt (set_memory (<[0 := set_kneighbors buf (leaf_with 8)]> (memory searching))
               searching)
    ∧ length buf = length (kneighbors_ (leaf_with 8))
    ∧ (∀ i j slot, i < num_of_points_ (leaf_with 8) → j < 2 →
         kneighbors_ (leaf_with 8) !! (i * 2 + j) = Some slot →
         ∃ id, index_ (leaf_with 8) !! i = Some id
               ∧ buf !! (i * 2 + j) = Some (set_point_id id slot))
    ∧ (∀ m, num_of_points_ (leaf_with 8) * 2 ≤ m →
         buf !! m = kneighbors_ (leaf_with 8) !! m).
Proof.
  apply (InitKNeighbors_primes_point_id Z unit unit 0 2 (leaf_with 8) searching).
  - reflexivity.
  - exact (leaf_with_ok 8).
  - simpl. lia.
Defined.

(** C7 fails as stated: on the leaf as the constructor and [Init] leave it,
    whose neighbours buffer is NULL, [InitKNeighbors] writes through the
    NULL pointer instead of allocating; and on a leaf that has eight slots,
    [InitKNeighbors(1)] leaves a buffer of eight slots, not of
    pointCount × k = 4. *)
Lemma InitKNeighbors_allocates_nothing :
  kneighbors_ fresh_leaf = []
  ∧ Z_InitKNeighbors 0 2 (state_with fresh_leaf no_space_file) = Undefined
  ∧ ∃ s' n', Z_InitKNeighbors 0 1 searching = Ok tt s'
             ∧ memory s' !! 0 = Some n'
             ∧ length (kneighbors_ n') = 8
             ∧ num_of_points_ n' * 1 = 4.
Proof.
  split_and!; [reflexivity|reflexivity|].
  do 2 eexists. split_and!; reflexivity.
Qed.




Lemma second_knn_run_witness :
  ∃ b1 s1 q1 b2 s2 q2,
    Z_FindAllNearest 0 0 Z_max (KNearest 2) 2 searching = Ok b1 s1
    ∧ Z_FindAllNearest 0 0 Z_max (KNearest 2) 2 s1 = Ok b2 s2
    ∧ memory s1 !! 0 = Some q1
    ∧ memory s2 !! 0 = Some q2
    ∧ ∀ i, i < num_of_points_ (leaf_with 8) →
        seeds (kneighbors_ q2) i 2
        = take 2 (Z_sort (seeds (kneighbors_ q1) i 2
                          ++ Z_candidates (leaf_with 8) (query_point_at (leaf_with 8) 2 i) 2))
        ∧ ∀ j (c1 c2 : Z * Point_t Z),
            seeds (kneighbors_ q1) i 2 !! j = Some c1 →
            seeds (kneighbors_ q2) i 2 !! j = Some c2 →
            (c1.1 <? c2.1)%Z = false.
Proof.
  apply (second_knn_run_merges_the_leaf_again Z Z.ltb Z.leb 0%Z Z_max unit unit
           true Z_default Z_Distance Nat.eqb Z_strerror Z_sort
           Z_sort_Permutation Z_sort_ascending Z_ltb_irrefl Z_nlt_trans
           0 0 Z_max Z_max 2 2 (leaf_with 8) (leaf_with 8) searching).
  - lia.
  - reflexivity.
  - exact (leaf_with_ok 8).
  - reflexivity.
  - exact (leaf_with_ok 8).
  - simpl. lia.
Defined.

(** C6 fails as stated: the second run over the same leaf does not
    reproduce the buffer of the first.  The point (1,0), with id 1, has the
    neighbours with ids 0 and 2, at distances 1 and 2, after the first run;
    after the second both of its slots hold the neighbour with id 0. *)
Lemma second_knn_run_differs :
  (λ slots, take 2 (drop 2 slots)) <$> slots_after first_run = Some [(1%Z, 0); (2%Z, 2)]
  ∧ (λ slots, take 2 (drop 2 slots)) <$> slots_after second_run = Some [(1%Z, 0); (1%Z, 0)]
  ∧ slots_after second_run ≠ slots_after first_run.
Proof. split_and!; vm_compute; [reflexivity|reflexivity|discriminate]. Qed.

(** ** Runs in double precision

    The same searches with IEEE 754 binary64 distances, whose [operator<=]
    is not the complement of [operator>] and whose largest value is not
    infinity. *)

Definition double_max : spec_float := S754_finite false 9007199254740991 971.

Definition double_zero : spec_float := S754_zero false.

Definition double_one : spec_float := S754_finite false 4503599627370496 (-52).

Definition F_default : Point_t spec_float := {| p_ := []; id_ := 0 |}.

Fixpoint F_squared_distance (a b : list spec_float) : spec_float :=
  match a, b with
  | x :: a', y :: b' =>
      SFadd 53 1024 (SFmul 53 1024 (SFsub 53 1024 x y) (SFsub 53 1024 x y))
        (F_squared_distance a' b')
  | _, _ => double_zero
  end.

Definition F_Distance (q : Point_t spec_float) (coordinates : list spec_float)
    (dimension : nat) : spec_float :=
  F_squared_distance (take dimension (p_ q)) (take dimension coordinates).

Definition F_sort : list (spec_float * Point_t spec_float)
                    → list (spec_float * Point_t spec_float) :=
  insertion_sort (PairComparator spec_float SFltb).

(** A leaf holding the single point (0,0) with id 7. *)
Definition one_point : BinaryDataset spec_float :=
  {| At := λ _ _, double_zero; dataset_get_id := λ _, 7 |}.

Definition F_leaf : Node spec_float unit unit :=
  Init_leaf spec_float unit unit tt tt 0 0 1 2 one_point
    (Node_new spec_float double_max unit unit tt tt 0 0).

Definition F_state_with (leaf : Node spec_float unit unit) : State spec_float unit unit :=
  {| memory := [leaf];
     range_nn_fp_ := {| written := []; room := 0; io_errno := 0; refused := 0 |};
     comp := {| distances := 0; comparisons := 0 |} |}.

Definition F_state : State spec_float unit unit := F_state_with F_leaf.

Definition F_origin : Point_t spec_float :=
  {| p_ := [double_zero; double_zero]; id_ := 0 |}.

Abbreviation F_FindNearest_scan :=
  (FindNearest_scan spec_float SFleb unit unit true F_Distance Nat.eqb).
Abbreviation F_FindNearest :=
  (FindNearest spec_float SFleb double_max unit unit true F_default F_Distance Nat.eqb F_sort).
Abbreviation F_dummy := (dummy spec_float double_max F_default).

(** C2.  The code at the failing input, in double precision: an empty list
    passed in, a leaf with one point and k = 2.  The scan leaves one
    candidate; the loop that finds the trim boundary steps the iterator past
    the end of the list, so the run is undefined and the padding is not
    reached.  The sentinel the padding would append carries the largest
    finite double, which is not +infinity and compares below it. *)
Theorem padding_is_not_reached :
  returned (F_FindNearest_scan 0 F_origin [] (KNearest 2) 2 F_state)
  = Some [(double_zero, {| p_ := [double_zero; double_zero]; id_ := 7 |})]
  ∧ F_FindNearest 0 F_origin [] (KNearest 2) 2 F_state = Undefined
  ∧ F_dummy.1 = double_max
  ∧ double_max ≠ S754_infinity false
  ∧ SFltb double_max (S754_infinity false) = true.
Proof. split_and!; vm_compute; [reflexivity|reflexivity|reflexivity|discriminate|reflexivity]. Qed.

(** A leaf holding the points (0,0), with id 7, and (NaN,0), with id 8. *)
Definition two_points : BinaryDataset spec_float :=
  {| At := λ i j, match i, j with 1, 0 => S754_nan | _, _ => double_zero end;
     dataset_get_id := λ i, 7 + i |}.

Definition F_leaf_nan : Node spec_float unit unit :=
  Init_leaf spec_float unit unit tt tt 0 0 2 2 two_points
    (Node_new spec_float double_max unit unit tt tt 0 0).

(** The range test is [dist <= range]: a point whose distance is not a
    number is within no radius, though the radius is not less than it. *)
Example range_search_drops_a_distance_that_is_not_a_number :
  returned (F_FindNearest 0 F_origin [] (Radius double_one) 2 (F_state_with F_leaf_nan))
  = Some [(double_zero, {| p_ := [double_zero; double_zero]; id_ := 7 |})]
  ∧ F_Distance F_origin [S754_nan; double_zero] 2 = S754_nan
  ∧ SFleb S754_nan double_one = false
  ∧ SFltb double_one S754_nan = false.
Proof. split_and!; vm_compute; reflexivity. Qed.

(** ** Further runs

    Runs of the initialiser, of [ClosestNode] and of the searches on the
    index above, at which the further properties are instantiated. *)

Arguments comp {Precision_t BoundingBox_t NodeCachedStatistics_t} s.
Arguments set_comp {Precision_t BoundingBox_t NodeCachedStatistics_t} c s.
Arguments box_ {Precision_t BoundingBox_t NodeCachedStatistics_t} n.
Arguments statistics_ {Precision_t BoundingBox_t NodeCachedStatistics_t} n.
Arguments left_ {Precision_t BoundingBox_t NodeCachedStatistics_t} n.
Arguments right_ {Precision_t BoundingBox_t NodeCachedStatistics_t} n.
Arguments node_id_ {Precision_t BoundingBox_t NodeCachedStatistics_t} n.
Arguments min_dist_so_far_ {Precision_t BoundingBox_t NodeCachedStatistics_t} n.
Arguments dataset_point {Precision_t} dataset dimension i.
Arguments IsLeaf {Precision_t BoundingBox_t NodeCachedStatistics_t} n.

(** An allocator that leaves the same junk in every element it hands out. *)
Definition Z_malloc (size : nat) : list Z := replicate size 77%Z.

Definition Z_malloc_index (size : nat) : list index_t := replicate size 99.

(** A node as the constructor leaves it, in an arena of its own. *)
Definition blank_node : Node Z unit unit := Node_new Z Z_max unit unit tt tt 0 0.

Definition blank : State Z unit unit := state_with blank_node roomy_file.

Abbreviation Z_Init_leaf_run := (Init_leaf_run Z unit unit Z_malloc Z_malloc_index).
Abbreviation Z_Init_leaf := (Init_leaf Z unit unit).
Abbreviation Z_count_up := (count_up true).
Abbreviation Z_Print_heading := (Print_heading Z unit unit Z_box_Print).
Abbreviation Z_Print_point := (Print_point Z unit unit pretty).

(** Nodes whose box is a point of the line, the distance between two boxes
    being the distance between the points; every computation is counted. *)
Definition interval_Distance (a b : Z) (dimension : nat) (c : ComputationsCounter)
    : Z * ComputationsCounter :=
  (Z.abs (a - b), {| distances := S (distances c); comparisons := comparisons c |}).

Definition node_at (box : Z) : Node Z Z unit := Node_new Z Z_max Z unit box tt 0 0.

Definition three_nodes : State Z Z unit :=
  {| memory := [node_at 0; node_at 5; node_at 2];
     range_nn_fp_ := roomy_file;
     comp := {| distances := 0; comparisons := 0 |} |}.

Abbreviation Z_ClosestNode := (ClosestNode Z Z.ltb Z unit interval_Distance).

(** [Init] on the four points of the scenario yields the leaf of the runs
    above; the junk of the allocator is gone. *)
Example Init_scenario :
  Z_Init_leaf_run 0 tt tt 7 0 4 2 four_points blank
  = Ok tt (state_with fresh_leaf roomy_file)
  ∧ points_ fresh_leaf = [0; 0; 1; 0; 0; 1; 5; 5]%Z
  ∧ index_ fresh_leaf = [0; 1; 2; 3].
Proof. split_and!; reflexivity. Qed.

Lemma Init_holds_the_dataset_slice_witness :
  ∃ n' : Node Z unit unit,
    Z_Init_leaf_run 0 tt tt 7 0 4 2 four_points blank
    = Ok tt (set_memory (<[0 := n']> (memory blank)) blank)
    ∧ n' = Z_Init_leaf tt tt 7 0 4 2 four_points blank_node
    ∧ leaf_points n' 2 = dataset_point four_points 2 <$> seq 0 4
    ∧ length (points_ n') = 4 * 2
    ∧ length (index_ n') = 4
    ∧ (box_ n', statistics_ n', node_id_ n', num_of_points_ n') = (tt, tt, 7, 4)
    ∧ (left_ n', right_ n', kneighbors_ n', min_dist_so_far_ n')
      = (left_ blank_node, right_ blank_node, kneighbors_ blank_node,
         min_dist_so_far_ blank_node).
Proof.
  apply (Init_holds_the_dataset_slice Z unit unit Z_malloc Z_malloc_index
           (λ size, length_replicate size 77%Z) (λ size, length_replicate size 99)
           0 tt tt 7 0 4 2 four_points blank_node blank).
  reflexivity.
Defined.

Lemma Init_then_range_search_witness :
  ∃ s1 s2 : State Z unit unit,
    Z_Init_leaf_run 0 tt tt 7 0 4 2 four_points blank = Ok tt s1
    ∧ Z_FindNearest 0 origin [] (Radius 1%Z) 2 s1
      = Ok ([] ++ filter (λ c : Z * Point_t Z, (c.1 <=? 1)%Z = true)
                    (Z_with_distance origin 2
                       (non_excluded Z Nat.eqb origin
                          (dataset_point four_points 2 <$> seq 0 4))))
           s2.
Proof.
  apply (Init_then_range_search_finds_the_rows Z Z.leb Z_max unit unit true Z_default
           Z_Distance Nat.eqb Z_sort Z_malloc Z_malloc_index
           (λ size, length_replicate size 77%Z) (λ size, length_replicate size 99)
           0 tt tt 7 0 4 2 four_points origin [] 1%Z blank_node blank).
  reflexivity.
Defined.

(** From the node at 0, the node at 2 is nearer than the node at 5, and
    comes first though it was given second. *)
Example ClosestNode_scenario :
  returned (Z_ClosestNode 0 1 2 1 three_nodes) = Some ((2, 2%Z), (1, 5%Z)).
Proof. reflexivity. Qed.

Lemma ClosestNode_nearer_first_witness :
  let r1 := interval_Distance (box_ (node_at 0)) (box_ (node_at 5)) 1 (comp three_nodes) in
  let r2 := interval_Distance (box_ (node_at 0)) (box_ (node_at 2)) 1 r1.2 in
  ∃ near far : NodePtr_t * Z,
    Z_ClosestNode 0 1 2 1 three_nodes = Ok (near, far) (set_comp r2.2 three_nodes)
    ∧ (far.2 <? near.2)%Z = false
    ∧ ((r1.1 <? r2.1)%Z = true → near = (1, r1.1) ∧ far = (2, r2.1))
    ∧ ((r1.1 <? r2.1)%Z = false → near = (2, r2.1) ∧ far = (1, r1.1)).
Proof.
  apply (ClosestNode_nearer_first Z Z.ltb Z unit interval_Distance
           Z_ltb_irrefl Z_ltb_trans
           0 1 2 1 (node_at 0) (node_at 5) (node_at 2) three_nodes).
  - reflexivity.
  - reflexivity.
  - reflexivity.
Defined.

Lemma FindNearest_charges_every_point_witness :
  let counted := set_comp (Z_count_up (num_of_points_ fresh_leaf) 0
                             (comp (state_with fresh_leaf no_space_file)))
                   (state_with fresh_leaf no_space_file) in
  (∃ found : list (Z * Point_t Z),
     Z_FindNearest_scan 0 origin [] (KNearest 2) 2 (state_with fresh_leaf no_space_file)
     = Ok found counted)
  ∧ ∃ res : list (Z * Point_t Z),
      Z_FindNearest 0 origin [] (KNearest 2) 2 (state_with fresh_leaf no_space_file)
      = Ok res counted.
Proof.
  destruct (FindNearest_charges_every_point Z Z.leb Z_max unit unit true Z_default
              Z_Distance Nat.eqb Z_sort Z_sort_Permutation 0 origin [] (KNearest 2) 2
              fresh_leaf (state_with fresh_leaf no_space_file) eq_refl fresh_leaf_ok)
    as [Hscan Hfind].
  split; [exact Hscan|]. apply Hfind.
  intros k [= <-]. vm_compute. lia.
Defined.

(** The search from the origin, itself a point of the leaf, computes three
    distances and reports four. *)
Example FindNearest_counts_the_excluded_point :
  (λ s, distances (comp s))
    <$> state_after (Z_FindNearest 0 origin [] (KNearest 2) 2
                       (state_with fresh_leaf no_space_file)) = Some 4
  ∧ length (Z_candidates fresh_leaf origin 2) = 3.
Proof. split; reflexivity. Qed.

(** A leaf that claims four points and has ids for two of them. *)
Definition short_of_ids : Node Z unit unit :=
  {| box_ := tt; statistics_ := tt; left_ := None; right_ := None;
     points_ := points_ fresh_leaf; index_ := [0; 1]; kneighbors_ := [];
     node_id_ := 7; num_of_points_ := 4; min_dist_so_far_ := Z_max |}.

(** The search reads the id of the third point, which is not there. *)
Example FindNearest_reads_past_the_id_buffer :
  Z_FindNearest 0 origin [] (Radius 1%Z) 2 (state_with short_of_ids no_space_file)
  = Undefined
  ∧ Z_FindNearest 0 origin [] (Radius 1%Z) 2 (state_with fresh_leaf no_space_file)
    = Ok [(1%Z, {| p_ := [1; 0]%Z; id_ := 1 |}); (1%Z, {| p_ := [0; 1]%Z; id_ := 2 |})]
         {| memory := [fresh_leaf]; range_nn_fp_ := no_space_file;
            comp := {| distances := 4; comparisons := 0 |} |}.
Proof. split; reflexivity. Qed.

Lemma range_search_grows_with_radius_witness :
  ∃ (found found' : list (Z * Point_t Z)) (s1 s2 : State Z unit unit),
    Z_FindNearest 0 origin [] (Radius 1%Z) 2 (state_with fresh_leaf no_space_file)
    = Ok ([] ++ found) s1
    ∧ Z_FindNearest 0 origin [] (Radius 50%Z) 2 (state_with fresh_leaf no_space_file)
      = Ok ([] ++ found') s2
    ∧ found `sublist_of` found'.
Proof.
  apply (range_search_grows_with_radius Z Z.leb Z_max unit unit true Z_default
           Z_Distance Nat.eqb Z_sort Z_leb_trans 0 origin [] 1%Z 50%Z 2 fresh_leaf
           (state_with fresh_leaf no_space_file)).
  - reflexivity.
  - exact fresh_leaf_ok.
  - reflexivity.
Defined.

Lemma knn_results_are_nested_witness :
  ∃ (res res' : list (Z * Point_t Z)) (s1 s2 : State Z unit unit),
    Z_FindNearest 0 origin [] (KNearest 1) 2 (state_with fresh_leaf no_space_file)
    = Ok res s1
    ∧ Z_FindNearest 0 origin [] (KNearest 3) 2 (state_with fresh_leaf no_space_file)
      = Ok res' s2
    ∧ res = take 1 res'.
Proof.
  apply (knn_results_are_nested Z Z.leb Z_max unit unit true Z_default
           Z_Distance Nat.eqb Z_sort Z_sort_Permutation 0 origin [] 1 3 2 fresh_leaf
           (state_with fresh_leaf no_space_file)).
  - reflexivity.
  - exact fresh_leaf_ok.
  - lia.
  - vm_compute. lia.
Defined.

(** The three neighbours of the origin, nearest first; the nearest alone is
    the result for k = 1. *)
Example knn_results_scenario :
  returned (Z_FindNearest 0 origin [] (KNearest 3) 2 (state_with fresh_leaf no_space_file))
  = Some [(1%Z, {| p_ := [1; 0]%Z; id_ := 1 |}); (1%Z, {| p_ := [0; 1]%Z; id_ := 2 |});
          (50%Z, {| p_ := [5; 5]%Z; id_ := 3 |})].
Proof. reflexivity. Qed.

Lemma FindAllNearest_charges_all_pairs_witness :
  ∃ (bound' : Z) (s' : State Z unit unit),
    Z_FindAllNearest 0 0 Z_max (KNearest 2) 2 searching = Ok bound' s'
    ∧ comp s'
      = Z_count_up (num_of_points_ (leaf_with 8) * num_of_points_ (leaf_with 8))
          (if isStdFloat Z (KNearest 2) then 0 else num_of_points_ (leaf_with 8))
          (comp searching).
Proof.
  apply (FindAllNearest_charges_all_pairs Z Z.ltb Z.leb 0%Z Z_max unit unit true Z_default
           Z_Distance Nat.eqb Z_strerror Z_sort Z_sort_Permutation
           0 0 Z_max (KNearest 2) 2 (leaf_with 8) (leaf_with 8) searching).
  - reflexivity.
  - exact (leaf_with_ok 8).
  - reflexivity.
  - exact (leaf_with_ok 8).
  - simpl. lia.
Defined.

(** Four points searched against four: sixteen distance computations and
    four comparisons. *)
Example FindAllNearest_counts :
  comp <$> state_after first_run = Some {| distances := 16; comparisons := 4 |}.
Proof. vm_compute. reflexivity. Qed.

Lemma FindAllNearest_knn_needs_k_slots_witness :
  Z_FindAllNearest 0 0 Z_max (KNearest 3) 2 searching = Undefined.
Proof.
  apply (FindAllNearest_knn_needs_k_slots_per_point Z Z.ltb Z.leb 0%Z Z_max unit unit true
           Z_default Z_Distance Nat.eqb Z_strerror Z_sort
           0 0 Z_max 3 2 (leaf_with 8) searching).
  - reflexivity.
  - simpl. lia.
  - simpl. lia.
Defined.

Lemma FindAllNearest_on_empty_query_node_witness :
  Z_FindAllNearest 0 0 Z_max (KNearest 2) 2 blank
  = Ok (if (0 <? Z_max)%Z then 0%Z else Z_max) blank.
Proof.
  apply (FindAllNearest_on_empty_query_node Z Z.ltb Z.leb 0%Z Z_max unit unit true
           Z_default Z_Distance Nat.eqb Z_strerror Z_sort
           0 0 Z_max (KNearest 2) 2 blank_node blank).
  - reflexivity.
  - reflexivity.
Defined.

Lemma InitKNeighbors_needs_k_slots_witness :
  Z_InitKNeighbors 0 2 (state_with fresh_leaf no_space_file) = Undefined.
Proof.
  apply (InitKNeighbors_needs_k_slots_per_point Z unit unit 0 2 fresh_leaf
           (state_with fresh_leaf no_space_file)).
  - reflexivity.
  - simpl. lia.
Defined.

Lemma InitKNeighbors_twice_is_once_witness :
  ∃ s1 : State Z unit unit,
    Z_InitKNeighbors 0 2 searching = Ok tt s1 ∧ Z_InitKNeighbors 0 2 s1 = Ok tt s1.
Proof.
  apply (InitKNeighbors_twice_is_once Z unit unit 0 2 (leaf_with 8) searching).
  - reflexivity.
  - exact (leaf_with_ok 8).
  - simpl. lia.
Defined.

Lemma InitKNeighbors_then_search_witness :
  ∃ (s0 : State Z unit unit) (bound' : Z) (s' : State Z unit unit) (q' : Node Z unit unit),
    Z_InitKNeighbors 0 2 searching = Ok tt s0
    ∧ Z_FindAllNearest 0 0 Z_max (KNearest 2) 2 s0 = Ok bound' s'
    ∧ memory s' !! 0 = Some q'
    ∧ length (kneighbors_ q') = length (kneighbors_ (leaf_with 8))
    ∧ ∀ i j : nat,
        i < num_of_points_ (leaf_with 8) → j < 2 →
        ∃ slot : NNResult Z,
          kneighbors_ q' !! (i * 2 + j) = Some slot
          ∧ point_id_ slot = index_ (leaf_with 8) !!! i.
Proof.
  apply (InitKNeighbors_then_search_keeps_point_ids Z Z.ltb Z.leb 0%Z Z_max unit unit true
           Z_default Z_Distance Nat.eqb Z_strerror Z_sort Z_sort_Permutation
           0 0 Z_max 2 2 (leaf_with 8) (leaf_with 8) searching).
  - lia.
  - reflexivity.
  - exact (leaf_with_ok 8).
  - reflexivity.
  - exact (leaf_with_ok 8).
  - simpl. lia.
Defined.

Lemma knn_search_keeps_slots_sorted_witness :
  ∃ (bound' : Z) (s' : State Z unit unit) (q' : Node Z unit unit),
    Z_FindAllNearest 0 0 Z_max (KNearest 2) 2 searching = Ok bound' s'
    ∧ memory s' !! 0 = Some q'
    ∧ (∀ (i j1 j2 : nat) (a b : NNResult Z),
         i < num_of_points_ (leaf_with 8) → j1 < j2 → j2 < 2 →
         kneighbors_ q' !! (i * 2 + j1) = Some a →
         kneighbors_ q' !! (i * 2 + j2) = Some b →
         (distance_ b <? distance_ a)%Z = false)
    ∧ (∀ i : nat,
         i < num_of_points_ (leaf_with 8) →
         (∀ (j1 j2 : nat) (a b : NNResult Z),
            j1 < j2 → j2 < 2 →
            kneighbors_ (leaf_with 8) !! (i * 2 + j1) = Some a →
            kneighbors_ (leaf_with 8) !! (i * 2 + j2) = Some b →
            (distance_ b <? distance_ a)%Z = false) →
         ∀ (j : nat) (old new : NNResult Z),
           j < 2 →
           kneighbors_ (leaf_with 8) !! (i * 2 + j) = Some old →
           kneighbors_ q' !! (i * 2 + j) = Some new →
           (distance_ old <? distance_ new)%Z = false).
Proof.
  apply (knn_search_keeps_slots_sorted Z Z.ltb Z.leb 0%Z Z_max unit unit true
           Z_default Z_Distance Nat.eqb Z_strerror Z_sort
           Z_sort_Permutation Z_sort_ascending Z_ltb_irrefl Z_nlt_trans
           0 0 Z_max 2 2 (leaf_with 8) (leaf_with 8) searching).
  - lia.
  - reflexivity.
  - exact (leaf_with_ok 8).
  - reflexivity.
  - exact (leaf_with_ok 8).
  - simpl. lia.
Defined.

Lemma knn_search_from_sentinels_witness :
  ∃ (bound' : Z) (s' : State Z unit unit) (q' : Node Z unit unit),
    Z_FindAllNearest 0 0 Z_max (KNearest 2) 2 searching = Ok bound' s'
    ∧ memory s' !! 0 = Some q'
    ∧ ∀ i : nat,
        i < num_of_points_ (leaf_with 8) →
        let found := Z_knn (leaf_with 8) (query_point_at (leaf_with 8) 2 i) 2 2 in
        seeds (kneighbors_ q') i 2 = found ++ replicate (2 - length found) Z_dummy.
Proof.
  apply (knn_search_from_sentinels_is_brute_force Z Z.ltb Z.leb 0%Z Z_max unit unit true
           Z_default Z_Distance Nat.eqb Z_strerror Z_sort
           Z_sort_Permutation Z_sort_ascending Z_ltb_irrefl Z_ltb_trans Z_nlt_trans
           0 0 Z_max 2 2 (leaf_with 8) (leaf_with 8) searching).
  - lia.
  - reflexivity.
  - exact (leaf_with_ok 8).
  - reflexivity.
  - exact (leaf_with_ok 8).
  - simpl. lia.
  - vm_compute. repeat (constructor; [rewrite ?elem_of_cons, elem_of_nil; lia|]).
    constructor.
  - intros m slot Hm Hslot. apply lookup_replicate in Hslot as [-> _]. reflexivity.
  - intros i c Hi Hc. simpl in Hi.
    do 4 (destruct i as [|i];
          [vm_compute in Hc;
           repeat (apply elem_of_cons in Hc as [->|Hc]; [reflexivity|]);
           by apply elem_of_nil in Hc|]).
    lia.
Defined.

(** The neighbours of the four points after the first run: for each point
    its two nearest in the leaf, nearer first. *)
Example knn_search_scenario :
  slots_after first_run
  = Some [(1%Z, 1); (1%Z, 2); (1%Z, 0); (2%Z, 2); (1%Z, 0); (2%Z, 1); (41%Z, 1); (41%Z, 2)].
Proof. vm_compute. reflexivity. Qed.

Lemma Print_writes_heading_and_points_witness :
  (IsLeaf fresh_leaf = false →
   Z_Print 0 2 (state_with fresh_leaf no_space_file)
   = Ok (Z_Print_heading fresh_leaf 2) (state_with fresh_leaf no_space_file))
  ∧ Z_Print 0 2 (state_with fresh_leaf no_space_file)
    = Ok (Z_Print_heading fresh_leaf 2
          +:+ joined (Z_Print_point fresh_leaf 2 <$> seq 0 (num_of_points_ fresh_leaf)))
         (state_with fresh_leaf no_space_file).
Proof.
  destruct (Print_writes_heading_and_points Z unit unit Z_box_Print pretty 0 2 fresh_leaf
              (state_with fresh_leaf no_space_file) eq_refl) as [Hnode Hleaf].
  split; [exact Hnode|]. apply Hleaf.
  - reflexivity.
  - exact fresh_leaf_ok.
  - simpl. lia.
Defined.

(** What [Print] writes for the leaf of the scenario. *)
Example Print_scenario :
  returned (Z_Print 0 2 (state_with fresh_leaf no_space_file))
  = Some ("Leaf: 7" +:+ newline +:+ "num_of_points: 4" +:+ newline
          +:+ "0 0 -0 " +:+ newline +:+ "1 0 -1 " +:+ newline
          +:+ "0 1 -2 " +:+ newline +:+ "5 5 -3 " +:+ newline).
Proof. vm_compute. reflexivity. Qed.

(** A query point far from the leaf, holding two candidates from nearer
    leaves. *)
Definition distant : Point_t Z := {| p_ := [10; 10]%Z; id_ := 9 |}.

Definition held : list (Z * Point_t Z) :=
  [(7%Z, {| p_ := [12; 11]%Z; id_ := 12 |}); (3%Z, {| p_ := [9; 11]%Z; id_ := 11 |})].

Lemma far_leaf_contributes_nothing_witness :
  ∃ (res : list (Z * Point_t Z)) (s' : State Z unit unit),
    Z_FindNearest 0 distant held (KNearest 2) 2 (state_with fresh_leaf no_space_file)
    = Ok res s'
    ∧ res ≡ₚ held
    ∧ ∀ (i j : nat) (a b : Z * Point_t Z),
        i < j → res !! i = Some a → res !! j = Some b → (b.1 <? a.1)%Z = false.
Proof.
  apply (far_leaf_contributes_nothing Z Z.ltb Z.leb Z_max unit unit true Z_default
           Z_Distance Nat.eqb Z_sort Z_sort_Permutation Z_sort_ascending
           Z_ltb_irrefl Z_ltb_trans Z_nlt_trans
           0 distant held 2 2 fresh_leaf (state_with fresh_leaf no_space_file)).
  - reflexivity.
  - exact fresh_leaf_ok.
  - reflexivity.
  - intros a c Ha Hc. vm_compute in Hc.
    repeat (apply elem_of_cons in Ha as [->|Ha]);
      [..|by apply elem_of_nil in Ha];
      (repeat (apply elem_of_cons in Hc as [->|Hc]; [reflexivity|]);
       by apply elem_of_nil in Hc).
Defined.

(** The two candidates held come back, nearer first; the nearest point of
    the leaf is at squared distance 50. *)
Example far_leaf_scenario :
  returned (Z_FindNearest 0 distant held (KNearest 2) 2
              (state_with fresh_leaf no_space_file))
  = Some (reverse held)
  ∧ Z_knn fresh_leaf distant 1 2 = [(50%Z, {| p_ := [5; 5]%Z; id_ := 3 |})].
Proof. split; reflexivity. Qed.

Lemma knn_search_writes_distance_and_neighbour_only_witness :
  ∃ (bound' : Z) (s' : State Z unit unit) (q' : Node Z unit unit),
    Z_FindAllNearest 0 0 Z_max (KNearest 2) 2 (state_with (leaf_with 10) no_space_file)
    = Ok bound' s'
    ∧ memory s' !! 0 = Some q'
    ∧ range_nn_fp_ s' = range_nn_fp_ (state_with (leaf_with 10) no_space_file)
    ∧ length (kneighbors_ q') = length (kneighbors_ (leaf_with 10))
    ∧ ∀ (m : nat) (slot : NNResult Z),
        kneighbors_ (leaf_with 10) !! m = Some slot →
        ∃ slot' : NNResult Z,
          kneighbors_ q' !! m = Some slot'
          ∧ point_id_ slot' = point_id_ slot
          ∧ (num_of_points_ (leaf_with 10) * 2 ≤ m → slot' = slot).
Proof.
  apply (knn_search_writes_distance_and_neighbour_only Z Z.ltb Z.leb 0%Z Z_max unit unit true
           Z_default Z_Distance Nat.eqb Z_strerror Z_sort Z_sort_Permutation
           0 0 Z_max 2 2 (leaf_with 10) (leaf_with 10)
           (state_with (leaf_with 10) no_space_file)).
  - lia.
  - reflexivity.
  - exact (leaf_with_ok 10).
  - reflexivity.
  - exact (leaf_with_ok 10).
  - simpl. lia.
Defined.
